(** * Social-network analysis tool: a shallow embedding of [app.py]

    The program builds an undirected [networkx] graph from an adjacency-list
    text and derives centrality scores, clustering coefficients, friend
    recommendations and suspicious accounts from it.

    Conventions of the embedding:
    - a Python [str] is the list of its Unicode code points;
    - a Python [dict] is an association list in insertion order with unique
      keys (iteration order is observable in the program's rankings);
    - a Python [float] is an exact rational of [Q] in the modules [Nx],
      [Louvain] and [App], whose statements speak of the keys, the order,
      the sign and the range of the scores and hold with and without
      rounding; where a statement depends on the rounding itself, the
      scores are the binary64 numbers of the module [Rounded];
    - a Python exception is a value of the error type [exn]. *)

From Stdlib Require Import List NArith ZArith QArith Qround Lia Bool Arith.
From Stdlib Require Import Permutation Sorted Lqa Qpower SpecFloat.
From Stdlib Require String Ascii.
From Stdlib Require Strings.Byte.
Import String.StringSyntax.
Delimit Scope string_scope with string.
Import ListNotations.

Set Implicit Arguments.
Local Close Scope Q_scope.
Local Open Scope nat_scope.
Local Open Scope list_scope.

(* ===================================================================== *)
(** ** Python strings *)
(* ===================================================================== *)

Module Py.

Definition str := list N.

Definition str_eq_dec : forall a b : str, {a = b} + {a <> b} :=
  list_eq_dec N.eq_dec.

Definition str_eqb (a b : str) : bool :=
  if str_eq_dec a b then true else false.

(** Literals of the development are written as Rocq strings. *)
Fixpoint lit (s : String.string) : str :=
  match s with
  | String.EmptyString => []
  | String.String c s' => Ascii.N_of_ascii c :: lit s'
  end.

(** [str.isspace] on one code point: the 29 characters Python treats as
    whitespace. *)
Definition isspace (c : N) : bool :=
  (((9 <=? c) && (c <=? 13)) || ((28 <=? c) && (c <=? 32))
  || (c =? 133) || (c =? 160) || (c =? 5760)
  || ((8192 <=? c) && (c <=? 8202))
  || (c =? 8232) || (c =? 8233) || (c =? 8239) || (c =? 8287)
  || (c =? 12288))%N.

(** [s.split('\n')]: always at least one piece. *)
Fixpoint split_newline (s : str) : list str :=
  match s with
  | [] => [[]]
  | c :: s' =>
      if (c =? 10)%N then [] :: split_newline s'
      else match split_newline s' with
           | [] => [[c]]
           | l :: ls => (c :: l) :: ls
           end
  end.

Fixpoint lstrip (s : str) : str :=
  match s with
  | [] => []
  | c :: s' => if isspace c then lstrip s' else s
  end.

Definition rstrip (s : str) : str := rev (lstrip (rev s)).

(** [s.strip()] *)
Definition strip (s : str) : str := rstrip (lstrip s).

(** [s.split()]: maximal runs of non-whitespace characters.  [tok] is the
    run being read, most recent character first. *)
Fixpoint words (tok : str) (s : str) : list str :=
  match s with
  | [] => match tok with [] => [] | _ => [rev tok] end
  | c :: s' =>
      if isspace c
      then match tok with
           | [] => words [] s'
           | _ => rev tok :: words [] s'
           end
      else words (c :: tok) s'
  end.

Definition split (s : str) : list str := words [] s.

(** Truthiness of a string: [not s] holds of the empty string only. *)
Definition is_empty (s : str) : bool :=
  match s with [] => true | _ => false end.

Arguments lit s%_string.

(** Python compares strings by code point, lexicographically. *)
Fixpoint str_ltb (a b : str) : bool :=
  match a, b with
  | _, [] => false
  | [], _ :: _ => true
  | x :: a', y :: b' => (x <? y)%N || ((x =? y)%N && str_ltb a' b')
  end.


(** Exceptions that reach the functions of the program. *)
Inductive exn : Type :=
| KeyError
| IndexError
| ZeroDivisionError
| ValueError
| NodeNotFound
| NetworkXError (msg : String.string)
| NetworkXPointlessConcept
| UnicodeDecodeError.

Inductive result (A : Type) : Type :=
| Ok (a : A)
| Raise (e : exn).

Arguments NetworkXError msg%_string.
Arguments Ok {A} a.
Arguments Raise {A} e.

Definition bind {A B} (r : result A) (k : A -> result B) : result B :=
  match r with Ok a => k a | Raise e => Raise e end.


(** Library loops run on fuel: [None] says that the fuel ran out before the
    loop ended, [Some (Raise e)] that the call raised [e]. *)
Definition comp (A : Type) : Type := option (result A).

Definition ret {A} (a : A) : comp A := Some (Ok a).

Definition raise {A} (e : exn) : comp A := Some (Raise e).

Definition cbind {A B} (c : comp A) (k : A -> comp B) : comp B :=
  match c with
  | Some (Ok a) => k a
  | Some (Raise e) => Some (Raise e)
  | None => None
  end.

(** [for x in l: acc = f(acc, x)] for a body that may raise. *)
Fixpoint cfold {A B} (f : B -> A -> comp B) (l : list A) (acc : B) : comp B :=
  match l with
  | [] => ret acc
  | x :: l' => cbind (f acc x) (cfold f l')
  end.

(** Rationals stand for floats; [int / int] of two lengths. *)
Definition ratio (a b : nat) : Q := (inject_Z (Z.of_nat a) / inject_Z (Z.of_nat b))%Q.

Definition Qltb (x y : Q) : bool := negb (Qle_bool y x).

Definition sum_Q (l : list Q) : Q := fold_left Qplus l 0%Q.

Section Sorted.
Variable A : Type.
Variable key : A -> Q.

(** [x] may stand before [y]: keys ascending, or descending when
    [reverse=True]. *)
Definition before (reverse : bool) (x y : A) : bool :=
  if reverse then Qle_bool (key y) (key x) else Qle_bool (key x) (key y).

Fixpoint insert_sorted (reverse : bool) (x : A) (l : list A) : list A :=
  match l with
  | [] => [x]
  | y :: l' =>
      if before reverse x y then x :: l
      else y :: insert_sorted reverse x l'
  end.

(** [sorted(l, key=key, reverse=reverse)].  Python's sort is stable, also
    with [reverse=True]: elements with equal keys keep the order they have
    in [l].  On keys that are totally ordered every stable sort returns the
    same list; it is computed here by insertion from the right. *)
Definition sorted (reverse : bool) (l : list A) : list A :=
  fold_right (insert_sorted reverse) [] l.

(** Membership in the tie class of the key value [k]: the elements whose
    key equals [k]. *)
Definition has_key (k : Q) (x : A) : bool := Qeq_bool (key x) k.
End Sorted.

(** Dictionaries in insertion order, over any key type with an equality
  test: [d[k] = v] and [d.get(k)]. *)
Section Dict.
Variables K V : Type.
Variable eqb : K -> K -> bool.

Fixpoint dset (d : list (K * V)) (k : K) (v : V) : list (K * V) :=
match d with
| [] => [(k, v)]
| (k', v') :: d' =>
  if eqb k' k then (k', v) :: d'
  else (k', v') :: dset d' k v
end.

Fixpoint dget (d : list (K * V)) (k : K) : option V :=
match d with
| [] => None
| (k', v) :: d' => if eqb k' k then Some v else dget d' k
end.

(** [d.get(k, default)] *)
Definition dget_default (d : list (K * V)) (k : K) (default : V) : V :=
match dget d k with Some v => v | None => default end.
End Dict.

Definition dict_setitem {V} : list (str * V) -> str -> V -> list (str * V) :=
  dset str_eqb.

Definition dict_get {V} : list (str * V) -> str -> option V := dget str_eqb.

(** [set(l)], [a & b], [a | b], [a - {x}] on sets of strings kept as
duplicate-free lists; the program only takes their sizes. *)
Definition set_of (l : list str) : list str := nodup str_eq_dec l.

Definition set_inter (a b : list str) : list str :=
  filter (fun x => existsb (str_eqb x) b) a.

Definition set_union (a b : list str) : list str :=
  a ++ filter (fun x => negb (existsb (str_eqb x) a)) b.

Definition set_discard (a : list str) (x : str) : list str :=
  filter (fun y => negb (str_eqb y x)) a.

End Py.

(* ===================================================================== *)
(** ** networkx: the undirected graph class *)
(* ===================================================================== *)

Module Nx.

Import Py.

(** A node is its identifier. *)
Abbreviation node := str (only parsing).

(** [Graph._adj]: node -> (neighbour -> edge attributes), both levels in
insertion order.  The program never sets an edge attribute, so the inner
dictionary is kept as the list of its keys.  [Graph._node] has the same
keys in the same order and empty attribute dictionaries. *)
Definition Graph := list (node * list node).

Definition empty_graph : Graph := [].

Definition mem (v : node) (l : list node) : bool := existsb (str_eqb v) l.

(** [G.nodes()] / iteration over [G] *)
Definition nodes (g : Graph) : list node := map fst g.

(** [len(G)] *)
Definition number_of_nodes (g : Graph) : nat := length g.

(** [n in G] *)
Definition has_node (g : Graph) (v : node) : bool := mem v (nodes g).

(** [G._adj[v]], when [v] is a key *)
Fixpoint adj (g : Graph) (v : node) : option (list node) :=
  match g with
  | [] => None
  | (n, nbrs) :: g' => if str_eqb n v then Some nbrs else adj g' v
  end.

(** The neighbour list, empty for an absent node. *)
Definition nbrs_of (g : Graph) (v : node) : list node :=
  match adj g v with Some l => l | None => [] end.

(** [G.has_edge(u, v)]: [v in self._adj[u]], [False] on [KeyError]. *)
Definition has_edge (g : Graph) (u v : node) : bool := mem v (nbrs_of g u).

(** The first half of [add_edge] for one endpoint:
[if u not in self._node: self._adj[u] = {}; self._node[u] = {}] *)
Definition ensure_node (g : Graph) (u : node) : Graph :=
  if has_node g u then g else g ++ [(u, [])].

(** [self._adj[u][v] = datadict]: a new key goes last, an old key keeps its
place. *)
Definition dict_set (l : list node) (v : node) : list node :=
  if mem v l then l else l ++ [v].

Fixpoint set_adj (g : Graph) (u v : node) : Graph :=
  match g with
  | [] => []
  | (n, nbrs) :: g' =>
  if str_eqb n u then (n, dict_set nbrs v) :: g'
  else (n, nbrs) :: set_adj g' u v
  end.

(** [G.add_edge(u, v)] *)
Definition add_edge (g : Graph) (u v : node) : Graph :=
  let g1 := ensure_node g u in
  let g2 := ensure_node g1 v in
  let g3 := set_adj g2 u v in
  set_adj g3 v u.

(** [G.degree(v)]: a self-loop counts twice. *)
Definition degree_of (n : node) (nbrs : list node) : nat :=
  length nbrs + (if mem n nbrs then 1 else 0).

(** [G.degree()] *)
Definition degree (g : Graph) : list (node * nat) :=
  map (fun '(n, nbrs) => (n, degree_of n nbrs)) g.

Definition sum_nat (l : list nat) : nat := fold_right Nat.add 0 l.

(** [len(G.edges())], as [EdgeView.__len__] computes it:
[sum(len(nbrs) + (n in nbrs) for n, nbrs in adj.items()) // 2] *)
Definition number_of_edges (g : Graph) : nat :=
  (sum_nat (map snd (degree g)) / 2)%nat.

(** [G.add_node(n)] *)
Definition add_node (g : Graph) (n : node) : Graph := ensure_node g n.

(** [G.neighbors(v)] raises on a node that is not in the graph. *)
Definition neighbors (g : Graph) (v : node) : result (list node) :=
  match adj g v with
  | Some l => Ok l
  | None => Raise (NetworkXError "The node is not in the graph.")
  end.

(** [nx.degree_centrality(G)], the quotients taken exactly; the scores as
    the library rounds them are [Rounded.degree_centrality]. *)
Definition degree_centrality (g : Graph) : list (node * Q) :=
  if length g <=? 1 then map (fun n => (n, 1%Q)) (nodes g)
  else
let s := (1 / (inject_Z (Z.of_nat (length g)) - 1))%Q in
map (fun '(n, d) => (n, (inject_Z (Z.of_nat d) * s)%Q)) (degree g).

(** [nx.density(G)] *)
Definition density (g : Graph) : Q :=
  let n := number_of_nodes g in
  let m := number_of_edges g in
  if (m =? 0) || (n <=? 1) then 0%Q
  else (ratio m (n * (n - 1)) * 2)%Q.

(** One item of [_triangles_and_degree_iter]: the degree of [v] without its
self-loop and twice the number of triangles through [v]. *)
Definition triangles_and_degree (g : Graph) (v : node) (v_nbrs : list node)
  : nat * nat :=
  let vs := set_discard (set_of v_nbrs) v in
  let ntriangles :=
sum_nat (map (fun w =>
                length (set_inter vs (set_discard (set_of (nbrs_of g w)) w)))
             vs) in
  (length vs, ntriangles).

(** [nx.clustering(G)]: [0 if t == 0 else t / (d * (d - 1))] *)
Definition clustering (g : Graph) : list (node * Q) :=
  map (fun '(v, v_nbrs) =>
     let '(d, t) := triangles_and_degree g v v_nbrs in
     (v, if t =? 0 then 0%Q else ratio t (d * (d - 1))))
  g.

(** [nx.average_clustering(G)]: [sum(c) / len(c)] *)
Definition average_clustering (g : Graph) : result Q :=
  let c := map snd (clustering g) in
  match c with
  | [] => Raise ZeroDivisionError
  | _ => Ok (sum_Q c / inject_Z (Z.of_nat (length c)))%Q
  end.

(** *** Breadth-first search *)

(** [if w not in seen: seen.add(w); nextlevel.append(w); yield (w, level)];
the set [seen] is kept in the order of its additions. *)
Definition visit (st : list node * list node) (w : node)
  : list node * list node :=
  let '(seen, nextlevel) := st in
  if mem w seen then st else (seen ++ [w], nextlevel ++ [w]).

(** [for v in thislevel: for w in adj[v]: ...] *)
Definition expand (g : Graph) (thislevel : list node)
  (st : list node * list node) : list node * list node :=
  fold_left (fun st v => fold_left visit (nbrs_of g v) st) thislevel st.

(** The [while nextlevel] loop of [_single_shortest_path_length], without a
cutoff.  [out] collects the pairs the generator yields. *)
Fixpoint bfs_loop (fuel : nat) (g : Graph) (seen nextlevel : list node)
  (level : nat) (out : list (node * nat)) : option (list (node * nat)) :=
  match nextlevel with
  | [] => Some out
  | _ :: _ =>
  match fuel with
  | 0 => None
  | S fuel' =>
      let level' := level + 1 in
      let '(seen', nextlevel') := expand g nextlevel (seen, []) in
      let out' := out ++ map (fun w => (w, level')) nextlevel' in
      if length seen' =? length g then Some out'
      else bfs_loop fuel' g seen' nextlevel' level' out'
  end
  end.

(** [nx.single_source_shortest_path_length(G, source)]: the dictionary
node -> distance of the nodes that can be reached. *)
Definition single_source_shortest_path_length (g : Graph) (source : node)
  : comp (list (node * nat)) :=
  if has_node g source then
match bfs_loop (length g) g [source] [source] 0 [(source, 0)] with
| Some d => ret d
| None => None
end
  else raise NodeNotFound.

(** [_plain_bfs(G, source)]: the set of nodes of the component of [source],
found by the same level-by-level search. *)
Definition plain_bfs (g : Graph) (source : node) : comp (list node) :=
  cbind (single_source_shortest_path_length g source)
    (fun d => ret (map fst d)).

(** [nx.is_connected(G)]; [arbitrary_element(G)] is the first node. *)
Definition is_connected (g : Graph) : comp bool :=
  match nodes g with
  | [] => raise NetworkXPointlessConcept
  | first :: _ =>
  cbind (plain_bfs g first)
        (fun component => ret (length component =? length g))
  end.

(** [nx.average_shortest_path_length(G)] *)
Definition average_shortest_path_length (g : Graph) : comp Q :=
  let n := length g in
  if n =? 0 then raise NetworkXPointlessConcept
  else if n =? 1 then ret 0%Q
  else
cbind (is_connected g) (fun connected =>
  if negb connected then raise (NetworkXError "Graph is not connected.")
  else
    cbind (cfold (fun s u =>
                    cbind (single_source_shortest_path_length g u)
                          (fun d => ret (fold_left Nat.add (map snd d) s)))
                 (nodes g) 0)
          (fun s => ret (ratio s (n * (n - 1))))).

(** [nx.closeness_centrality(G)], with the default [wf_improved=True]. *)
Definition closeness_of (g : Graph) (sp : list (node * nat)) : Q :=
  let totsp := sum_nat (map snd sp) in
  let len_G := length g in
  if (0 <? totsp) && (1 <? len_G) then
let c := ratio (length sp - 1) totsp in
let s := ratio (length sp - 1) (len_G - 1) in
(c * s)%Q
  else 0%Q.

Definition closeness_centrality (g : Graph) : comp (list (node * Q)) :=
  cfold (fun closeness_dict n =>
       cbind (single_source_shortest_path_length g n)
             (fun sp => ret (closeness_dict ++ [(n, closeness_of g sp)])))
    (nodes g) [].

(** *** Betweenness centrality (Brandes) *)

(** [d[k]] on dictionaries whose keys are all the nodes of the graph. *)
Definition getQ (d : list (node * Q)) (k : node) : Q :=
  match dict_get d k with Some x => x | None => 0%Q end.

Definition getL (d : list (node * list node)) (k : node) : list node :=
  match dict_get d k with Some x => x | None => [] end.

Record sssp_state : Type := {
  st_S : list node;                  (* nodes in the order they leave the queue *)
  st_P : list (node * list node);    (* predecessors *)
  st_sigma : list (node * Q);        (* number of shortest paths *)
  st_D : list (node * nat);          (* distance, for the nodes found *)
  st_Q : list node                   (* the queue *)
}.

(** The body of [for w in G[v]] in [_single_source_shortest_path_basic]. *)
Definition relax (v : node) (Dv : nat) (sigmav : Q) (st : sssp_state) (w : node)
  : sssp_state :=
  let st1 :=
match dict_get (st_D st) w with
| None => {| st_S := st_S st; st_P := st_P st; st_sigma := st_sigma st;
             st_D := dict_setitem (st_D st) w (Dv + 1);
             st_Q := st_Q st ++ [w] |}
| Some _ => st
end in
  match dict_get (st_D st1) w with
  | Some Dw =>
  if Dw =? Dv + 1 then
    {| st_S := st_S st1;
       st_P := dict_setitem (st_P st1) w (getL (st_P st1) w ++ [v]);
       st_sigma := dict_setitem (st_sigma st1) w
                                (getQ (st_sigma st1) w + sigmav)%Q;
       st_D := st_D st1; st_Q := st_Q st1 |}
  else st1
  | None => st1
  end.

(** [while Q: v = Q.popleft(); S.append(v); ...] *)
Fixpoint sssp_loop (fuel : nat) (g : Graph) (st : sssp_state)
  : option sssp_state :=
  match st_Q st with
  | [] => Some st
  | v :: rest =>
  match fuel with
  | 0 => None
  | S fuel' =>
      let Dv := match dict_get (st_D st) v with Some d => d | None => 0 end in
      let sigmav := getQ (st_sigma st) v in
      let st0 := {| st_S := st_S st ++ [v]; st_P := st_P st;
                    st_sigma := st_sigma st; st_D := st_D st;
                    st_Q := rest |} in
      sssp_loop fuel' g (fold_left (relax v Dv sigmav) (nbrs_of g v) st0)
  end
  end.

(** [_single_source_shortest_path_basic(G, s)] *)
Definition single_source_shortest_path_basic (g : Graph) (s : node)
  : option sssp_state :=
  sssp_loop (length g) g
{| st_S := [];
   st_P := map (fun v => (v, [])) (nodes g);
   st_sigma := dict_setitem (map (fun v => (v, 0%Q)) (nodes g)) s 1%Q;
   st_D := [(s, 0)];
   st_Q := [s] |}.

(** One round of [while S: w = S.pop(); ...] in [_accumulate_basic]. *)
Definition accumulate_step (P : list (node * list node)) (sigma : list (node * Q))
  (s : node) (st : list (node * Q) * list (node * Q)) (w : node)
  : list (node * Q) * list (node * Q) :=
  let '(betweenness, delta) := st in
  let coeff := ((1 + getQ delta w) / getQ sigma w)%Q in
  let delta' :=
fold_left (fun d v => dict_setitem d v (getQ d v + getQ sigma v * coeff)%Q)
          (getL P w) delta in
  if str_eqb w s then (betweenness, delta')
  else (dict_setitem betweenness w (getQ betweenness w + getQ delta' w)%Q, delta').

(** [_accumulate_basic(betweenness, S, P, sigma, s)], the betweenness part. *)
Definition accumulate_basic (betweenness : list (node * Q)) (st : sssp_state)
  (s : node) : list (node * Q) :=
  fst (fold_left (accumulate_step (st_P st) (st_sigma st) s)
             (rev (st_S st))
             (betweenness, map (fun v => (v, 0%Q)) (st_S st))).

(** The loop [for s in nodes] of [betweenness_centrality]. *)
Fixpoint betweenness_from (g : Graph) (sources : list node)
  (betweenness : list (node * Q)) : option (list (node * Q)) :=
  match sources with
  | [] => Some betweenness
  | s :: rest =>
  match single_source_shortest_path_basic g s with
  | Some st => betweenness_from g rest (accumulate_basic betweenness st s)
  | None => None
  end
  end.

(** [_rescale(betweenness, n, normalized=True, directed=False, k=k)], as in
    the releases of the library up to 3.4, the factors taken exactly. *)
Definition rescale (betweenness : list (node * Q)) (n : nat) (k : option nat)
  : list (node * Q) :=
  if n <=? 2 then betweenness
  else
let scale := (1 / inject_Z (Z.of_nat ((n - 1) * (n - 2))))%Q in
let scale :=
  match k with
  | Some k => (scale * inject_Z (Z.of_nat n) / inject_Z (Z.of_nat k))%Q
  | None => scale
  end in
map (fun '(v, b) => (v, (b * scale)%Q)) betweenness.

Section Betweenness.
(** [random.sample(population, k)]: [k] elements at distinct positions of
the population, as the random generator picks them. *)
Variable sample : list node -> nat -> list node.

(** The nodes the search starts from. *)
Definition bfs_sources (g : Graph) (k : option nat) : list node :=
  match k with
  | None => nodes g
  | Some k => sample (nodes g) k
  end.

(** [nx.betweenness_centrality(G, k=k)] *)
Definition betweenness_centrality (g : Graph) (k : option nat)
  : option (list (node * Q)) :=
  let betweenness := map (fun v => (v, 0%Q)) (nodes g) in
  match betweenness_from g (bfs_sources g k) betweenness with
  | Some b => Some (rescale b (length g) k)
  | None => None
  end.
End Betweenness.

(** What [random.sample] promises of its result on a population without
    repetitions. *)
Definition sampler_ok (sample : list node -> nat -> list node) : Prop :=
  forall population k,
    NoDup population -> k <= length population ->
    length (sample population k) = k
    /\ NoDup (sample population k)
    /\ incl (sample population k) population.

(** *** Walks and distances, for the statements about the search *)

Inductive walk (g : Graph) : node -> node -> nat -> Prop :=
| walk_here v : walk g v v 0
| walk_step u v w k :
    walk g u v k -> In w (nbrs_of g v) -> walk g u w (S k).

Definition reachable (g : Graph) (u v : node) : Prop := exists k, walk g u v k.

(** [d] is the length of a shortest walk from [u] to [v]. *)
Definition dist (g : Graph) (u v : node) (d : nat) : Prop :=
  walk g u v d /\ forall k, walk g u v k -> d <= k.

(** Some pair of nodes has no path between them. *)
Definition disconnected (g : Graph) : Prop :=
  exists u v, In u (nodes g) /\ In v (nodes g) /\ ~ reachable g u v.

(** The graphs the program can hold: what [add_node] and [add_edge] make of
    [nx.Graph()]. *)
Inductive built : Graph -> Prop :=
| built_empty : built empty_graph
| built_add_node g n : built g -> built (add_node g n)
| built_add_edge g u v : built g -> built (add_edge g u v).

(** [sum(d for _, d in G.degree())] *)
Definition degree_sum (g : Graph) : nat := sum_nat (map snd (degree g)).

End Nx.

(* ===================================================================== *)
(** ** python-louvain: [community.best_partition] *)
(* ===================================================================== *)

Module Louvain.

Import Py.

(** [__MIN]; [__PASS_MAX = -1] puts no bound on the number of passes. *)
Definition MIN : Q := (1 # 10000000)%Q.

(** The default [resolution]. *)
Definition resolution : Q := 1%Q.

(** A loop run on binary fuel: at most [p] rounds of [step]; [inl] is the
    state of a loop that has not ended, [inr] the value it ended with. *)
Fixpoint iterate {S R : Type} (p : positive) (step : S -> S + R) (s : S)
  : S + R :=
  match p with
  | xH => step s
  | xO p' =>
match iterate p' step s with
| inl s1 => iterate p' step s1
| inr r => inr r
end
  | xI p' =>
match step s with
| inl s1 =>
    match iterate p' step s1 with
    | inl s2 => iterate p' step s2
    | inr r => inr r
    end
| inr r => inr r
end
  end.

(** The rounds granted to a loop that goes on only while the modularity gains
    at least [MIN] a round: modularity never exceeds 1. *)
Definition pass_budget (mod0 : Q) : positive :=
  Z.to_pos (Qceiling ((1 - mod0) / MIN) + 1).

Definition sumZ (l : list Z) : Z := fold_right Z.add 0%Z l.

Section Level.
(** The nodes of one level: the strings of the input graph first, the
    community numbers of the level below afterwards. *)
Variable K : Type.
Variable K_dec : forall a b : K, {a = b} + {a <> b}.

Definition keqb (a b : K) : bool := if K_dec a b then true else false.

(** An [nx.Graph] whose edges carry the attribute [weight]. *)
Definition WGraph := list (K * list (K * Z)).

Definition wnodes (g : WGraph) : list K := map fst g.

(** [graph[node]] *)
Definition wadj (g : WGraph) (v : K) : list (K * Z) :=
  dget_default keqb g v [].

(** [graph.get_edge_data(u, v, default={weight: 0}).get(weight, 1)] *)
Definition edge_weight (g : WGraph) (u v : K) : Z :=
  dget_default keqb (wadj g u) v 0%Z.

(** [graph.degree(node, weight=weight)]: a self-loop counts twice. *)
Definition wdegree (g : WGraph) (v : K) : Z :=
  (sumZ (map snd (wadj g v)) + edge_weight g v v)%Z.

(** [graph.size(weight=weight)] *)
Definition wsize (g : WGraph) : Q :=
  (inject_Z (sumZ (map (wdegree g) (wnodes g))) / 2)%Q.

(** [add_node] and [add_edge(u, v, weight=w)] *)
Definition wensure_node (g : WGraph) (u : K) : WGraph :=
  if existsb (keqb u) (wnodes g) then g else g ++ [(u, [])].

Fixpoint wset_adj (g : WGraph) (u v : K) (w : Z) : WGraph :=
  match g with
  | [] => []
  | (n, nbrs) :: g' =>
if keqb n u then (n, dset keqb nbrs v w) :: g'
else (n, nbrs) :: wset_adj g' u v w
  end.

Definition wadd_edge (g : WGraph) (u v : K) (w : Z) : WGraph :=
  wset_adj (wset_adj (wensure_node (wensure_node g u) v) u v w) v u w.

(** [graph.edges(data=True)]: every edge once, from the endpoint met
    first. *)
Fixpoint wedges_from (g : WGraph) (seen : list K) : list (K * K * Z) :=
  match g with
  | [] => []
  | (n, nbrs) :: g' =>
map (fun '(nbr, w) => (n, nbr, w))
  (filter (fun '(nbr, _) => negb (existsb (keqb nbr) seen)) nbrs)
++ wedges_from g' (n :: seen)
  end.

Definition wedges (g : WGraph) : list (K * K * Z) := wedges_from g [].

(** The class [Status]; the weights are whole numbers. *)
Record Status : Type := {
  node2com : list (K * Z);
  total_weight : Q;
  degrees : list (Z * Z);
  gdegrees : list (K * Z);
  internals : list (Z * Z);
  loops : list (K * Z)
}.

Definition getZ (d : list (Z * Z)) (k : Z) : Z := dget_default Z.eqb d k 0%Z.

Definition getK (d : list (K * Z)) (k : K) : Z := dget_default keqb d k 0%Z.

(** [status.node2com[node]] *)
Definition com_of (s : Status) (node : K) : Z :=
  dget_default keqb (node2com s) node (-1)%Z.

(** One round of the loop of [Status.init]. *)
Definition init_step (g : WGraph) (acc : result (Status * Z)) (node : K)
  : result (Status * Z) :=
  bind acc (fun '(s, count) =>
    let deg := wdegree g node in
    if (deg <? 0)%Z then Raise ValueError
    else
let loop := edge_weight g node node in
Ok ({| node2com := dset keqb (node2com s) node count;
     total_weight := total_weight s;
     degrees := dset Z.eqb (degrees s) count deg;
     gdegrees := dset keqb (gdegrees s) node deg;
     internals := dset Z.eqb (internals s) count loop;
     loops := dset keqb (loops s) node loop |},
  (count + 1)%Z)).

(** [status.init(graph, weight)]: every node in a community of its own. *)
Definition init (g : WGraph) : result Status :=
  bind (fold_left (init_step g) (wnodes g)
          (Ok ({| node2com := []; total_weight := wsize g;
                  degrees := []; gdegrees := [];
                  internals := []; loops := [] |}, 0%Z)))
 (fun '(s, _) => Ok s).

(** [__neighcom(node, graph, status, weight)] *)
Definition neighcom (node : K) (g : WGraph) (s : Status) : list (Z * Z) :=
  fold_left
    (fun weights '(neighbor, edge_w) =>
 if keqb neighbor node then weights
 else
 let neighborcom := com_of s neighbor in
 dset Z.eqb weights neighborcom (getZ weights neighborcom + edge_w)%Z)
    (wadj g node) [].

(** [__remove(node, com, weight, status)] *)
Definition remove (node : K) (com weight : Z) (s : Status) : Status :=
  {| node2com := dset keqb (node2com s) node (-1)%Z;
     total_weight := total_weight s;
     degrees := dset Z.eqb (degrees s) com
             (getZ (degrees s) com - getK (gdegrees s) node)%Z;
     gdegrees := gdegrees s;
     internals := dset Z.eqb (internals s) com
               (getZ (internals s) com - weight - getK (loops s) node)%Z;
     loops := loops s |}.

(** [__insert(node, com, weight, status)] *)
Definition insert (node : K) (com weight : Z) (s : Status) : Status :=
  {| node2com := dset keqb (node2com s) node com;
     total_weight := total_weight s;
     degrees := dset Z.eqb (degrees s) com
             (getZ (degrees s) com + getK (gdegrees s) node)%Z;
     gdegrees := gdegrees s;
     internals := dset Z.eqb (internals s) com
               (getZ (internals s) com + weight + getK (loops s) node)%Z;
     loops := loops s |}.

(** The communities in use, [set(status.node2com.values())]. *)
Definition communities (s : Status) : list Z :=
  nodup Z.eq_dec (map snd (node2com s)).

(** [__modularity(status, resolution)] *)
Definition modularity (s : Status) : Q :=
  let links := total_weight s in
  fold_left
    (fun result community =>
 let in_degree := inject_Z (getZ (internals s) community) in
 let degree := inject_Z (getZ (degrees s) community) in
 if Qltb 0 links then
 (result + (in_degree * resolution / links
            - (degree / (2 * links)) ^ 2))%Q
 else result)
    (communities s) 0%Q.

(** [__renumber(dictionary)]: the communities numbered from 0 in the
    order in which the dictionary meets them. *)
Definition renumber_step (acc : list (K * Z) * list (Z * Z) * Z) (kv : K * Z)
  : list (K * Z) * list (Z * Z) * Z :=
  let '(ret, new_values, count) := acc in
  let '(key, value) := kv in
  let new_value := dget_default Z.eqb new_values value (-1)%Z in
  if (new_value =? -1)%Z then
    (dset keqb ret key count, dset Z.eqb new_values value count, (count + 1)%Z)
  else (dset keqb ret key new_value, new_values, count).

Definition renumber (dictionary : list (K * Z)) : list (K * Z) :=
  fst (fst (fold_left renumber_step dictionary (dictionary, [], 0%Z))).

Section OneLevel.
(** [numpy.random.RandomState]: the state of the generator and its
    [shuffle], which returns some permutation of the list. *)
Variable rs : Type.
Variable shuffle : forall A : Type, rs -> list A -> list A * rs.

(** The body of [for com, dnc in __randomize(neigh_communities.items())]. *)
Definition best_move (s : Status) (remove_cost degc_totw : Q)
  (best : Z * Q) (item : Z * Z) : Z * Q :=
  let '(best_com, best_increase) := best in
  let '(com, dnc) := item in
  let incr :=
    (remove_cost + inject_Z dnc
     - resolution * inject_Z (getZ (degrees s) com) * degc_totw)%Q in
  if Qltb best_increase incr then (com, incr) else best.

(** The body of [for node in __randomize(graph.nodes())]. *)
Definition move_node (g : WGraph) (acc : Status * bool * rs) (node : K)
  : Status * bool * rs :=
  let '(status, modified, r) := acc in
  let com_node := com_of status node in
  let degc_totw :=
    (inject_Z (getK (gdegrees status) node) / (total_weight status * 2))%Q in
  let neigh_communities := neighcom node g status in
  let remove_cost :=
    (- inject_Z (getZ neigh_communities com_node)
     + resolution
 * inject_Z (getZ (degrees status) com_node
         - getK (gdegrees status) node)
 * degc_totw)%Q in
  let status1 := remove node com_node (getZ neigh_communities com_node) status in
  let '(items, r') := shuffle r neigh_communities in
  let '(best_com, _) :=
    fold_left (best_move status1 remove_cost degc_totw) items (com_node, 0%Q) in
  let status2 := insert node best_com (getZ neigh_communities best_com) status1 in
  (status2, modified || negb (best_com =? com_node)%Z, r').

(** One round of [while modified] in [__one_level]. *)
Definition one_pass (g : WGraph) (st : Status * Q * rs)
  : (Status * Q * rs) + (Status * rs) :=
  let '(status, new_mod, r) := st in
  let cur_mod := new_mod in
  let '(order, r1) := shuffle r (wnodes g) in
  let '(status', modified, r2) :=
    fold_left (move_node g) order (status, false, r1) in
  let new_mod := modularity status' in
  if Qltb (new_mod - cur_mod) MIN then inr (status', r2)
  else if modified then inl (status', new_mod, r2)
  else inr (status', r2).

(** [__one_level(graph, status, weight, resolution, random_state)] *)
Definition one_level (g : WGraph) (status : Status) (r : rs)
  : option (Status * rs) :=
  let mod0 := modularity status in
  match iterate (pass_budget mod0) (one_pass g) (status, mod0, r) with
  | inr x => Some x
  | inl _ => None
  end.
End OneLevel.
End Level.

Arguments Status K : clear implicits.
Arguments WGraph K : clear implicits.

(** [induced_graph(partition, graph, weight)]: one node for each community,
    the weights of the edges between two communities added up. *)
Definition induced_graph {K} (K_dec : forall a b : K, {a = b} + {a <> b})
  (partition : list (K * Z)) (g : WGraph K) : WGraph Z :=
  fold_left
    (fun ret '(node1, node2, edge_w) =>
       let com1 := dget_default (keqb K_dec) partition node1 (-1)%Z in
       let com2 := dget_default (keqb K_dec) partition node2 (-1)%Z in
       let w_prec := edge_weight Z.eq_dec ret com1 com2 in
       wadd_edge Z.eq_dec ret com1 com2 (w_prec + edge_w)%Z)
    (wedges K_dec g)
    (fold_left (wensure_node Z.eq_dec) (map snd partition) []).

(** The input graph as the library reads it: an edge without the attribute
    counts with weight 1. *)
Definition of_graph (g : Nx.Graph) : WGraph str :=
  map (fun '(n, nbrs) => (n, map (fun v => (v, 1%Z)) nbrs)) g.

Section Dendrogram.
Variable rs : Type.
Variable shuffle : forall A : Type, rs -> list A -> list A * rs.

(** The state of the [while True] loop of [generate_dendrogram]. *)
Record level_state : Type := {
  current_graph : WGraph Z;
  status : Status Z;
  cur_mod : Q;
  status_list : list (list (Z * Z));
  rng : rs
}.

Definition level_step (st : level_state)
  : level_state + comp (list (list (Z * Z)) * rs) :=
  match one_level Z.eq_dec shuffle (current_graph st) (status st) (rng st) with
  | None => inr None
  | Some (status', r) =>
      let new_mod := modularity status' in
      if Qltb (new_mod - cur_mod st) MIN then inr (ret (status_list st, r))
      else
let partition := renumber Z.eq_dec (node2com status') in
let graph' := induced_graph Z.eq_dec partition (current_graph st) in
match init Z.eq_dec graph' with
| Raise e => inr (raise e)
| Ok status'' =>
  inl {| current_graph := graph';
         status := status'';
         cur_mod := new_mod;
         status_list := status_list st ++ [partition];
         rng := r |}
end
  end.

(** [generate_dendrogram(graph)]: the partition of the nodes, then the
    partitions of the communities of each level. *)
Definition generate_dendrogram (graph : Nx.Graph) (r : rs)
  : comp (list (str * Z) * list (list (Z * Z)) * rs) :=
  if Nx.number_of_edges graph =? 0 then
    ret (combine (Nx.nodes graph)
       (map Z.of_nat (seq 0 (length graph))), [], r)
  else
    let current := of_graph graph in
    match init str_eq_dec current with
    | Raise e => raise e
    | Ok status0 =>
match one_level str_eq_dec shuffle current status0 r with
| None => None
| Some (status1, r1) =>
  let new_mod := modularity status1 in
  let partition := renumber str_eq_dec (node2com status1) in
  let graph1 := induced_graph str_eq_dec partition current in
  match init Z.eq_dec graph1 with
  | Raise e => raise e
  | Ok status2 =>
      match iterate (pass_budget new_mod) level_step
                    {| current_graph := graph1;
                       status := status2;
                       cur_mod := new_mod;
                       status_list := [];
                       rng := r1 |} with
      | inl _ => None
      | inr None => None
      | inr (Some (Raise e)) => raise e
      | inr (Some (Ok (levels, r2))) => ret (partition, levels, r2)
      end
  end
end
    end.

(** [partition_at_level(dendrogram, len(dendrogram) - 1)] *)
Definition partition_at_top (first : list (str * Z))
  (levels : list (list (Z * Z))) : list (str * Z) :=
  fold_left
    (fun partition level =>
       map (fun '(node, community) =>
    (node, dget_default Z.eqb level community (-1)%Z))
 partition)
    levels first.

(** [best_partition(graph)] *)
Definition best_partition (graph : Nx.Graph) (r : rs)
  : comp (list (str * Z) * rs) :=
  cbind (generate_dendrogram graph r)
(fun '(first, levels, r') => ret (partition_at_top first levels, r')).
End Dendrogram.

(** The result of a run, without the state the generator is left in. *)
Definition forget {A rs} (c : comp (A * rs)) : comp A :=
  cbind c (fun x => ret (fst x)).

(** A generator for the examples: every call of [shuffle] uses up one number
    of the state; an odd number reverses the list, an even one leaves it. *)
Definition coin_shuffle (A : Type) (r : list nat) (l : list A)
  : list A * list nat :=
  match r with
  | [] => (l, [])
  | n :: r' => (if Nat.odd n then rev l else l, r')
  end.

End Louvain.

(* ===================================================================== *)
(** ** app.py: the input parser *)
(* ===================================================================== *)

Module App.

Import Py Nx.

(** The body of the [for line in lines] loop of [parse_adjacency_list]. *)
Definition parse_line (graph : Graph) (line : str) : Graph :=
  if is_empty (strip line) then graph
  else
    let parts := split line in
    if (length parts <? 1)%nat then graph
    else match parts with
         | [] => graph
         | user :: friends =>
   fold_left (fun g friend => add_edge g user friend) friends graph
         end.

Definition parse_adjacency_list (content : str) : Graph :=
  fold_left parse_line (split_newline content) empty_graph.

(** One round of the loop of [recommend_friends]. *)
Definition recommend_step (graph : Graph) (user : node) (user_neighbors : list node)
  (recommendations : list (node * Q)) (potential_friend : node)
  : list (node * Q) :=
  if str_eqb potential_friend user || has_edge graph user potential_friend
  then recommendations
  else
    let friend_neighbors := set_of (nbrs_of graph potential_friend) in
    let common_neighbors := set_inter user_neighbors friend_neighbors in
    let all_neighbors := set_union user_neighbors friend_neighbors in
    if 0 <? length all_neighbors then
      let jaccard_similarity := ratio (length common_neighbors) (length all_neighbors) in
      dict_setitem recommendations potential_friend jaccard_similarity
    else recommendations.

Definition recommend_friends (graph : Graph) (user : node)
  : result (list (node * Q)) :=
  bind (neighbors graph user) (fun nbrs =>
    let user_neighbors := set_of nbrs in
    let recommendations :=
      fold_left (recommend_step graph user user_neighbors) (nodes graph) [] in
    Ok (firstn 5 (sorted (@snd node Q) true recommendations))).

(** The default value of [threshold], one tenth taken exactly; the float
    of the literal [0.1] is [Rounded.default_threshold]. *)
Definition default_threshold : Q := (1 # 10)%Q.

(** The detector over exact coefficients; the binary64 comparison of the
    program is [Rounded.detect_potential_fake_accounts]. *)
Definition detect_potential_fake_accounts (graph : Graph) (threshold : Q)
  : result (list (node * Q)) :=
  let clustering_coeffs := clustering graph in
  bind (average_clustering graph) (fun avg_clustering =>
    let potential_fakes :=
      filter (fun '(_, coeff) => Qltb coeff (threshold * avg_clustering)%Q)
   clustering_coeffs in
    Ok (firstn 10 (sorted (@snd node Q) false potential_fakes))).

(** The value stored under ['avg_path_length']: a number, or the message of
    the [except] branch. *)
Inductive avg_path_length_value : Type :=
| PathLength (x : Q)
| PathMessage (msg : String.string).

Arguments PathMessage msg%_string.

(** The dictionary [metrics], one field for each key. *)
Record metrics : Type := {
  m_degree_centrality : list (node * Q);
  m_betweenness_centrality : list (node * Q);
  m_closeness_centrality : list (node * Q);
  m_communities : list (node * Z);
  m_clustering_coefficients : list (node * Q);
  m_avg_path_length : avg_path_length_value;
  m_density : Q
}.

(** What [calculate_metrics] returns: [{}] for a graph without nodes. *)
Inductive metrics_dict : Type :=
| NoMetrics
| Metrics (m : metrics).

(** [try: ... = nx.average_shortest_path_length(graph)]
    [except: ... = "Graph is not connected"] *)
Definition avg_path_length_entry (graph : Graph) : option avg_path_length_value :=
  match average_shortest_path_length graph with
  | Some (Ok x) => Some (PathLength x)
  | Some (Raise _) => Some (PathMessage "Graph is not connected")
  | None => None
  end.

Section Metrics.
(** The two random generators the libraries draw from: [random.sample] for
    the sources of betweenness, the numpy generator of python-louvain. *)
Variable sample : list node -> nat -> list node.
Variable rs : Type.
Variable shuffle : forall A : Type, rs -> list A -> list A * rs.

(** The argument [k] of the call of [nx.betweenness_centrality]. *)
Definition betweenness_k (graph : Graph) : nat := Nat.min 100 (length (nodes graph)).

Definition calculate_metrics (graph : Graph) (r : rs)
  : comp (metrics_dict * rs) :=
  if length (nodes graph) =? 0 then ret (NoMetrics, r)
  else
    let degree := degree_centrality graph in
    match betweenness_centrality sample graph (Some (betweenness_k graph)) with
    | None => None
    | Some betweenness =>
        cbind (closeness_centrality graph) (fun closeness =>
        cbind (Louvain.best_partition shuffle graph r) (fun '(partition, r') =>
let coefficients := clustering graph in
match avg_path_length_entry graph with
| None => None
| Some avg =>
  ret (Metrics {| m_degree_centrality := degree;
                  m_betweenness_centrality := betweenness;
                  m_closeness_centrality := closeness;
                  m_communities := partition;
                  m_clustering_coefficients := coefficients;
                  m_avg_path_length := avg;
                  m_density := density graph |}, r')
end))
    end.
End Metrics.

(** [community_stats[comm] += 1] for every item of the partition, in
    [index]. *)
Definition community_stats (communities : list (node * Z)) : list (Z * nat) :=
  fold_left
    (fun stats '(_, comm) =>
       dset Z.eqb stats comm (dget_default Z.eqb stats comm 0 + 1))
    communities [].

(** The notions the recommendation claims are stated with: the neighbour set
    [N(v)], the Jaccard similarity [|N(q) & N(c)| / |N(q) | N(c)|], and the
    candidates of a query node. *)
Definition N_ (g : Graph) (v : node) : list node := set_of (nbrs_of g v).

Definition jaccard (g : Graph) (q c : node) : Q :=
  ratio (length (set_inter (N_ g q) (N_ g c)))
        (length (set_union (N_ g q) (N_ g c))).

Definition is_candidate (g : Graph) (q c : node) : bool :=
  negb (str_eqb c q) && negb (has_edge g q c)
  && (0 <? length (set_union (N_ g q) (N_ g c))).

End App.

(* ===================================================================== *)
(** ** Python floats: IEEE-754 binary64 *)
(* ===================================================================== *)

Module Binary64.

(** A [float] of Python is a binary64 number; the operations are those of
    the floating-point specification of the Standard Library, rounding to
    nearest, ties to even. *)
Definition prec : Z := 53.
Definition emax : Z := 1024.

Definition float : Type := spec_float.

Definition add : float -> float -> float := SFadd prec emax.
Definition sub : float -> float -> float := SFsub prec emax.
Definition mul : float -> float -> float := SFmul prec emax.
Definition div : float -> float -> float := SFdiv prec emax.

(** [x < y], [x <= y] and [x == y]: all [False] when an operand is a NaN. *)
Definition ltb : float -> float -> bool := SFltb.
Definition leb : float -> float -> bool := SFleb.
Definition eqb : float -> float -> bool := SFeqb.

(** [float(n)] for an [int], the conversion that a mixed operation
    [int op float] applies to its [int] operand: the nearest float. *)
Definition of_int (z : Z) : float := binary_normalize prec emax z 0 false.

Definition zero : float := S754_zero false.
Definition one : float := of_int 1.

(** [a / b] on two [int]s that are not negative: the exact quotient of the
    two integers, rounded once.  The integers enter the division as they
    are, as mantissas with exponent 0. *)
Definition int_operand (n : nat) : float :=
  match n with
  | 0 => S754_zero false
  | S k => S754_finite false (Pos.of_succ_nat k) 0
  end.

Definition int_div (a b : nat) : float := div (int_operand a) (int_operand b).

(** The number a float stands for, for the floats that are numbers. *)
Definition value (x : float) : Q :=
  match x with
  | S754_finite s m e =>
      ((if s then -1 else 1) * inject_Z (Zpos m) * Qpower 2 e)%Q
  | _ => 0%Q
  end.

(** [sum(values)] up to Python 3.11: the additions from left to right,
    starting from 0. *)
Definition left_sum (values : list float) : float := fold_left add values zero.

End Binary64.

(* ===================================================================== *)
(** ** The scores whose rounding the program shows *)
(* ===================================================================== *)

(** The functions of this module are the ones of [Nx] and [App] with the
    same names, computed in binary64 as the program computes them.  They
    are used where a statement depends on the rounding: a strict comparison
    of two scores, or an identity between them. *)
Module Rounded.

Import Py Nx Binary64.

(** [nx.degree_centrality(G)]:
    [s = 1.0 / (len(G) - 1.0)] and [d * s] for every node. *)
Definition degree_centrality (g : Graph) : list (node * float) :=
  if length g <=? 1 then map (fun n => (n, one)) (nodes g)
  else
    let s := div one (sub (of_int (Z.of_nat (length g))) one) in
    map (fun '(n, d) => (n, mul (of_int (Z.of_nat d)) s)) (degree g).

(** [nx.clustering(G)]: [0 if t == 0 else t / (d * (d - 1))]; the divisor
    is not 0 when [t] is not, since [t <= d * (d - 1)]. *)
Definition clustering (g : Graph) : list (node * float) :=
  map (fun '(v, v_nbrs) =>
         let '(d, t) := triangles_and_degree g v v_nbrs in
         (v, if t =? 0 then zero else int_div t (d * (d - 1))))
      g.

Section Sorted.
Variable A : Type.
Variable key : A -> float.

(** [sorted(l, key=key)] compares keys with [<] only: [x] may stand before
    [y] unless [key(y) < key(x)]. *)
Definition before (x y : A) : bool := negb (ltb (key y) (key x)).

Fixpoint insert_sorted (x : A) (l : list A) : list A :=
  match l with
  | [] => [x]
  | y :: l' => if before x y then x :: l else y :: insert_sorted x l'
  end.

(** The stable ascending sort, by insertion from the right. *)
Definition sorted (l : list A) : list A := fold_right insert_sorted [] l.

(** The elements whose key equals [k]. *)
Definition has_key (k : float) (x : A) : bool := eqb (key x) k.
End Sorted.

Section Sum.
(** The builtin [sum] on a list of floats.  Up to Python 3.11 it adds from
    left to right ([Binary64.left_sum]); from 3.12 on it compensates the
    rounding errors of the additions.  The statements hold for every
    summation. *)
Variable sum : list float -> float.

(** [nx.average_clustering(G)]: [sum(c) / len(c)] *)
Definition average_clustering (g : Graph) : result float :=
  let c := map snd (clustering g) in
  match c with
  | [] => Raise ZeroDivisionError
  | _ => Ok (div (sum c) (of_int (Z.of_nat (length c))))
  end.

Definition detect_potential_fake_accounts (graph : Graph) (threshold : float)
  : result (list (node * float)) :=
  let clustering_coeffs := clustering graph in
  bind (average_clustering graph) (fun avg_clustering =>
    let potential_fakes :=
      filter (fun '(_, coeff) => ltb coeff (mul threshold avg_clustering))
             clustering_coeffs in
    Ok (firstn 10 (sorted (@snd node float) potential_fakes))).
End Sum.

(** The default value of [threshold], the literal [0.1]: the float nearest
    to one tenth. *)
Definition default_threshold : float := div (of_int 1) (of_int 10).

End Rounded.

(* ===================================================================== *)
(** ** Inputs of the examples *)
(* ===================================================================== *)

Module Examples.

Import Py Nx App.

(** The graphs of the examples. *)
Definition loop_graph : Graph := parse_adjacency_list (lit "A A").

Definition fan_graph : Graph := parse_adjacency_list (lit "Q X
C X
B X").

Definition pairs_graph : Graph := parse_adjacency_list (lit "A B
C D").

Definition path_graph : Graph := parse_adjacency_list (lit "A B
B C
C D
D E").

(** A star with [n] leaves, for the examples with many nodes. *)
Definition leaf (i : nat) : node := [N.of_nat (1000 + i)].

Definition star_graph (n : nat) : Graph :=
  fold_left (fun g i => add_edge g (lit "hub") (leaf i)) (seq 0 n) empty_graph.

(** The sample that takes the first [k] elements. *)
Definition prefix_sample (population : list node) (k : nat) : list node :=
  firstn k population.

(** A generator whose shuffles leave every list as it is. *)
Definition no_shuffle (A : Type) (r : list nat) (l : list A)
  : list A * list nat := (l, r).

(** The path of four nodes. *)
Definition short_path_graph : Graph := parse_adjacency_list (lit "A B
B C
C D").

(** A triangle with a hub hanging on it. *)
Definition club_graph : Graph := parse_adjacency_list (lit "a b c
b c
h a l1 l2 l3 l4").
End Examples.

(* ===================================================================== *)
(** ** Connected graphs *)
(* ===================================================================== *)

Module Reach.

Import Py Nx.

(** All nodes can be reached from one another. *)
Definition all_reachable (g : Graph) : Prop :=
  forall u v, In u (nodes g) -> In v (nodes g) -> reachable g u v.

End Reach.

(* ===================================================================== *)
(** ** app.py: the upload handler *)
(* ===================================================================== *)

Module Utf8.

Import Py.

Definition between (lo hi b : N) : bool := ((lo <=? b) && (b <=? hi))%N.

(** A continuation byte, [10xxxxxx]. *)
Definition continuation (b : N) : bool := between 128 191 b.

Definition payload (b : N) : N := (b - 128)%N.

(** The bytes that may follow the first byte of a sequence of three or four
    bytes: no overlong form, no surrogate, nothing above U+10FFFF. *)
Definition second_of_three (b0 b1 : N) : bool :=
  if (b0 =? 224)%N then between 160 191 b1
  else if (b0 =? 237)%N then between 128 159 b1
  else continuation b1.

Definition second_of_four (b0 b1 : N) : bool :=
  if (b0 =? 240)%N then between 144 191 b1
  else if (b0 =? 244)%N then between 128 143 b1
  else continuation b1.

Definition push (c : N) (rest : result str) : result str :=
  bind rest (fun s => Ok (c :: s)).

(** The strict decoder of the codec: the well-formed sequences of the
    Unicode standard, [UnicodeDecodeError] on every other byte. *)
Fixpoint decode_bytes (data : list N) : result str :=
  match data with
  | [] => Ok []
  | b0 :: rest =>
      if (b0 <? 128)%N then push b0 (decode_bytes rest)
      else if between 194 223 b0 then
        match rest with
        | b1 :: rest1 =>
            if continuation b1
            then push ((b0 - 192) * 64 + payload b1)%N (decode_bytes rest1)
            else Raise UnicodeDecodeError
        | _ => Raise UnicodeDecodeError
        end
      else if between 224 239 b0 then
        match rest with
        | b1 :: b2 :: rest2 =>
            if second_of_three b0 b1 && continuation b2
            then push ((b0 - 224) * 4096 + payload b1 * 64 + payload b2)%N
                      (decode_bytes rest2)
            else Raise UnicodeDecodeError
        | _ => Raise UnicodeDecodeError
        end
      else if between 240 244 b0 then
        match rest with
        | b1 :: b2 :: b3 :: rest3 =>
            if second_of_four b0 b1 && continuation b2 && continuation b3
            then push ((b0 - 240) * 262144 + payload b1 * 4096
                       + payload b2 * 64 + payload b3)%N
                      (decode_bytes rest3)
            else Raise UnicodeDecodeError
        | _ => Raise UnicodeDecodeError
        end
      else Raise UnicodeDecodeError
  end.

(** [data.decode('utf-8')] *)
Definition decode (data : list Byte.byte) : result str :=
  decode_bytes (map Byte.to_N data).

(** The bytes of a text of the examples, which has ASCII characters only. *)
Definition ascii (s : str) : list Byte.byte :=
  map (fun c => match Byte.of_N c with Some b => b | None => Byte.x00 end) s.

End Utf8.

Module Index.

Import Py Nx App Binary64.

(** [sorted(scores.items(), key=lambda x: x[1], reverse=True)[:5]], the
    expression behind [top_degree], [top_betweenness] and [top_closeness]. *)
Definition top5 (scores : list (node * Q)) : list (node * Q) :=
  firstn 5 (sorted (@snd node Q) true scores).

(** [top_degree[0][0] if top_degree else list(graph.nodes())[0]] *)
Definition sample_user (graph : Graph) (top_degree : list (node * Q))
  : result node :=
  match top_degree with
  | (user, _) :: _ => Ok user
  | [] => match nodes graph with
          | first :: _ => Ok first
          | [] => Raise IndexError
          end
  end.

(** A request as the handler reads it: the method, and for a POST the entry
    ['file'] of [request.files], when there is one, with its file name and
    its bytes. *)
Inductive request : Type :=
| GET
| POST (file : option (str * list Byte.byte)).

Section Index.
(** [generate_visualization] draws the graph with matplotlib and returns
    the picture as text; it reads the graph, calls the layout and the
    community detection, which draw from the numpy generator, and leaves the
    graph as it is.  The drawing is outside this development: the function
    is a parameter, with the generator state it starts from and the one it
    leaves. *)
Variable image : Type.
Variable rs : Type.
Variable generate_visualization : Graph -> rs -> comp (image * rs).
Variable sample : list node -> nat -> list node.
Variable shuffle : forall A : Type, rs -> list A -> list A * rs.
Variable sum : list float -> float.

(** The keyword arguments of [render_template('results.html', ...)]. *)
Record results : Type := {
  p_visualization : image;
  p_num_nodes : nat;
  p_num_edges : nat;
  p_density : Q;
  p_avg_path_length : avg_path_length_value;
  p_top_degree : list (node * Q);
  p_top_betweenness : list (node * Q);
  p_top_closeness : list (node * Q);
  p_community_stats : list (Z * nat);
  p_sample_user : node;
  p_recommendations : list (node * Q);
  p_potential_fakes : list (node * float)
}.

(** What the handler answers with: a redirect to the same address, or one
    of its two templates. *)
Inductive response : Type :=
| Redirect
| IndexPage (error : option String.string)
| ResultsPage (r : results).

(** The part of [index] that follows the decoding of the file. *)
Definition analyse (content : str) (r : rs) : comp (response * rs) :=
  let graph := parse_adjacency_list content in
  if length (nodes graph) =? 0
  then ret (IndexPage (Some "No valid data found in the file."%string), r)
  else
    cbind (generate_visualization graph r) (fun '(visualization, r1) =>
    cbind (calculate_metrics sample shuffle graph r1) (fun '(metrics, r2) =>
    match metrics with
    | NoMetrics => raise KeyError
    | Metrics metrics =>
        let top_degree := top5 (m_degree_centrality metrics) in
        let top_betweenness := top5 (m_betweenness_centrality metrics) in
        let top_closeness := top5 (m_closeness_centrality metrics) in
        let stats := community_stats (m_communities metrics) in
        match sample_user graph top_degree with
        | Raise e => raise e
        | Ok user =>
            match recommend_friends graph user with
            | Raise e => raise e
            | Ok recommendations =>
                match Rounded.detect_potential_fake_accounts
                        sum graph Rounded.default_threshold with
                | Raise e => raise e
                | Ok potential_fakes =>
                    ret (ResultsPage
                           {| p_visualization := visualization;
                              p_num_nodes := length (nodes graph);
                              p_num_edges := number_of_edges graph;
                              p_density := m_density metrics;
                              p_avg_path_length := m_avg_path_length metrics;
                              p_top_degree := top_degree;
                              p_top_betweenness := top_betweenness;
                              p_top_closeness := top_closeness;
                              p_community_stats := stats;
                              p_sample_user := user;
                              p_recommendations := recommendations;
                              p_potential_fakes := potential_fakes |}, r2)
                end
            end
        end
    end)).

(** [index()].  A file object is true when its file name is not empty. *)
Definition index (req : request) (r : rs) : comp (response * rs) :=
  match req with
  | POST None => ret (Redirect, r)
  | POST (Some (filename, data)) =>
      if is_empty filename then ret (Redirect, r)
      else if negb (is_empty filename) then
        match Utf8.decode data with
        | Raise e => raise e
        | Ok content => analyse content r
        end
      else ret (IndexPage None, r)
  | GET => ret (IndexPage None, r)
  end.
End Index.

End Index.

(* ===================================================================== *)
(** * Properties *)
(* ===================================================================== *)

Module PyFacts.

Import Py.

Lemma str_eqb_eq a b : str_eqb a b = true <-> a = b.
Proof. unfold str_eqb; destruct (str_eq_dec a b); split; congruence. Qed.

Lemma str_eqb_refl a : str_eqb a a = true.
Proof. now apply str_eqb_eq. Qed.

Lemma str_eqb_neq a b : str_eqb a b = false <-> a <> b.
Proof. unfold str_eqb; destruct (str_eq_dec a b); split; congruence. Qed.

Lemma str_eqb_sym a b : str_eqb a b = str_eqb b a.
Proof.
  destruct (str_eqb b a) eqn:E.
  - apply str_eqb_eq in E; subst; apply str_eqb_refl.
  - apply str_eqb_neq; apply str_eqb_neq in E; congruence.
Qed.

Lemma lstrip_nil_spaces s : lstrip s = [] -> forallb isspace s = true.
Proof.
  induction s as [|c s IH]; simpl; auto.
  destruct (isspace c); simpl; auto; discriminate.
Qed.

Lemma lstrip_head s c t : lstrip s = c :: t -> isspace c = false.
Proof.
  induction s as [|d s IH]; simpl; try discriminate.
  destruct (isspace d) eqn:E; auto.
  intros H; inversion H; subst; auto.
Qed.

Lemma strip_nil_spaces s : strip s = [] -> forallb isspace s = true.
Proof.
  unfold strip, rstrip; intros H.
  assert (H1 : lstrip (rev (lstrip s)) = []).
  { destruct (lstrip (rev (lstrip s))); auto.
    apply (f_equal (@List.length _)) in H; rewrite length_rev in H; discriminate. }
  apply lstrip_nil_spaces in H1.
  apply lstrip_nil_spaces.
  destruct (lstrip s) as [|c t] eqn:E; auto.
  apply lstrip_head in E.
  rewrite forallb_forall in H1.
  rewrite (H1 c) in E; [discriminate|].
  apply in_rev; rewrite rev_involutive; left; reflexivity.
Qed.

Lemma words_spaces s : forallb isspace s = true -> words [] s = [].
Proof.
  induction s as [|c s IH]; simpl; auto.
  intros H; apply andb_true_iff in H as [H1 H2]; rewrite H1; auto.
Qed.

Lemma blank_line_no_token s : is_empty (strip s) = true -> split s = [].
Proof.
  intros H; apply words_spaces, strip_nil_spaces.
  destruct (strip s); [reflexivity|discriminate].
Qed.

End PyFacts.

Module DictFacts.

Import Py.

Section DictLemmas.
Variables K V : Type.
Variable eqb : K -> K -> bool.
Hypothesis eqb_eq : forall a b, eqb a b = true <-> a = b.

Lemma eqb_refl a : eqb a a = true.
Proof. now apply eqb_eq. Qed.

Lemma eqb_neq a b : eqb a b = false <-> a <> b.
Proof.
  destruct (eqb a b) eqn:E; split; try congruence.
  - apply eqb_eq in E; congruence.
  - intros _ C; apply eqb_eq in C; congruence.
Qed.

Lemma eqb_sym a b : eqb a b = eqb b a.
Proof.
  destruct (eqb b a) eqn:E.
  - apply eqb_eq in E; subst; apply eqb_refl.
  - apply eqb_neq; apply eqb_neq in E; congruence.
Qed.

Lemma dget_dset (d : list (K * V)) k v k' :
  dget eqb (dset eqb d k v) k' = if eqb k k' then Some v else dget eqb d k'.
Proof.
  induction d as [|[a x] d IH]; simpl.
  - reflexivity.
  - destruct (eqb a k) eqn:E; simpl.
    + apply eqb_eq in E; subst a; destruct (eqb k k'); reflexivity.
    + rewrite IH; destruct (eqb a k') eqn:F; auto.
      apply eqb_eq in F; subst a; now rewrite eqb_sym, E.
Qed.

Lemma dget_default_dset (d : list (K * V)) k v k' default :
  dget_default eqb (dset eqb d k v) k' default
  = if eqb k k' then v else dget_default eqb d k' default.
Proof.
  unfold dget_default; rewrite dget_dset; destruct (eqb k k'); reflexivity.
Qed.

Lemma dget_None (d : list (K * V)) k :
  dget eqb d k = None <-> ~ In k (map fst d).
Proof.
  induction d as [|[a x] d IH]; simpl; [tauto|].
  destruct (eqb a k) eqn:E.
  - apply eqb_eq in E; subst; split; [discriminate|tauto].
  - apply eqb_neq in E; rewrite IH; tauto.
Qed.

Lemma dget_Some_In (d : list (K * V)) k v :
  dget eqb d k = Some v -> In (k, v) d.
Proof.
  induction d as [|[a x] d IH]; simpl; [discriminate|].
  destruct (eqb a k) eqn:E; auto.
  apply eqb_eq in E; subst; intros X; inversion X; auto.
Qed.

Lemma In_dget (d : list (K * V)) k v :
  NoDup (map fst d) -> In (k, v) d -> dget eqb d k = Some v.
Proof.
  induction d as [|[a x] d IH]; simpl; [tauto|].
  intros Hn [E|H]; inversion Hn; subst.
  - inversion E; subst; now rewrite eqb_refl.
  - destruct (eqb a k) eqn:F; auto.
    apply eqb_eq in F; subst.
    exfalso; apply H2; change k with (fst (k, v)); now apply in_map.
Qed.

Lemma keys_dset_old (d : list (K * V)) k v :
  In k (map fst d) -> map fst (dset eqb d k v) = map fst d.
Proof.
  induction d as [|[a x] d IH]; simpl; [tauto|].
  destruct (eqb a k) eqn:E; simpl; auto.
  apply eqb_neq in E; intros [H|H]; [congruence|]; now rewrite IH.
Qed.

Lemma keys_dset_new (d : list (K * V)) k v :
  ~ In k (map fst d) -> dset eqb d k v = d ++ [(k, v)].
Proof.
  induction d as [|[a x] d IH]; simpl; auto.
  intros H; destruct (eqb a k) eqn:E.
  - apply eqb_eq in E; subst; tauto.
  - rewrite IH; auto.
Qed.

Lemma In_keys_dset (d : list (K * V)) k v x :
  In x (map fst (dset eqb d k v)) <-> In x (map fst d) \/ x = k.
Proof.
  destruct (dget eqb d k) eqn:E.
  - assert (H : In k (map fst d)).
    { apply dget_Some_In in E; change k with (fst (k, v0)); now apply in_map. }
    rewrite keys_dset_old by auto; intuition; subst; auto.
  - apply dget_None in E; rewrite keys_dset_new by auto.
    rewrite map_app, in_app_iff; simpl; intuition.
Qed.

Lemma NoDup_keys_dset (d : list (K * V)) k v :
  NoDup (map fst d) -> NoDup (map fst (dset eqb d k v)).
Proof.
  intros H; destruct (dget eqb d k) eqn:E.
  - rewrite keys_dset_old; auto.
    apply dget_Some_In in E; change k with (fst (k, v0)); now apply in_map.
  - apply dget_None in E; rewrite keys_dset_new by auto.
    rewrite map_app; apply NoDup_app; auto.
    + repeat constructor; simpl; tauto.
    + intros x Hx [<-|[]]; auto.
Qed.

End DictLemmas.

End DictFacts.

Module SortFacts.

Import Py.

Section SortedFacts.
Variable A : Type.
Variable key : A -> Q.
Variable reverse : bool.

Let R (x y : A) : Prop := before key reverse x y = true.

Lemma before_total x y : before key reverse x y = false -> R y x.
Proof.
  unfold R, before; destruct reverse; intros H;
    apply Qle_bool_iff; apply Qlt_le_weak, Qnot_le_lt;
    intros C; apply Qle_bool_iff in C; congruence.
Qed.

Lemma before_trans x y z : R x y -> R y z -> R x z.
Proof.
  unfold R, before; destruct reverse; rewrite !Qle_bool_iff; intros;
    eapply Qle_trans; eauto.
Qed.

Lemma before_false_keys x y k :
  before key reverse x y = false -> has_key key k x = true -> has_key key k y = false.
Proof.
  unfold has_key; intros H Hx.
  destruct (Qeq_bool (key y) k) eqn:Hy; auto.
  apply Qeq_bool_iff in Hx, Hy.
  assert (E : (key x == key y)%Q) by (rewrite Hx, Hy; reflexivity).
  unfold before in H; destruct reverse;
    assert (C : Qle_bool (key y) (key x) = true /\ Qle_bool (key x) (key y) = true)
      by (rewrite !Qle_bool_iff, E; split; apply Qle_refl);
    destruct C; congruence.
Qed.

Lemma insert_sorted_perm x l : Permutation (insert_sorted key reverse x l) (x :: l).
Proof.
  induction l as [|y l IH]; simpl; auto.
  destruct (before key reverse x y); auto.
  rewrite IH; apply perm_swap.
Qed.

Lemma sorted_perm l : Permutation (sorted key reverse l) l.
Proof.
  induction l as [|x l IH]; simpl; auto.
  rewrite insert_sorted_perm; auto.
Qed.

Lemma insert_sorted_Sorted x l :
  Sorted R l -> Sorted R (insert_sorted key reverse x l).
Proof.
  induction 1 as [|y l Hs IH Hd]; simpl.
  - repeat constructor.
  - destruct (before key reverse x y) eqn:E.
    + constructor; [constructor; auto|constructor; exact E].
    + constructor; auto.
      apply before_total in E.
      destruct l as [|z l]; simpl in *.
      * constructor; auto.
      * destruct (before key reverse x z); constructor; auto.
        inversion Hd; auto.
Qed.

Lemma sorted_Sorted l : Sorted R (sorted key reverse l).
Proof.
  induction l; simpl; [constructor|apply insert_sorted_Sorted; auto].
Qed.

Lemma sorted_StronglySorted l : StronglySorted R (sorted key reverse l).
Proof.
  apply Sorted_StronglySorted; [|apply sorted_Sorted].
  intros x y z; apply before_trans.
Qed.

Lemma insert_sorted_stable k x l :
  filter (has_key key k) (insert_sorted key reverse x l) =
  filter (has_key key k) (x :: l).
Proof.
  induction l as [|y l IH]; simpl; auto.
  destruct (before key reverse x y) eqn:E; simpl; auto.
  rewrite IH; simpl.
  destruct (has_key key k x) eqn:Hx; auto.
  now rewrite (before_false_keys _ _ k E Hx).
Qed.

(** Stability: the elements of one tie class come out in input order. *)
Lemma sorted_stable k l :
  filter (has_key key k) (sorted key reverse l) = filter (has_key key k) l.
Proof.
  induction l as [|x l IH]; simpl; auto.
  rewrite insert_sorted_stable; simpl; now rewrite IH.
Qed.

Lemma sorted_length l : length (sorted key reverse l) = length l.
Proof. apply Permutation_length, sorted_perm. Qed.

Lemma sorted_In x l : In x (sorted key reverse l) <-> In x l.
Proof.
  split; apply Permutation_in; [|symmetry]; apply sorted_perm.
Qed.

End SortedFacts.

Lemma In_firstn {A} n (x : A) l : In x (firstn n l) -> In x l.
Proof.
  intros H; rewrite <- (firstn_skipn n l); apply in_or_app; now left.
Qed.

Lemma StronglySorted_weaken {A} (R S : A -> A -> Prop) l :
  (forall x y, R x y -> S x y) -> StronglySorted R l -> StronglySorted S l.
Proof.
  intros H; induction 1 as [|x l Hs IH Hf]; constructor; auto.
  revert Hf; apply Forall_impl; auto.
Qed.

End SortFacts.

Module NxFacts.

Import Py Nx PyFacts.

Lemma mem_In v l : mem v l = true <-> In v l.
Proof.
  unfold mem; rewrite existsb_exists; split.
  - intros (x & Hx & E); apply str_eqb_eq in E; subst; auto.
  - intros H; exists v; split; auto; apply str_eqb_refl.
Qed.

Lemma mem_false v l : mem v l = false <-> ~ In v l.
Proof.
  rewrite <- mem_In; destruct (mem v l); split; congruence.
Qed.

Lemma In_dict_set l b v : In v (dict_set l b) <-> In v l \/ v = b.
Proof.
  unfold dict_set; destruct (mem b l) eqn:E.
  - apply mem_In in E; split; auto; intros [H| ->]; auto.
  - rewrite in_app_iff; simpl; intuition.
Qed.

Lemma dict_set_not_nil l b : dict_set l b <> [].
Proof.
  unfold dict_set; destruct (mem b l) eqn:E.
  - apply mem_In in E; destruct l; [destruct E|discriminate].
  - destruct l; discriminate.
Qed.

Lemma has_node_adj g v : has_node g v = true <-> adj g v <> None.
Proof.
  unfold has_node; rewrite mem_In.
  induction g as [|[n l] g IH]; simpl.
  - split; [tauto|congruence].
  - destruct (str_eqb n v) eqn:E.
    + apply str_eqb_eq in E; subst; split; [discriminate|auto].
    + apply str_eqb_neq in E; rewrite <- IH; split; [intros [H|H]; congruence|auto].
Qed.

Lemma has_node_false_adj g v : has_node g v = false <-> adj g v = None.
Proof.
  destruct (has_node g v) eqn:E.
  - apply has_node_adj in E; split; congruence.
  - split; auto; intros _.
    destruct (adj g v) eqn:A; auto.
    assert (H : has_node g v = true) by (apply has_node_adj; congruence).
    congruence.
Qed.

Lemma In_nodes_adj g v : In v (nodes g) <-> exists l, adj g v = Some l.
Proof.
  rewrite <- mem_In; fold (has_node g v); rewrite has_node_adj.
  destruct (adj g v); split; try congruence; eauto.
  intros [l H]; discriminate.
Qed.

Lemma adj_app_last g a l u :
  adj (g ++ [(a, l)]) u =
  match adj g u with
  | Some x => Some x
  | None => if str_eqb a u then Some l else None
  end.
Proof.
  induction g as [|[n x] g IH]; simpl; auto.
  destruct (str_eqb n u); auto.
Qed.

Lemma adj_ensure_node g a u :
  adj (ensure_node g a) u =
  match adj g u with
  | Some x => Some x
  | None => if str_eqb a u then Some [] else None
  end.
Proof.
  unfold ensure_node; destruct (has_node g a) eqn:E.
  - destruct (adj g u) eqn:A; auto.
    destruct (str_eqb a u) eqn:B; auto.
    apply str_eqb_eq in B; subst; apply has_node_adj in E; congruence.
  - apply adj_app_last.
Qed.

Lemma adj_set_adj g a b u :
  adj (set_adj g a b) u =
  match adj g u with
  | Some l => if str_eqb a u then Some (dict_set l b) else Some l
  | None => None
  end.
Proof.
  induction g as [|[n x] g IH]; simpl; auto.
  destruct (str_eqb n a) eqn:E; simpl.
  - apply str_eqb_eq in E; subst n.
    destruct (str_eqb a u) eqn:F; auto.
    destruct (adj g u); auto.
  - destruct (str_eqb n u) eqn:F; auto.
    apply str_eqb_eq in F; subst n.
    rewrite str_eqb_sym, E; reflexivity.
Qed.

Lemma nodes_set_adj g a b : nodes (set_adj g a b) = nodes g.
Proof.
  unfold nodes; induction g as [|[n x] g IH]; simpl; auto.
  destruct (str_eqb n a); simpl; congruence.
Qed.

(** The adjacency of a graph after [add_edge], entry by entry. *)
Lemma adj_add_edge g a b u :
  adj (add_edge g a b) u =
  let old := nbrs_of g u in
  if str_eqb a u then
    Some (if str_eqb b u then dict_set (dict_set old b) a else dict_set old b)
  else if str_eqb b u then Some (dict_set old a)
  else adj g u.
Proof.
  unfold add_edge, nbrs_of; cbv zeta.
  rewrite !adj_set_adj, !adj_ensure_node.
  destruct (adj g u) as [l|]; destruct (str_eqb a u), (str_eqb b u); auto.
Qed.

Lemma has_edge_add_edge g a b u v :
  has_edge (add_edge g a b) u v = true <->
  has_edge g u v = true \/ (u = a /\ v = b) \/ (u = b /\ v = a).
Proof.
  unfold has_edge at 1; unfold nbrs_of at 1; rewrite adj_add_edge; cbv zeta.
  unfold has_edge; fold (nbrs_of g u).
  destruct (str_eqb a u) eqn:A; [apply str_eqb_eq in A|apply str_eqb_neq in A];
  (destruct (str_eqb b u) eqn:B; [apply str_eqb_eq in B|apply str_eqb_neq in B]);
  rewrite ?mem_In, ?In_dict_set; try subst a; try subst b.
  - intuition; subst; auto.
  - intuition; subst; auto; congruence.
  - intuition; subst; auto; congruence.
  - unfold nbrs_of; intuition; subst; congruence.
Qed.

End NxFacts.

Module GraphFacts.

Import Py Nx PyFacts NxFacts.

Lemma nodes_ensure_node g a :
  nodes (ensure_node g a) = if has_node g a then nodes g else nodes g ++ [a].
Proof.
  unfold ensure_node; destruct (has_node g a); auto.
  unfold nodes; now rewrite map_app.
Qed.

Lemma In_nodes_ensure_node g a v :
  In v (nodes (ensure_node g a)) <-> In v (nodes g) \/ v = a.
Proof.
  rewrite nodes_ensure_node; destruct (has_node g a) eqn:E.
  - apply mem_In in E; intuition; subst; auto.
  - rewrite in_app_iff; simpl; intuition.
Qed.

Lemma NoDup_nodes_ensure_node g a :
  NoDup (nodes g) -> NoDup (nodes (ensure_node g a)).
Proof.
  intros H; rewrite nodes_ensure_node; destruct (has_node g a) eqn:E; auto.
  apply mem_false in E.
  apply NoDup_app; auto.
  - repeat constructor; simpl; tauto.
  - intros x Hx [<-|[]]; auto.
Qed.

Lemma nodes_add_edge g a b :
  nodes (add_edge g a b) = nodes (ensure_node (ensure_node g a) b).
Proof. unfold add_edge; now rewrite !nodes_set_adj. Qed.

Lemma In_nodes_add_edge g a b v :
  In v (nodes (add_edge g a b)) <-> In v (nodes g) \/ v = a \/ v = b.
Proof. rewrite nodes_add_edge, !In_nodes_ensure_node; tauto. Qed.

Lemma NoDup_dict_set l b : NoDup l -> NoDup (dict_set l b).
Proof.
  intros H; unfold dict_set; destruct (mem b l) eqn:E; auto.
  apply mem_false in E; apply NoDup_app; auto.
  - repeat constructor; simpl; tauto.
  - intros x Hx [<-|[]]; auto.
Qed.

(** The invariants of the graph class. *)
Record graph_ok (g : Graph) : Prop := {
  ok_nodes : NoDup (nodes g);
  ok_nbrs : forall v l, adj g v = Some l -> NoDup l;
  ok_closed : forall u v, In v (nbrs_of g u) -> In v (nodes g);
  ok_sym : forall u v, has_edge g u v = true -> has_edge g v u = true
}.

Lemma nbrs_of_ensure_node g a u : nbrs_of (ensure_node g a) u = nbrs_of g u.
Proof.
  unfold nbrs_of; rewrite adj_ensure_node.
  destruct (adj g u); auto; destruct (str_eqb a u); auto.
Qed.

Lemma graph_ok_empty : graph_ok empty_graph.
Proof.
  split; simpl; try discriminate; try tauto; constructor.
Qed.

Lemma graph_ok_add_node g n : graph_ok g -> graph_ok (add_node g n).
Proof.
  intros [H1 H2 H3 H4]; unfold add_node; split.
  - now apply NoDup_nodes_ensure_node.
  - intros v l; rewrite adj_ensure_node.
    destruct (adj g v) eqn:E.
    + intros X; inversion X; subst; eauto.
    + destruct (str_eqb n v); intros X; inversion X; constructor.
  - intros u v; rewrite nbrs_of_ensure_node, In_nodes_ensure_node; eauto.
  - intros u v; unfold has_edge; rewrite !nbrs_of_ensure_node; apply H4.
Qed.

Lemma graph_ok_add_edge g a b : graph_ok g -> graph_ok (add_edge g a b).
Proof.
  intros [H1 H2 H3 H4]; split.
  - rewrite nodes_add_edge; now do 2 apply NoDup_nodes_ensure_node.
  - intros v l; rewrite adj_add_edge; cbv zeta.
    assert (Hn : NoDup (nbrs_of g v)).
    { unfold nbrs_of; destruct (adj g v) eqn:E; eauto; constructor. }
    destruct (str_eqb a v); [|destruct (str_eqb b v)].
    + intros X; inversion X; destruct (str_eqb b v);
        repeat apply NoDup_dict_set; auto.
    + intros X; inversion X; now apply NoDup_dict_set.
    + eauto.
  - intros u v H; apply mem_In in H; fold (has_edge (add_edge g a b) u v) in H.
    apply has_edge_add_edge in H; rewrite In_nodes_add_edge.
    destruct H as [H|[[-> ->]|[-> ->]]]; auto.
    left; apply (H3 u); now apply mem_In.
  - intros u v; rewrite !has_edge_add_edge.
    intros [H|[[-> ->]|[-> ->]]]; auto.
Qed.

Lemma built_ok g : built g -> graph_ok g.
Proof.
  induction 1;
    auto using graph_ok_empty, graph_ok_add_node, graph_ok_add_edge.
Qed.

Lemma adj_In g v l : adj g v = Some l -> In (v, l) g.
Proof.
  induction g as [|[n x] g IH]; simpl; try discriminate.
  destruct (str_eqb n v) eqn:E; auto.
  apply str_eqb_eq in E; subst; intros X; inversion X; auto.
Qed.

Lemma In_adj g v l : NoDup (nodes g) -> In (v, l) g -> adj g v = Some l.
Proof.
  induction g as [|[n x] g IH]; simpl; [tauto|].
  intros H [E|E]; inversion H; subst.
  - inversion E; subst; now rewrite str_eqb_refl.
  - destruct (str_eqb n v) eqn:F; auto.
    apply str_eqb_eq in F; subst.
    exfalso; apply H2; change v with (fst (v, l)); now apply in_map.
Qed.

(** *** The degree sum *)

Lemma degree_of_dict_set n l v :
  degree_of n (dict_set l v) =
  degree_of n l + (if mem v l then 0 else if str_eqb n v then 2 else 1).
Proof.
  unfold degree_of, dict_set; destruct (mem v l) eqn:E; [lia|].
  rewrite length_app.
  assert (M : mem n (l ++ [v]) = mem n l || str_eqb n v).
  { unfold mem; rewrite existsb_app; simpl; now rewrite orb_false_r. }
  rewrite M; simpl length.
  destruct (str_eqb n v) eqn:F.
  - apply str_eqb_eq in F; subst; rewrite E; simpl; lia.
  - rewrite orb_false_r; destruct (mem n l); lia.
Qed.

Lemma degree_sum_app g h : degree_sum (g ++ h) = degree_sum g + degree_sum h.
Proof.
  unfold degree_sum, degree; rewrite !map_app.
  induction (map snd (map (fun '(n, nbrs) => (n, degree_of n nbrs)) g));
    simpl; lia.
Qed.

Lemma degree_sum_ensure_node g a : degree_sum (ensure_node g a) = degree_sum g.
Proof.
  unfold ensure_node; destruct (has_node g a); auto.
  rewrite degree_sum_app; unfold degree_sum; simpl; lia.
Qed.

Lemma degree_sum_set_adj g u v :
  degree_sum (set_adj g u v) =
  degree_sum g +
  match adj g u with
  | Some l => if mem v l then 0 else if str_eqb u v then 2 else 1
  | None => 0
  end.
Proof.
  unfold degree_sum; induction g as [|[n x] g IH]; simpl; auto.
  destruct (str_eqb n u) eqn:E; simpl.
  - apply str_eqb_eq in E; subst; rewrite degree_of_dict_set; lia.
  - rewrite IH; lia.
Qed.

Lemma degree_sum_add_edge g a b :
  graph_ok g ->
  degree_sum (add_edge g a b) =
  degree_sum g + (if has_edge g a b then 0 else 2).
Proof.
  intros Hok; unfold add_edge; cbv zeta.
  rewrite !degree_sum_set_adj, !degree_sum_ensure_node.
  rewrite adj_set_adj, !adj_ensure_node.
  assert (Ea : match adj g a with
 | Some x => Some x
 | None => if str_eqb a a then Some [] else None end
 = Some (nbrs_of g a)).
  { unfold nbrs_of; destruct (adj g a); auto; now rewrite str_eqb_refl. }
  assert (Eb : match match adj g b with
       | Some x => Some x
       | None => if str_eqb a b then Some [] else None end with
 | Some x => Some x
 | None => if str_eqb b b then Some [] else None end
 = Some (nbrs_of g b)).
  { unfold nbrs_of; destruct (adj g b); auto.
    rewrite str_eqb_refl; destruct (str_eqb a b); auto. }
  assert (Ea' : match match adj g a with
       | Some x => Some x
       | None => if str_eqb a a then Some [] else None end with
 | Some x => Some x
 | None => if str_eqb b a then Some [] else None end
 = Some (nbrs_of g a)).
  { rewrite Ea; auto. }
  rewrite Ea', Eb.
  fold (has_edge g a b).
  destruct (str_eqb a b) eqn:E.
  - apply str_eqb_eq in E; subst b.
    replace (mem a (dict_set (nbrs_of g a) a)) with true
      by (symmetry; apply mem_In, In_dict_set; auto).
    destruct (has_edge g a a); lia.
  - rewrite (str_eqb_sym b a), E.
    fold (has_edge g b a).
    destruct (has_edge g a b) eqn:F.
    + rewrite (ok_sym Hok _ _ F); lia.
    + destruct (has_edge g b a) eqn:G; [|lia].
      apply (ok_sym Hok) in G; congruence.
Qed.

Lemma degree_sum_even g : built g -> Nat.even (degree_sum g) = true.
Proof.
  induction 1 as [|g n H IH|g u v H IH]; auto.
  - unfold add_node; now rewrite degree_sum_ensure_node.
  - rewrite degree_sum_add_edge by now apply built_ok.
    destruct (has_edge g u v); rewrite Nat.even_add, IH; reflexivity.
Qed.

(** The handshake lemma on the program's own edge count. *)
Lemma handshake g : built g -> degree_sum g = 2 * number_of_edges g.
Proof.
  intros H; apply degree_sum_even in H.
  unfold number_of_edges; fold (degree_sum g).
  apply Nat.even_spec in H as [k ->].
  now rewrite Nat.mul_comm, Nat.div_mul, Nat.mul_comm by lia.
Qed.

End GraphFacts.

Module BfsFacts.

Import Py Nx PyFacts NxFacts GraphFacts.

(** *** Walks *)

Lemma walk_app g s u v a b :
  walk g s u a -> walk g u v b -> walk g s v (a + b).
Proof.
  intros Ha Hb; induction Hb as [|u v w k Hb IH Hw].
  - now rewrite Nat.add_0_r.
  - rewrite Nat.add_succ_r; econstructor; eauto.
Qed.

Lemma walk_split g s v a b :
  walk g s v (a + b) -> exists u, walk g s u a /\ walk g u v b.
Proof.
  revert v; induction b as [|b IH]; intros v H.
  - rewrite Nat.add_0_r in H; exists v; split; auto; constructor.
  - rewrite Nat.add_succ_r in H; inversion H as [|? x ? ? Hx Hxv]; subst.
    destruct (IH _ Hx) as (u & Hu & Hux).
    exists u; split; auto; econstructor; eauto.
Qed.

Lemma walk_in_nodes g s v k :
  graph_ok g -> In s (nodes g) -> walk g s v k -> In v (nodes g).
Proof.
  intros Hok Hs H; induction H; auto.
  eapply ok_closed; eauto.
Qed.

Lemma walk_rev g u v k : graph_ok g -> walk g u v k -> walk g v u k.
Proof.
  intros Hok H; induction H as [|u v w k H IH Hw].
  - constructor.
  - change (S k) with (1 + k); apply walk_app with (u := v); auto.
    apply walk_step with (v := w); [constructor|].
    apply mem_In; apply mem_In in Hw; now apply (ok_sym Hok).
Qed.

Lemma dist_unique g s v d d' : dist g s v d -> dist g s v d' -> d = d'.
Proof.
  intros [H1 H2] [H3 H4]; apply H2 in H3; apply H4 in H1; lia.
Qed.

(** *** One level of the search *)

Lemma fold_visit ws : forall seen next,
  exists new,
    fold_left visit ws (seen, next) = (seen ++ new, next ++ new)
    /\ (forall w, In w new <-> In w ws /\ ~ In w seen)
    /\ NoDup new.
Proof.
  induction ws as [|a ws IH]; intros seen next; simpl.
  - exists []; rewrite !app_nil_r; repeat split; try tauto; constructor.
  - destruct (mem a seen) eqn:E.
    + destruct (IH seen next) as (new & H1 & H2 & H3).
      exists new; split; [exact H1|split; [|exact H3]].
      intros w; rewrite H2; simpl; apply mem_In in E.
      intuition; subst; tauto.
    + apply mem_false in E.
      destruct (IH (seen ++ [a]) (next ++ [a])) as (new & H1 & H2 & H3).
      exists (a :: new); rewrite H1, <- !app_assoc; simpl.
      split; [reflexivity|split].
      * intros w; simpl; rewrite H2, in_app_iff; simpl.
        destruct (str_eq_dec a w) as [->|N]; [tauto|].
        intuition; congruence.
      * constructor; auto.
        intros C; apply H2 in C; rewrite in_app_iff in C; simpl in C; tauto.
Qed.

Lemma expand_flat g level : forall st,
  expand g level st = fold_left visit (flat_map (nbrs_of g) level) st.
Proof.
  unfold expand; induction level as [|v level IH]; intros st; simpl; auto.
  now rewrite fold_left_app, IH.
Qed.

Lemma expand_spec g level seen :
  exists new,
    expand g level (seen, []) = (seen ++ new, new)
    /\ (forall w, In w new <->
    (exists v, In v level /\ In w (nbrs_of g v)) /\ ~ In w seen)
    /\ NoDup new.
Proof.
  rewrite expand_flat.
  destruct (fold_visit (flat_map (nbrs_of g) level) seen []) as (new & H1 & H2 & H3).
  exists new; split; [exact H1|split; auto].
  intros w; rewrite H2, in_flat_map; tauto.
Qed.

(** *** The loop invariant *)

Record bfs_inv (g : Graph) (s : node) (k : nat)
       (seen level : list node) (out : list (node * nat)) : Prop := {
  inv_seen : seen = map fst out;
  inv_out : forall v d, In (v, d) out -> dist g s v d /\ d <= k;
  inv_complete : forall v j, walk g s v j -> j <= k -> In v seen;
  inv_level : forall v, In v level <-> In (v, k) out;
  inv_nodup : NoDup seen;
  inv_incl : incl seen (nodes g)
}.

Lemma bfs_inv_init g s :
  In s (nodes g) -> bfs_inv g s 0 [s] [s] [(s, 0)].
Proof.
  intros Hs; split; simpl; auto.
  - intros v d [E|[]]; inversion E; subst; split; auto.
    split; [constructor|intros; lia].
  - intros v j H Hj; assert (j = 0) by lia; subst; inversion H; auto.
  - intros v; split; intros [E|[]]; [subst|inversion E]; auto.
  - repeat constructor; simpl; tauto.
  - intros v [<-|[]]; auto.
Qed.

Lemma seen_has_dist g s k seen level out v :
  bfs_inv g s k seen level out -> In v seen ->
  exists d, In (v, d) out /\ dist g s v d /\ d <= k.
Proof.
  intros I Hv; rewrite (inv_seen I) in Hv.
  apply in_map_iff in Hv as ([v' d] & E & Hin); simpl in E; subst.
  exists d; split; auto; eapply inv_out; eauto.
Qed.

Lemma bfs_inv_step g s k seen level out new :
  graph_ok g ->
  bfs_inv g s k seen level out ->
  (forall w, In w new <->
             (exists v, In v level /\ In w (nbrs_of g v)) /\ ~ In w seen) ->
  NoDup new ->
  bfs_inv g s (k + 1) (seen ++ new) new
          (out ++ map (fun w => (w, k + 1)) new).
Proof.
  intros Hok I Hnew Hnd; split.
  - rewrite map_app, map_map; simpl; rewrite map_id; f_equal; apply I.
  - intros v d H; apply in_app_iff in H as [H|H].
    + apply (inv_out I) in H; split; [tauto|lia].
    + apply in_map_iff in H as (w & E & Hw); inversion E; subst.
      apply Hnew in Hw as [(u & Hu & Huv) Hns].
      apply (inv_level I) in Hu; apply (inv_out I) in Hu as [[Hu _] _].
      split; auto; split.
      * rewrite Nat.add_1_r; econstructor; eauto.
      * intros j Hj; destruct (le_lt_dec (k + 1) j); auto.
        exfalso; apply Hns; eapply inv_complete; eauto; lia.
  - intros v j Hw Hj; apply in_app_iff.
    destruct (mem v seen) eqn:M; [left; now apply mem_In|right].
    apply mem_false in M.
    destruct (le_lt_dec j k) as [L|L];
      [exfalso; apply M; eapply inv_complete; eauto|].
    assert (j = S k) by lia; subst j.
    inversion Hw as [|? u ? ? Hu Huv]; subst.
    apply Hnew; split; auto; exists u; split; auto.
    assert (Hs : In u seen) by (eapply inv_complete; eauto).
    destruct (seen_has_dist u I Hs) as (d & Hd & [Hwd _] & Hle).
    destruct (Nat.eq_dec d k) as [->|Hne]; [now apply (inv_level I)|].
    exfalso; apply M; apply (inv_complete I) with (j := S d); [|lia].
    econstructor; eauto.
  - intros v; rewrite in_app_iff, in_map_iff; split.
    + intros H; right; exists v; auto.
    + intros [H|(w & E & H)]; [|inversion E; subst; auto].
      apply (inv_out I) in H; lia.
  - apply NoDup_app; auto; [apply I|].
    intros x Hx Hx'; apply Hnew in Hx'; tauto.
  - intros v H; apply in_app_iff in H as [H|H]; [now apply (inv_incl I)|].
    apply Hnew in H as [(u & _ & Hu) _]; eapply ok_closed; eauto.
Qed.

(** When a level is empty the search has seen every node it can reach. *)
Lemma bfs_inv_done g s k seen out :
  bfs_inv g s k seen [] out ->
  forall j v, walk g s v j -> In v seen.
Proof.
  intros I j; induction j as [j IH] using lt_wf_ind; intros v Hw.
  destruct (le_lt_dec j k) as [L|L]; [eapply inv_complete; eauto|].
  replace j with (k + (j - k)) in Hw by lia.
  apply walk_split in Hw as (u & Hu & Huv).
  assert (Hs : In u seen) by (eapply inv_complete; eauto).
  destruct (seen_has_dist u I Hs) as (d & Hd & [Hwd _] & Hle).
  destruct (Nat.eq_dec d k) as [->|Hne].
  - apply (inv_level I) in Hd; destruct Hd.
  - apply (IH (d + (j - k))); [lia|].
    eapply walk_app; eauto.
Qed.

(** When all nodes are seen, too. *)
Lemma bfs_inv_full g s k seen level out :
  graph_ok g -> In s (nodes g) ->
  bfs_inv g s k seen level out -> length seen = length g ->
  forall j v, walk g s v j -> In v seen.
Proof.
  intros Hok Hs I Hlen j v Hw.
  assert (Hv : In v (nodes g)) by (eapply walk_in_nodes; eauto).
  revert Hv; apply NoDup_length_incl; [apply I| |apply I].
  unfold nodes; rewrite length_map; lia.
Qed.

Definition bfs_result (g : Graph) (s : node) (out : list (node * nat)) : Prop :=
  NoDup (map fst out) /\ forall v d, In (v, d) out <-> dist g s v d.

Lemma bfs_inv_result g s k seen level out :
  bfs_inv g s k seen level out ->
  (forall j v, walk g s v j -> In v seen) ->
  bfs_result g s out.
Proof.
  intros I Hall; split.
  - rewrite <- (inv_seen I); apply I.
  - intros v d; split; [intros H; now apply (inv_out I) in H|].
    intros Hd; assert (Hs : In v seen) by (destruct Hd; eauto).
    destruct (seen_has_dist v I Hs) as (d' & Hin & Hd' & _).
    now rewrite (dist_unique Hd Hd').
Qed.

Lemma bfs_loop_nil fuel g seen k out :
  bfs_loop fuel g seen [] k out = Some out.
Proof. destruct fuel; reflexivity. Qed.

Lemma bfs_loop_total g s : graph_ok g -> In s (nodes g) ->
  forall fuel seen level k out,
    bfs_inv g s k seen level out ->
    length g <= length seen + fuel -> (level <> [] -> 1 <= fuel) ->
    exists out', bfs_loop fuel g seen level k out = Some out'
   /\ bfs_result g s out'.
Proof.
  intros Hok Hs fuel; induction fuel as [|fuel IH];
    intros seen level k out I Hf Hl.
  - destruct level as [|x level]; [|specialize (Hl ltac:(discriminate)); lia].
    exists out; split; auto.
    eapply bfs_inv_result; eauto; eapply bfs_inv_done; eauto.
  - destruct level as [|x level].
    + exists out; split; auto.
      eapply bfs_inv_result; eauto; eapply bfs_inv_done; eauto.
    + cbn [bfs_loop].
      destruct (expand_spec g (x :: level) seen) as (new & E & Hnew & Hnd).
      rewrite E.
      pose proof (bfs_inv_step Hok I Hnew Hnd) as I'.
      destruct (length (seen ++ new) =? length g) eqn:L.
      * apply Nat.eqb_eq in L; eexists; split; [reflexivity|].
        eapply bfs_inv_result; eauto; eapply bfs_inv_full; eauto.
      * apply Nat.eqb_neq in L.
        assert (Hle : length (seen ++ new) <= length g).
        { replace (length g) with (length (nodes g))
            by (unfold nodes; apply length_map).
          apply NoDup_incl_length; apply I'. }
        destruct new as [|y new].
        -- eexists; split; [apply bfs_loop_nil|].
           eapply bfs_inv_result; eauto; eapply bfs_inv_done; eauto.
        -- rewrite length_app in *; simpl in *.
           apply IH; auto; [rewrite length_app; simpl; lia|intros _; lia].
Qed.

(** The search from a node of the graph ends within its fuel and returns
    the shortest-walk distance of every node it can reach, once each. *)
Lemma shortest_path_length_spec g s :
  graph_ok g -> In s (nodes g) ->
  exists d, single_source_shortest_path_length g s = ret d
            /\ bfs_result g s d.
Proof.
  intros Hok Hs; unfold single_source_shortest_path_length.
  replace (has_node g s) with true by (symmetry; now apply mem_In).
  destruct (@bfs_loop_total g s Hok Hs (length g) [s] [s] 0 [(s, 0)])
    as (d & E & R).
  - now apply bfs_inv_init.
  - simpl; lia.
  - intros _; destruct g; [destruct Hs|simpl; lia].
  - exists d; rewrite E; auto.
Qed.

End BfsFacts.

Module ClosenessFacts.

Import Py Nx PyFacts NxFacts GraphFacts BfsFacts.

Lemma bfs_result_source g s sp : bfs_result g s sp -> In (s, 0) sp.
Proof.
  intros [_ H]; apply H; split; [constructor|intros; lia].
Qed.

Lemma dist_zero g s v : dist g s v 0 -> v = s.
Proof. intros [H _]; inversion H; auto. Qed.

Lemma sum_nat_In x l : In x l -> x <= sum_nat l.
Proof.
  induction l as [|y l IH]; simpl; [tauto|].
  intros [->|H]; [lia|apply IH in H; lia].
Qed.

Lemma bfs_result_length g s sp :
  graph_ok g -> In s (nodes g) -> bfs_result g s sp -> length sp <= length g.
Proof.
  intros Hok Hs [Hn H].
  rewrite <- (length_map fst sp), <- (length_map fst g).
  apply NoDup_incl_length; auto.
  intros v Hv; apply in_map_iff in Hv as ([v' d] & E & Hin); simpl in E; subst.
  apply H in Hin as [Hw _]; eapply walk_in_nodes; eauto.
Qed.

Lemma bfs_result_total g s sp :
  bfs_result g s sp -> 2 <= length sp -> 0 < sum_nat (map snd sp).
Proof.
  intros [Hn H] Hlen.
  assert (Hex : exists u d, In (u, d) sp /\ u <> s).
  { destruct sp as [|[u1 d1] [|[u2 d2] sp]]; simpl in Hlen; try lia.
    destruct (str_eq_dec u1 s) as [->|N1]; [|exists u1, d1; simpl; auto].
    exists u2, d2; split; [simpl; auto|].
    intros ->; simpl in Hn; inversion Hn; subst; simpl in *; tauto. }
  destruct Hex as (u & d & Hin & Hne).
  assert (d <> 0).
  { intros ->; apply H in Hin; apply dist_zero in Hin; congruence. }
  assert (d <= sum_nat (map snd sp)); [|lia].
  apply sum_nat_In; change d with (snd (u, d)); now apply in_map.
Qed.

(** The score of one node, read off the result of the search. *)
Lemma closeness_of_spec g s sp :
  graph_ok g -> In s (nodes g) -> bfs_result g s sp ->
  (length sp = 1 -> closeness_of g sp = 0%Q)
  /\ (length sp <> 1 ->
      closeness_of g sp
      = (ratio (length sp - 1) (sum_nat (map snd sp))
         * ratio (length sp - 1) (length g - 1))%Q).
Proof.
  intros Hok Hs R; pose proof (bfs_result_source R) as H0.
  pose proof (bfs_result_length Hok Hs R) as Hle.
  unfold closeness_of; split; intros Hlen.
  - destruct sp as [|e [|e' sp]]; simpl in Hlen; try lia.
    destruct H0 as [->|[]]; reflexivity.
  - assert (H2 : 2 <= length sp) by (destruct sp; simpl in *; [tauto|lia]).
    pose proof (bfs_result_total R H2) as Ht.
    replace (0 <? sum_nat (map snd sp)) with true
      by (symmetry; now apply Nat.ltb_lt).
    replace (1 <? length g) with true by (symmetry; apply Nat.ltb_lt; lia).
    reflexivity.
Qed.

Lemma closeness_fold g : graph_ok g -> forall l acc,
  incl l (nodes g) ->
  exists cc,
    cfold (fun closeness_dict n =>
             cbind (single_source_shortest_path_length g n)
     (fun sp => ret (closeness_dict ++ [(n, closeness_of g sp)])))
          l acc = ret (acc ++ cc)
    /\ map fst cc = l
    /\ forall n c, In (n, c) cc ->
     exists sp, bfs_result g n sp /\ c = closeness_of g sp.
Proof.
  intros Hok l; induction l as [|n l IH]; intros acc Hl; simpl.
  - exists []; rewrite app_nil_r; repeat split; auto; intros ? ? [].
  - destruct (@shortest_path_length_spec g n Hok) as (sp & E & R);
      [apply Hl; now left|].
    rewrite E; simpl.
    destruct (IH (acc ++ [(n, closeness_of g sp)])) as (cc & E' & Hk & Hc);
      [intros x Hx; apply Hl; now right|].
    exists ((n, closeness_of g sp) :: cc); rewrite E', <- app_assoc.
    split; [reflexivity|split; [simpl; congruence|]].
    intros m c [X|X]; [inversion X; subst; eauto|eauto].
Qed.

End ClosenessFacts.

Module BrandesFacts.

Import Py Nx PyFacts NxFacts GraphFacts DictFacts.

(** *** The search of one source ends *)

Record sssp_inv (g : Graph) (st : sssp_state) : Prop := {
  si_nodup : NoDup (map fst (st_D st));
  si_D : incl (map fst (st_D st)) (nodes g);
  si_SQ : incl (st_S st ++ st_Q st) (nodes g)
}.

Definition sssp_measure (g : Graph) (st : sssp_state) : nat :=
  length (st_Q st) + (length g - length (st_D st)).

Lemma keys_bound g (d : list (node * nat)) :
  NoDup (map fst d) -> incl (map fst d) (nodes g) -> length d <= length g.
Proof.
  intros H1 H2; rewrite <- (length_map fst d), <- (length_map fst g).
  now apply NoDup_incl_length.
Qed.

Lemma relax_spec g v Dv sigmav st w :
  sssp_inv g st -> In w (nodes g) ->
  let st' := relax v Dv sigmav st w in
  sssp_inv g st' /\ sssp_measure g st' = sssp_measure g st
  /\ st_S st' = st_S st.
Proof.
  intros I Hw; unfold relax.
  destruct (dict_get (st_D st) w) as [d|] eqn:E.
  - rewrite E; destruct (d =? Dv + 1); simpl; repeat split; apply I.
  - assert (Hnew : ~ In w (map fst (st_D st)))
      by (apply (dget_None str_eqb str_eqb_eq); exact E).
    assert (I' : sssp_inv g
                   {| st_S := st_S st; st_P := st_P st; st_sigma := st_sigma st;
                      st_D := dict_setitem (st_D st) w (Dv + 1);
                      st_Q := st_Q st ++ [w] |}).
    { split; simpl.
      - apply NoDup_keys_dset; [exact str_eqb_eq|apply I].
      - intros x Hx; apply (In_keys_dset str_eqb str_eqb_eq) in Hx as [Hx| ->];
          auto; now apply (si_D I).
      - intros x Hx; rewrite app_assoc in Hx; apply in_app_iff in Hx as [Hx|[<-|[]]];
          auto; now apply (si_SQ I). }
    assert (M : sssp_measure g
                   {| st_S := st_S st; st_P := st_P st; st_sigma := st_sigma st;
                      st_D := dict_setitem (st_D st) w (Dv + 1);
                      st_Q := st_Q st ++ [w] |} = sssp_measure g st).
    { pose proof (@keys_bound g _ (si_nodup I') (si_D I')) as B; simpl in B.
      unfold sssp_measure; simpl.
      unfold dict_setitem in *; rewrite (keys_dset_new _ str_eqb_eq) in * by auto.
      rewrite !length_app in *; simpl in *.
      lia. }
    simpl.
    destruct (dict_get (dict_setitem (st_D st) w (Dv + 1)) w) as [d|];
      [destruct (d =? Dv + 1)|]; simpl; repeat split; auto; apply I'.
Qed.

Lemma relax_fold g v Dv sigmav ws : forall st,
  sssp_inv g st -> incl ws (nodes g) ->
  let st' := fold_left (relax v Dv sigmav) ws st in
  sssp_inv g st' /\ sssp_measure g st' = sssp_measure g st
  /\ st_S st' = st_S st.
Proof.
  induction ws as [|w ws IH]; intros st I Hws; simpl; auto.
  destruct (@relax_spec g v Dv sigmav st w I) as (I' & M & E);
    [apply Hws; now left|].
  destruct (IH _ I') as (I'' & M' & E'); [intros x Hx; apply Hws; now right|].
  split; [exact I''|split; congruence].
Qed.

Lemma sssp_loop_total g : graph_ok g -> forall fuel st,
  sssp_inv g st -> sssp_measure g st <= fuel ->
  exists st', sssp_loop fuel g st = Some st' /\ incl (st_S st') (nodes g).
Proof.
  intros Hok fuel; induction fuel as [|fuel IH]; intros st I M.
  - destruct (st_Q st) as [|v rest] eqn:E.
    + exists st; simpl; rewrite E; split; auto.
      intros x Hx; apply (si_SQ I), in_app_iff; auto.
    + unfold sssp_measure in M; rewrite E in M; simpl in M; lia.
  - simpl; destruct (st_Q st) as [|v rest] eqn:E.
    + exists st; split; auto.
      intros x Hx; apply (si_SQ I), in_app_iff; auto.
    + set (st0 := {| st_S := st_S st ++ [v]; st_P := st_P st;
                     st_sigma := st_sigma st; st_D := st_D st; st_Q := rest |}).
      assert (I0 : sssp_inv g st0).
      { split; simpl; try apply I.
        intros x Hx; apply (si_SQ I); rewrite E.
        rewrite <- app_assoc in Hx; exact Hx. }
      assert (M0 : sssp_measure g st0 = sssp_measure g st - 1 /\
                   1 <= sssp_measure g st).
      { unfold sssp_measure; simpl; rewrite E; simpl; lia. }
      destruct (@relax_fold g v
                  match dict_get (st_D st) v with Some d => d | None => 0 end
                  (getQ (st_sigma st) v) (nbrs_of g v) st0 I0)
        as (I1 & M1 & _).
      { intros x Hx; eapply ok_closed; eauto. }
      apply IH; auto; lia.
Qed.

Lemma sssp_total g s :
  graph_ok g -> In s (nodes g) ->
  exists st, single_source_shortest_path_basic g s = Some st
             /\ incl (st_S st) (nodes g).
Proof.
  intros Hok Hs; apply sssp_loop_total; auto.
  - split; simpl.
    + repeat constructor; simpl; tauto.
    + intros x [<-|[]]; auto.
    + intros x [<-|[]]; auto.
  - unfold sssp_measure; simpl.
    destruct g; [destruct Hs|simpl; lia].
Qed.

(** *** The sum over the sources *)

Lemma getQ_set d w v x :
  getQ (dict_setitem d w v) x = if str_eqb w x then v else getQ d x.
Proof.
  unfold getQ, dict_get, dict_setitem.
  rewrite (dget_dset _ str_eqb_eq); destruct (str_eqb w x); reflexivity.
Qed.

(** The search state of a source of the graph. *)
Definition search (g : Graph) (s : node) : sssp_state :=
  match single_source_shortest_path_basic g s with
  | Some st => st
  | None => {| st_S := []; st_P := []; st_sigma := []; st_D := []; st_Q := [] |}
  end.

Definition add_source (g : Graph) (b : list (node * Q)) (s : node)
  : list (node * Q) :=
  accumulate_basic b (search g s) s.

Lemma betweenness_from_total g : graph_ok g -> forall sources b,
  incl sources (nodes g) ->
  betweenness_from g sources b = Some (fold_left (add_source g) sources b).
Proof.
  intros Hok sources; induction sources as [|s l IH]; intros b Hl; simpl; auto.
  destruct (@sssp_total g s Hok) as (st & E & _); [apply Hl; now left|].
  unfold add_source at 2, search; rewrite E.
  apply IH; intros x Hx; apply Hl; now right.
Qed.

(** *** Rescaling *)

Lemma getQ_scaled (d : list (node * Q)) (s : Q) x :
  (getQ (map (fun '(v, b) => (v, (b * s)%Q)) d) x == getQ d x * s)%Q.
Proof.
  unfold getQ, dict_get; induction d as [|[v b] d IH]; simpl.
  - ring.
  - destruct (str_eqb v x); [reflexivity|exact IH].
Qed.

Lemma keys_scaled (d : list (node * Q)) (s : Q) :
  map fst (map (fun '(v, b) => (v, (b * s)%Q)) d) = map fst d.
Proof. rewrite map_map; apply map_ext; intros [v b]; reflexivity. Qed.

(** A sample of the size of the population is the population, reordered. *)
Lemma full_sample_perm (l s : list node) :
  NoDup l -> NoDup s -> incl s l -> length s = length l -> Permutation s l.
Proof.
  intros Hl Hs Hi Hlen.
  apply NoDup_Permutation; auto.
  intros x; split; [apply Hi|].
  apply NoDup_length_incl; auto; lia.
Qed.

End BrandesFacts.

Module ConnectivityFacts.

Import Py Nx App PyFacts NxFacts GraphFacts BfsFacts.

Lemma is_connected_false g :
  graph_ok g -> disconnected g -> is_connected g = ret false.
Proof.
  intros Hok (u & v & Hu & Hv & Hn); unfold is_connected.
  destruct (nodes g) as [|first rest] eqn:E; [destruct Hu|].
  assert (Hf : In first (nodes g)) by (rewrite E; now left).
  unfold plain_bfs.
  destruct (@shortest_path_length_spec g first Hok Hf) as (d & Ed & Hnd & Hd).
  rewrite Ed; simpl; unfold ret; do 2 f_equal.
  apply Nat.eqb_neq; intros Hlen.
  assert (Hall : forall x, In x (nodes g) -> reachable g first x).
  { intros x Hx.
    assert (Hin : In x (map fst d)).
    { revert Hx; apply NoDup_length_incl; auto.
      - unfold nodes; rewrite !length_map in *; lia.
      - intros y Hy; apply in_map_iff in Hy as ([y' k] & <- & Hy).
        apply Hd in Hy as [Hw _]; eapply walk_in_nodes; eauto. }
    apply in_map_iff in Hin as ([x' k] & <- & Hin).
    apply Hd in Hin as [Hw _]; now exists k. }
  rewrite <- E in *.
  destruct (Hall u Hu) as [a Ha], (Hall v Hv) as [b Hb].
  apply Hn; exists (a + b).
  eapply walk_app; eauto; now apply walk_rev.
Qed.

Lemma disconnected_two_nodes g : disconnected g -> 2 <= length g.
Proof.
  intros (u & v & Hu & Hv & Hn).
  assert (u <> v) by (intros ->; apply Hn; exists 0; constructor).
  unfold nodes in *.
  destruct g as [|e1 [|e2 g]]; simpl in *; try tauto; [|lia].
  destruct Hu as [<-|[]], Hv as [<-|[]]; congruence.
Qed.

(** On a graph that is not connected the library call raises and the
    [except] branch stores the message. *)
Lemma avg_path_length_disconnected g :
  graph_ok g -> disconnected g ->
  average_shortest_path_length g
  = raise (NetworkXError "Graph is not connected.")
  /\ avg_path_length_entry g = Some (PathMessage "Graph is not connected").
Proof.
  intros Hok Hd; pose proof (disconnected_two_nodes Hd) as H2.
  assert (E : average_shortest_path_length g
              = raise (NetworkXError "Graph is not connected.")).
  { unfold average_shortest_path_length.
    replace (length g =? 0) with false by (symmetry; apply Nat.eqb_neq; lia).
    replace (length g =? 1) with false by (symmetry; apply Nat.eqb_neq; lia).
    now rewrite (is_connected_false Hok Hd). }
  split; auto; unfold avg_path_length_entry; now rewrite E.
Qed.

End ConnectivityFacts.

Module SumFacts.

Import Py Louvain.

Definition isum {A : Type} (U : list A) (f : A -> Z) : Z := sumZ (map f U).

Lemma isum_cons {A} (x : A) U f : isum (x :: U) f = (f x + isum U f)%Z.
Proof. reflexivity. Qed.

Lemma isum_ext {A} (U : list A) f g :
  (forall x, In x U -> f x = g x) -> isum U f = isum U g.
Proof.
  induction U as [|x U IH]; intros H; auto.
  rewrite !isum_cons, H, IH; auto; [intros; apply H; now right|now left].
Qed.

Lemma isum_plus {A} (U : list A) f g :
  isum U (fun x => f x + g x)%Z = (isum U f + isum U g)%Z.
Proof.
  induction U as [|x U IH]; auto; rewrite !isum_cons, IH; lia.
Qed.

Lemma isum_scale {A} (U : list A) a f :
  isum U (fun x => a * f x)%Z = (a * isum U f)%Z.
Proof.
  induction U as [|x U IH]; [unfold isum; simpl; lia|].
  rewrite !isum_cons, IH; lia.
Qed.

Lemma isum_zero {A} (U : list A) f :
  (forall x, In x U -> f x = 0%Z) -> isum U f = 0%Z.
Proof.
  induction U as [|x U IH]; intros H; auto.
  rewrite isum_cons, H, IH; auto; [intros; apply H; now right|now left].
Qed.

Lemma isum_le {A} (U : list A) f g :
  (forall x, In x U -> (f x <= g x)%Z) -> (isum U f <= isum U g)%Z.
Proof.
  induction U as [|x U IH]; intros H; [reflexivity|].
  rewrite !isum_cons.
  assert (f x <= g x)%Z by (apply H; now left).
  assert (isum U f <= isum U g)%Z by (apply IH; intros; apply H; now right).
  lia.
Qed.

Lemma isum_nonneg {A} (U : list A) f :
  (forall x, In x U -> (0 <= f x)%Z) -> (0 <= isum U f)%Z.
Proof.
  intros H; rewrite <- (isum_zero U (fun _ => 0%Z)) by auto.
  now apply isum_le.
Qed.

Lemma isum_swap {A B} (U : list A) (V : list B) (f : A -> B -> Z) :
  isum U (fun x => isum V (fun y => f x y))
  = isum V (fun y => isum U (fun x => f x y)).
Proof.
  induction U as [|x U IH].
  - symmetry; apply isum_zero; reflexivity.
  - rewrite isum_cons, IH, <- isum_plus; apply isum_ext; intros; reflexivity.
Qed.

Section Update.
Variable A : Type.
Variable eqb : A -> A -> bool.
Hypothesis eqb_eq : forall a b, eqb a b = true <-> a = b.

(** A sum whose terms change at one index only. *)
Lemma isum_update (U : list A) (i : A) f f' :
  NoDup U -> In i U -> (forall x, x <> i -> f' x = f x) ->
  isum U f' = (isum U f + f' i - f i)%Z.
Proof.
  induction U as [|x U IH]; intros Hn Hi H; [destruct Hi|].
  inversion Hn; subst; rewrite !isum_cons.
  destruct Hi as [->|Hi].
  - rewrite (isum_ext U f' f); [lia|].
    intros y Hy; apply H; intros ->; tauto.
  - rewrite IH, (H x); auto; [lia|intros ->; tauto].
Qed.

Lemma isum_single (U : list A) (i : A) (a : Z) :
  NoDup U -> In i U -> isum U (fun x => if eqb x i then a else 0%Z) = a.
Proof.
  intros Hn Hi.
  rewrite (@isum_update U i (fun _ => 0%Z)); auto.
  - rewrite isum_zero by auto.
    replace (eqb i i) with true by (symmetry; now apply eqb_eq); lia.
  - intros x Hx; destruct (eqb x i) eqn:E; auto.
    apply eqb_eq in E; congruence.
Qed.

(** At most one index of a list without repetition passes the test. *)
Lemma isum_pick (U : list A) (i : A) (g : A -> Z) (B : Z) :
  NoDup U -> (0 <= B)%Z -> (forall x, g x <= B)%Z ->
  (isum U (fun x => if eqb i x then g x else 0) <= B)%Z.
Proof.
  intros Hn HB Hg.
  assert (dec : forall a b : A, {a = b} + {a <> b}).
  { intros a b; destruct (eqb a b) eqn:E; [left; now apply eqb_eq|right].
    intros C; apply eqb_eq in C; congruence. }
  destruct (in_dec dec i U) as [Hin|Hout].
  - rewrite (@isum_update U i (fun _ => 0%Z)); auto.
    + rewrite isum_zero by auto.
      replace (eqb i i) with true by (symmetry; now apply eqb_eq).
      specialize (Hg i); lia.
    + intros x Hx'; destruct (eqb i x) eqn:E; auto.
      apply eqb_eq in E; congruence.
  - rewrite isum_zero; auto.
    intros x Hx; destruct (eqb i x) eqn:E; auto.
    apply eqb_eq in E; congruence.
Qed.

(** The values of a dictionary summed through the lookups of a list that
    holds its keys. *)
Lemma sum_values_lookup (U : list A) (P : A -> bool) (d : list (A * Z)) :
  NoDup U -> NoDup (map fst d) -> incl (map fst d) U ->
  sumZ (map snd (filter (fun kv => P (fst kv)) d))
  = isum U (fun u => if P u then dget_default eqb d u 0%Z else 0%Z).
Proof.
  intros HU; induction d as [|[k w] d IH]; intros Hd Hi.
  - symmetry; apply isum_zero; intros; destruct (P x); reflexivity.
  - inversion Hd; subst.
    assert (Hk : In k U) by (apply Hi; now left).
    assert (Hi' : incl (map fst d) U) by (intros x Hx; apply Hi; now right).
    rewrite (@isum_update U k
               (fun u => if P u then dget_default eqb d u 0%Z else 0%Z)); auto.
    + rewrite <- IH by auto.
      unfold dget_default at 1 2; simpl.
      replace (eqb k k) with true by (symmetry; now apply eqb_eq).
      replace (dget eqb d k) with (@None Z)
        by (symmetry; now apply (DictFacts.dget_None eqb eqb_eq)).
      destruct (P k); simpl; lia.
    + intros x Hx; unfold dget_default; simpl.
      destruct (eqb k x) eqn:E; auto.
      apply eqb_eq in E; congruence.
Qed.

End Update.

End SumFacts.

Module LoopFacts.

Import Py Louvain.

(** A loop on binary fuel ends when a measure falls with every round and
    the fuel exceeds the measure. *)
Section Iterate.
Variables S R : Type.
Variable step : S -> S + R.
Variable I : S -> Prop.
Variable P : R -> Prop.
Variable mu : S -> nat.
Hypothesis step_inl : forall s s', I s -> step s = inl s' -> I s' /\ mu s' < mu s.
Hypothesis step_inr : forall s r, I s -> step s = inr r -> P r.

Lemma iterate_progress p : forall s, I s ->
  match iterate p step s with
  | inl s' => I s' /\ mu s' + Pos.to_nat p <= mu s
  | inr r => P r
  end.
Proof.
  induction p as [p IH|p IH|]; intros s Hs; simpl.
  - destruct (step s) as [s1|r] eqn:E1; [|eapply step_inr; eauto].
    destruct (step_inl Hs E1) as [H1 M1].
    pose proof (IH s1 H1) as A1; destruct (iterate p step s1) as [s2|r]; auto.
    destruct A1 as [H2 M2].
    pose proof (IH s2 H2) as A2; destruct (iterate p step s2) as [s3|r]; auto.
    destruct A2 as [H3 M3]; split; auto; lia.
  - pose proof (IH s Hs) as A1; destruct (iterate p step s) as [s1|r]; auto.
    destruct A1 as [H1 M1].
    pose proof (IH s1 H1) as A2; destruct (iterate p step s1) as [s2|r]; auto.
    destruct A2 as [H2 M2]; split; auto; lia.
  - destruct (step s) as [s1|r] eqn:E1; [|eapply step_inr; eauto].
    destruct (step_inl Hs E1) as [H1 M1]; split; auto; lia.
Qed.

Lemma iterate_ends p s :
  I s -> mu s < Pos.to_nat p -> exists r, iterate p step s = inr r /\ P r.
Proof.
  intros Hs Hp; pose proof (iterate_progress p Hs) as H.
  destruct (iterate p step s) as [s'|r]; [destruct H; lia|eauto].
Qed.

End Iterate.

Lemma Qltb_lt x y : Qltb x y = true <-> (x < y)%Q.
Proof.
  unfold Qltb; rewrite negb_true_iff; split; intros H.
  - apply Qnot_le_lt; intros C; apply Qle_bool_iff in C; congruence.
  - destruct (Qle_bool y x) eqn:E; auto.
    apply Qle_bool_iff in E; exfalso; eapply Qlt_not_le; eauto.
Qed.

(** The rounds a modularity of [m] leaves before it reaches 1. *)
Definition rounds_left (m : Q) : nat := Z.to_nat (Qfloor ((1 - m) / MIN)).

Lemma MIN_pos : (0 < MIN)%Q.
Proof. reflexivity. Qed.

Lemma rounds_left_budget m : rounds_left m < Pos.to_nat (pass_budget m).
Proof.
  unfold rounds_left, pass_budget.
  pose proof (Qle_floor_ceiling ((1 - m) / MIN)) as H.
  rewrite <- Zle_Qle in H.
  destruct (Z_le_gt_dec (Qceiling ((1 - m) / MIN) + 1) 0) as [L|L].
  - replace (Z.to_nat (Qfloor ((1 - m) / MIN))) with 0 by lia.
    apply Pos2Nat.is_pos.
  - rewrite <- Z2Nat.inj_pos, Z2Pos.id by lia; lia.
Qed.

Lemma rounds_left_decrease m m' :
  (m' <= 1)%Q -> ~ (m' - m < MIN)%Q -> rounds_left m' < rounds_left m.
Proof.
  intros H1 Hd; apply Qnot_lt_le in Hd; unfold rounds_left.
  set (x := ((1 - m) / MIN)%Q); set (x' := ((1 - m') / MIN)%Q).
  assert (Hx : (x' + 1 <= x)%Q).
  { unfold x, x'.
    apply Qle_shift_div_l; [exact MIN_pos|].
    setoid_replace (((1 - m') / MIN + 1) * MIN)%Q with ((1 - m') + MIN)%Q
      by (field; intros C; discriminate).
    lra. }
  assert (H0 : (0 <= x')%Q).
  { unfold x'; apply Qle_shift_div_l; [exact MIN_pos|]; lra. }
  assert (F0 : (0 <= Qfloor x')%Z).
  { rewrite <- (Qfloor_Z 0); now apply Qfloor_resp_le. }
  assert (F1 : (Qfloor x' + 1 <= Qfloor x)%Z).
  { rewrite <- (Qfloor_Z (Qfloor x' + 1)); apply Qfloor_resp_le.
    rewrite inject_Z_plus; eapply Qle_trans; [|exact Hx].
    apply Qplus_le_l; apply Qfloor_le. }
  lia.
Qed.

End LoopFacts.

Module LouvainFacts.

Import Py Louvain DictFacts SumFacts LoopFacts.

Local Open Scope Z_scope.

Definition b2z (b : bool) : Z := if b then 1 else 0.

Lemma filter_all {A} (l : list A) : filter (fun _ => true) l = l.
Proof. induction l; simpl; congruence. Qed.

Section LevelFacts.
Variable K : Type.
Variable K_dec : forall a b : K, {a = b} + {a <> b}.

Lemma keqb_eq a b : keqb K_dec a b = true <-> a = b.
Proof. unfold keqb; destruct (K_dec a b); split; congruence. Qed.

Lemma keqb_refl a : keqb K_dec a a = true.
Proof. now apply keqb_eq. Qed.

(** The invariants of a weighted graph. *)
Record wok (g : WGraph K) : Prop := {
  wok_nodes : NoDup (wnodes g);
  wok_adj : forall v, NoDup (map fst (wadj K_dec g v));
  wok_closed : forall v u, In u (map fst (wadj K_dec g v)) -> In u (wnodes g);
  wok_sym : forall u v, edge_weight K_dec g u v = edge_weight K_dec g v u;
  wok_nonneg : forall u v, 0 <= edge_weight K_dec g u v
}.

Variable g : WGraph K.
Hypothesis Hg : wok g.

Let U := wnodes g.
Let W := edge_weight K_dec g.

Lemma W_nonneg u v : 0 <= W u v.
Proof. apply (wok_nonneg Hg). Qed.

Lemma W_sym u v : W u v = W v u.
Proof. apply (wok_sym Hg). Qed.

Lemma wdegree_sum v :
  wdegree K_dec g v = isum U (fun u => W v u) + W v v.
Proof.
  unfold wdegree; f_equal.
  rewrite <- (filter_all (wadj K_dec g v)) at 1.
  rewrite (sum_values_lookup (keqb K_dec) keqb_eq (U := U) (fun _ => true));
    [reflexivity|apply Hg|apply Hg|].
  intros u; apply (wok_closed Hg).
Qed.

Lemma wdegree_nonneg v : 0 <= wdegree K_dec g v.
Proof.
  rewrite wdegree_sum.
  assert (0 <= isum U (fun u => W v u))
    by (apply isum_nonneg; intros; apply W_nonneg).
  pose proof (W_nonneg v v); lia.
Qed.

(** The weight between a node and the other members of a community. *)
Definition Kc (com : K -> Z) (v : K) (c : Z) : Z :=
  isum U (fun u => if negb (keqb K_dec u v) && (com u =? c) then W v u else 0).

Definition DegC (com : K -> Z) (c : Z) : Z :=
  isum U (fun v => if com v =? c then wdegree K_dec g v else 0).

Definition IntC2 (com : K -> Z) (c : Z) : Z :=
  isum U (fun v => if com v =? c then 2 * W v v + Kc com v c else 0).

Lemma neighcom_fold v (s : Status K) c l : forall acc,
  getZ (fold_left
          (fun weights '(neighbor, edge_w) =>
             if keqb K_dec neighbor v then weights
             else dset Z.eqb weights (com_of K_dec s neighbor)
                       (getZ weights (com_of K_dec s neighbor) + edge_w))
          l acc) c
  = getZ acc c
    + sumZ (map snd (filter (fun kv => negb (keqb K_dec (fst kv) v)
                                       && (com_of K_dec s (fst kv) =? c)) l)).
Proof.
  induction l as [|[u w] l IH]; intros acc; simpl; [lia|].
  rewrite IH; destruct (keqb K_dec u v); simpl; [reflexivity|].
  unfold getZ at 1; rewrite (dget_default_dset _ Z.eqb_eq).
  destruct (com_of K_dec s u =? c) eqn:E; simpl; [|reflexivity].
  apply Z.eqb_eq in E; subst c; unfold getZ; lia.
Qed.

Lemma neighcom_get v s c :
  getZ (neighcom K_dec v g s) c = Kc (com_of K_dec s) v c.
Proof.
  unfold neighcom; rewrite neighcom_fold.
  rewrite (sum_values_lookup (keqb K_dec) keqb_eq (U := U)
             (fun u => negb (keqb K_dec u v) && (com_of K_dec s u =? c)));
    [reflexivity|apply Hg|apply Hg|].
  intros u; apply (wok_closed Hg).
Qed.

Lemma Kc_nonneg com v c : 0 <= Kc com v c.
Proof.
  apply isum_nonneg; intros u _.
  destruct (negb (keqb K_dec u v) && (com u =? c)); [apply W_nonneg|lia].
Qed.

(** A node with all the weight to its neighbours. *)
Lemma Kc_le_degree com v c :
  In v U -> 2 * W v v + Kc com v c <= wdegree K_dec g v.
Proof.
  intros Hv; rewrite wdegree_sum.
  assert (H : Kc com v c + W v v <= isum U (fun u => W v u)); [|lia].
  rewrite <- (@isum_single K (keqb K_dec) keqb_eq U v (W v v) (wok_nodes Hg) Hv).
  unfold Kc; rewrite <- isum_plus; apply isum_le; intros u _.
  destruct (keqb K_dec u v) eqn:E; simpl.
  - apply keqb_eq in E; subst u; lia.
  - pose proof (W_nonneg v u).
    destruct (com u =? c); lia.
Qed.

(** *** Moving one node *)

Section Reassign.
Variables (com com' : K -> Z) (i : K) (c1 : Z).
Hypothesis Hi : In i U.
Hypothesis Hcom : forall v, com' v = if keqb K_dec i v then c1 else com v.

Let delta (c : Z) : Z := b2z (c1 =? c) - b2z (com i =? c).

Lemma com'_self : com' i = c1.
Proof. now rewrite Hcom, keqb_refl. Qed.

Lemma com'_other v : v <> i -> com' v = com v.
Proof.
  intros H; rewrite Hcom; destruct (keqb K_dec i v) eqn:E; auto.
  apply keqb_eq in E; congruence.
Qed.

Lemma Kc_self c : Kc com' i c = Kc com i c.
Proof.
  apply isum_ext; intros u _.
  destruct (keqb K_dec u i) eqn:E; simpl; auto.
  rewrite com'_other; auto; intros ->; now rewrite keqb_refl in E.
Qed.

Lemma Kc_other v c : v <> i -> Kc com' v c = Kc com v c + delta c * W v i.
Proof.
  intros Hv; unfold Kc.
  rewrite (@isum_update K U i
             (fun u => if negb (keqb K_dec u v) && (com u =? c) then W v u else 0));
    [|apply Hg|exact Hi|].
  - replace (keqb K_dec i v) with false
      by (symmetry; destruct (keqb K_dec i v) eqn:E; auto;
          apply keqb_eq in E; congruence).
    rewrite com'_self; unfold delta, b2z; simpl.
    destruct (c1 =? c), (com i =? c); lia.
  - intros u Hu; now rewrite com'_other.
Qed.

Lemma DegC_reassign c :
  DegC com' c = DegC com c + delta c * wdegree K_dec g i.
Proof.
  unfold DegC.
  rewrite (@isum_update K U i
             (fun v => if com v =? c then wdegree K_dec g v else 0));
    [|apply Hg|exact Hi|].
  - rewrite com'_self; unfold delta, b2z; destruct (c1 =? c), (com i =? c); lia.
  - intros u Hu; now rewrite com'_other.
Qed.

Lemma IntC2_reassign c :
  IntC2 com' c = IntC2 com c + 2 * delta c * (W i i + Kc com i c).
Proof.
  unfold IntC2.
  (* the terms of the nodes other than [i] *)
  rewrite (isum_ext U
             (fun v => if com' v =? c then 2 * W v v + Kc com' v c else 0)
             (fun v => ((if keqb K_dec v i then 0
                         else (if com v =? c then 2 * W v v + Kc com v c else 0))
                        + delta c * (if negb (keqb K_dec v i) && (com v =? c)
                                     then W i v else 0))
                       + (if keqb K_dec v i
                          then b2z (c1 =? c) * (2 * W i i + Kc com i c) else 0))).
  2:{ intros v _; destruct (keqb K_dec v i) eqn:E; simpl.
      - apply keqb_eq in E; subst v.
        rewrite com'_self, Kc_self; unfold b2z; destruct (c1 =? c); lia.
      - assert (v <> i) by (intros ->; now rewrite keqb_refl in E).
        rewrite com'_other, Kc_other by auto.
        rewrite (W_sym i v).
        destruct (com v =? c); lia. }
  rewrite !isum_plus, isum_scale.
  rewrite (@isum_single K (keqb K_dec) keqb_eq U i _ (wok_nodes Hg) Hi).
  fold (Kc com i c).
  rewrite (@isum_update K U i
             (fun v => if com v =? c then 2 * W v v + Kc com v c else 0)
             (fun v => if keqb K_dec v i then 0
                       else if com v =? c then 2 * W v v + Kc com v c else 0));
    [|apply Hg|exact Hi|].
  - rewrite keqb_refl; unfold delta, b2z.
    destruct (c1 =? c), (com i =? c); lia.
  - intros v Hv; destruct (keqb K_dec v i) eqn:E; auto.
    apply keqb_eq in E; congruence.
Qed.

End Reassign.

(** *** The invariant of the status *)

Record inv (s : Status K) : Prop := {
  inv_keys : map fst (node2com s) = U;
  inv_gdeg : forall v, In v U -> getK K_dec (gdegrees s) v = wdegree K_dec g v;
  inv_loops : forall v, In v U -> getK K_dec (loops s) v = W v v;
  inv_tw : total_weight s = wsize K_dec g;
  inv_deg : forall c, getZ (degrees s) c = DegC (com_of K_dec s) c;
  inv_int : forall c, 2 * getZ (internals s) c = IntC2 (com_of K_dec s) c
}.

Lemma getZ_dset d k v k' :
  getZ (dset Z.eqb d k v) k' = if k =? k' then v else getZ d k'.
Proof. unfold getZ; now rewrite (dget_default_dset _ Z.eqb_eq). Qed.

Lemma com_of_reassign s i c0 c1 w0 w1 v :
  com_of K_dec (insert K_dec i c1 w1 (remove K_dec i c0 w0 s)) v
  = if keqb K_dec i v then c1 else com_of K_dec s v.
Proof.
  unfold com_of; simpl.
  rewrite !(dget_default_dset _ keqb_eq).
  destruct (keqb K_dec i v); reflexivity.
Qed.

Lemma reassign_inv s i c1 :
  inv s -> In i U ->
  inv (insert K_dec i c1 (getZ (neighcom K_dec i g s) c1)
         (remove K_dec i (com_of K_dec s i)
                 (getZ (neighcom K_dec i g s) (com_of K_dec s i)) s)).
Proof.
  intros I Hi.
  set (c0 := com_of K_dec s i).
  set (s2 := insert K_dec i c1 _ _).
  assert (Hcom : forall v, com_of K_dec s2 v
                           = if keqb K_dec i v then c1 else com_of K_dec s v)
    by (intros v; apply com_of_reassign).
  split.
  - simpl; rewrite !(keys_dset_old _ keqb_eq); try apply I.
    + rewrite (inv_keys I); exact Hi.
    + rewrite (keys_dset_old _ keqb_eq); rewrite (inv_keys I); exact Hi.
  - intros v Hv; simpl; now apply (inv_gdeg I).
  - intros v Hv; simpl; now apply (inv_loops I).
  - simpl; apply I.
  - intros c.
    rewrite (@DegC_reassign (com_of K_dec s) (com_of K_dec s2) i c1 Hi Hcom c).
    fold c0; unfold s2, insert, remove;
      cbn [internals degrees gdegrees loops]; rewrite !getZ_dset.
    rewrite (inv_gdeg I i Hi), <- !(inv_deg I); unfold b2z.
    destruct (Z.eqb_spec c1 c), (Z.eqb_spec c0 c), (Z.eqb_spec c0 c1);
      subst; try congruence; lia.
  - intros c.
    rewrite (@IntC2_reassign (com_of K_dec s) (com_of K_dec s2) i c1 Hi Hcom c).
    fold c0; unfold s2, insert, remove;
      cbn [internals degrees gdegrees loops]; rewrite !getZ_dset.
    rewrite (inv_loops I i Hi), !neighcom_get.
    pose proof (inv_int I c) as Ec; pose proof (inv_int I c0) as E0;
      pose proof (inv_int I c1) as E1; unfold b2z.
    destruct (Z.eqb_spec c1 c), (Z.eqb_spec c0 c), (Z.eqb_spec c0 c1);
      subst; try congruence; lia.
Qed.

Section Passes.
Variable rs : Type.
Variable shuffle : forall A : Type, rs -> list A -> list A * rs.
Hypothesis shuffle_perm :
  forall (A : Type) (r : rs) (l : list A), Permutation (fst (shuffle r l)) l.

Lemma move_node_inv s modified r node :
  inv s -> In node U ->
  inv (fst (fst (move_node K_dec shuffle g (s, modified, r) node))).
Proof.
  intros I Hn; unfold move_node.
  destruct (shuffle r (neighcom K_dec node g s)) as [items r'].
  destruct (fold_left _ items _) as [best_com incr]; simpl.
  now apply reassign_inv.
Qed.

Lemma move_nodes_inv order : forall acc,
  inv (fst (fst acc)) -> incl order U ->
  inv (fst (fst (fold_left (move_node K_dec shuffle g) order acc))).
Proof.
  induction order as [|n order IH]; intros [[s m] r] I Ho; simpl; auto.
  apply IH; [|intros x Hx; apply Ho; now right].
  apply move_node_inv; auto; apply Ho; now left.
Qed.

(** *** Modularity is at most 1 *)

Lemma fold_no_links (C : list Z) (q : Q) :
  fold_left (fun result _ => result) C q = q.
Proof. induction C; simpl; auto. Qed.

Lemma fold_links (links : Q) (I D : Z -> Z) (C : list Z) : (0 < links)%Q ->
  forall q,
    (fold_left
       (fun result c =>
          result + (inject_Z (I c) * resolution / links
                    - (inject_Z (D c) / (2 * links)) ^ 2))%Q
       C q
     <= q + inject_Z (isum C I) / links)%Q.
Proof.
  intros Hl; induction C as [|c C IH]; intros q; simpl.
  - unfold isum; simpl; unfold Qdiv; change (inject_Z 0) with 0%Q.
    setoid_replace (0 * / links)%Q with 0%Q by ring; lra.
  - eapply Qle_trans; [apply IH|].
    rewrite isum_cons, inject_Z_plus.
    pose proof (Qsqr_nonneg (inject_Z (D c) / (2 * links))) as Hs.
    unfold resolution.
    setoid_replace ((inject_Z (I c) + inject_Z (isum C I)) / links)%Q
      with (inject_Z (I c) / links + inject_Z (isum C I) / links)%Q
      by (field; lra).
    setoid_replace (inject_Z (I c) * 1 / links)%Q
      with (inject_Z (I c) / links)%Q by (field; lra).
    lra.
Qed.

Lemma internals_bound s :
  inv s ->
  2 * isum (communities s) (getZ (internals s))
  <= sumZ (map (wdegree K_dec g) U).
Proof.
  intros I.
  rewrite <- isum_scale.
  rewrite (isum_ext _ _ (fun c => IntC2 (com_of K_dec s) c))
    by (intros; apply (inv_int I)).
  unfold IntC2; rewrite isum_swap.
  apply isum_le; intros v Hv.
  apply (isum_pick Z.eqb Z.eqb_eq).
  - apply NoDup_nodup.
  - apply wdegree_nonneg.
  - intros c; now apply Kc_le_degree.
Qed.

Lemma modularity_le_1 s : inv s -> (modularity s <= 1)%Q.
Proof.
  intros I; unfold modularity.
  destruct (Qltb 0 (total_weight s)) eqn:E.
  - assert (Hl : (0 < total_weight s)%Q).
    { unfold Qltb in E; apply negb_true_iff in E.
      apply Qnot_le_lt; intros C; apply Qle_bool_iff in C; congruence. }
    eapply Qle_trans; [apply fold_links; exact Hl|].
    pose proof (internals_bound I) as B.
    rewrite (inv_tw I) in *; unfold wsize in *; fold U in Hl |- *.
    set (T := sumZ (map (wdegree K_dec g) U)) in *.
    set (X := isum (communities s) (getZ (internals s))) in *.
    assert (HX : (2 * inject_Z X <= inject_Z T)%Q).
    { change 2%Q with (inject_Z 2); rewrite <- inject_Z_mult, <- Zle_Qle; exact B. }
    rewrite Qplus_0_l; apply Qle_shift_div_r; [exact Hl|].
    clear - HX; revert HX.
    generalize (inject_Z X) as x, (inject_Z T) as t; intros x t HX.
    setoid_replace (1 * (t / 2))%Q with (t * (1 # 2))%Q by field; lra.
  - cbv iota; rewrite fold_no_links; lra.
Qed.

(** *** One level ends *)

Lemma one_pass_inv st :
  inv (fst (fst st)) ->
  match one_pass K_dec shuffle g st with
  | inl st' => inv (fst (fst st'))
               /\ (rounds_left (snd (fst st')) < rounds_left (snd (fst st)))%nat
  | inr (s', _) => inv s'
  end.
Proof.
  destruct st as [[s new_mod] r]; simpl; intros I; unfold one_pass.
  pose proof (shuffle_perm r (wnodes g)) as Hp.
  destruct (shuffle r (wnodes g)) as [order r1]; simpl in Hp.
  pose proof (@move_nodes_inv order (s, false, r1) I) as I'.
  destruct (fold_left _ order _) as [[s' modified] r2]; simpl in I'.
  assert (Hs' : inv s').
  { apply I'; intros x Hx; eapply Permutation_in; eauto. }
  destruct (Qltb (modularity s' - new_mod) MIN) eqn:E; auto.
  destruct modified; auto; simpl; split; auto.
  apply rounds_left_decrease; [now apply modularity_le_1|].
  intros C; apply Qltb_lt in C; congruence.
Qed.

Lemma one_level_total s r :
  inv s ->
  exists s' r', one_level K_dec shuffle g s r = Some (s', r') /\ inv s'.
Proof.
  intros I; unfold one_level.
  destruct (@iterate_ends _ _ (one_pass K_dec shuffle g)
              (fun st => inv (fst (fst st)))
              (fun res => inv (fst res))
              (fun st => rounds_left (snd (fst st))))
    with (p := pass_budget (modularity s)) (s := (s, modularity s, r))
    as ([s' r'] & E & Hs'); auto.
  - intros st st' Hst Est; pose proof (one_pass_inv st Hst) as H.
    now rewrite Est in H.
  - intros st [s1 r1] Hst Est; pose proof (one_pass_inv st Hst) as H.
    now rewrite Est in H.
  - apply rounds_left_budget.
  - rewrite E; eauto.
Qed.

End Passes.

(** *** The first status *)

(** The status while [init] has numbered the nodes of [processed] with the
    communities below [count]. *)
Record pinv (processed : list K) (count : Z) (s : Status K) : Prop := {
  p_keys : map fst (node2com s) = processed;
  p_range : forall v, In v processed -> 0 <= com_of K_dec s v < count;
  p_gdeg : forall v, In v processed ->
                     getK K_dec (gdegrees s) v = wdegree K_dec g v;
  p_loops : forall v, In v processed -> getK K_dec (loops s) v = W v v;
  p_tw : total_weight s = wsize K_dec g;
  p_deg : forall c, getZ (degrees s) c
                    = if 0 <=? c then DegC (com_of K_dec s) c else 0;
  p_int : forall c, 2 * getZ (internals s) c
                    = if 0 <=? c then IntC2 (com_of K_dec s) c else 0
}.

Lemma com_of_absent s v : ~ In v (map fst (node2com s)) -> com_of K_dec s v = -1.
Proof.
  intros H; unfold com_of, dget_default.
  now replace (dget (keqb K_dec) (node2com s) v) with (@None Z)
    by (symmetry; now apply (dget_None _ keqb_eq)).
Qed.

Lemma getK_dset d k v k' :
  getK K_dec (dset (keqb K_dec) d k v) k'
  = if keqb K_dec k k' then v else getK K_dec d k'.
Proof. unfold getK; now rewrite (dget_default_dset _ keqb_eq). Qed.

Lemma com_free processed count s c :
  pinv processed count s -> 0 <= count -> count <= c ->
  forall v, com_of K_dec s v <> c.
Proof.
  intros I H0 Hc v.
  destruct (in_dec K_dec v processed) as [Hin|Hout].
  - pose proof (p_range I v Hin); lia.
  - rewrite com_of_absent by (now rewrite (p_keys I)); lia.
Qed.

Lemma init_step_pinv processed count s v :
  pinv processed count s -> 0 <= count -> In v U -> ~ In v processed ->
  exists s',
    init_step K_dec g (Ok (s, count)) v = Ok (s', count + 1)
    /\ pinv (processed ++ [v]) (count + 1) s'.
Proof.
  intros I Hc Hv Hnew; unfold init_step; simpl.
  replace (wdegree K_dec g v <? 0) with false
    by (symmetry; apply Z.ltb_ge, wdegree_nonneg).
  eexists; split; [reflexivity|].
  set (s' := {| node2com := _ |}).
  assert (Hcom : forall u, com_of K_dec s' u
                           = if keqb K_dec v u then count else com_of K_dec s u).
  { intros u; unfold com_of, s'; simpl.
    now rewrite (dget_default_dset _ keqb_eq). }
  assert (Hv1 : com_of K_dec s v = -1)
    by (apply com_of_absent; now rewrite (p_keys I)).
  assert (Hfree : forall u, com_of K_dec s u <> count)
    by (apply (com_free I Hc); lia).
  assert (D0 : DegC (com_of K_dec s) count = 0).
  { apply isum_zero; intros u _.
    destruct (Z.eqb_spec (com_of K_dec s u) count); auto; now apply Hfree in e. }
  assert (K0 : Kc (com_of K_dec s) v count = 0).
  { apply isum_zero; intros u _.
    destruct (Z.eqb_spec (com_of K_dec s u) count);
      [now apply Hfree in e|now rewrite andb_false_r]. }
  assert (I0 : IntC2 (com_of K_dec s) count = 0).
  { apply isum_zero; intros u _.
    destruct (Z.eqb_spec (com_of K_dec s u) count); auto; now apply Hfree in e. }
  split.
  - unfold s'; simpl; unfold dset.
    fold (dset (keqb K_dec) (node2com s) v count).
    rewrite (keys_dset_new _ keqb_eq) by (now rewrite (p_keys I)).
    rewrite map_app, (p_keys I); reflexivity.
  - intros u Hu; rewrite Hcom.
    destruct (keqb K_dec v u) eqn:E; [lia|].
    apply in_app_iff in Hu as [Hu|[<-|[]]];
      [pose proof (p_range I u Hu); lia|now rewrite keqb_refl in E].
  - intros u Hu; unfold s'; simpl; rewrite getK_dset.
    destruct (keqb K_dec v u) eqn:E; [apply keqb_eq in E; now subst|].
    apply in_app_iff in Hu as [Hu|[<-|[]]];
      [now apply (p_gdeg I)|now rewrite keqb_refl in E].
  - intros u Hu; unfold s'; simpl; rewrite getK_dset.
    destruct (keqb K_dec v u) eqn:E; [apply keqb_eq in E; now subst|].
    apply in_app_iff in Hu as [Hu|[<-|[]]];
      [now apply (p_loops I)|now rewrite keqb_refl in E].
  - unfold s'; simpl; apply I.
  - intros c.
    rewrite (@DegC_reassign (com_of K_dec s) (com_of K_dec s') v count Hv Hcom c).
    unfold s'; cbn [degrees]; rewrite getZ_dset, (p_deg I).
    rewrite Hv1; unfold b2z.
    destruct (Z.leb_spec 0 c), (Z.eqb_spec count c), (Z.eqb_spec (-1) c);
      subst; lia.
  - intros c.
    rewrite (@IntC2_reassign (com_of K_dec s) (com_of K_dec s') v count Hv Hcom c).
    unfold s'; cbn [internals]; rewrite getZ_dset.
    pose proof (p_int I c) as Ic.
    rewrite Hv1; unfold b2z; fold (W v v).
    destruct (Z.leb_spec 0 c), (Z.eqb_spec count c), (Z.eqb_spec (-1) c);
      subst; lia.
Qed.

Lemma init_fold rest : forall processed count s,
  pinv processed count s -> 0 <= count ->
  NoDup (processed ++ rest) -> incl rest U ->
  exists s' count',
    fold_left (init_step K_dec g) rest (Ok (s, count)) = Ok (s', count')
    /\ pinv (processed ++ rest) count' s'.
Proof.
  induction rest as [|v rest IH]; intros processed count s I Hc Hn Hi.
  - exists s, count; rewrite app_nil_r; auto.
  - assert (Hv : ~ In v processed).
    { apply NoDup_remove_2 in Hn; intros C; apply Hn, in_app_iff; auto. }
    destruct (@init_step_pinv processed count s v I Hc) as (s1 & E1 & I1); auto.
    { apply Hi; now left. }
    cbn [fold_left]; rewrite E1.
    destruct (IH (processed ++ [v]) (count + 1) s1 I1) as (s' & count' & E & I');
      [lia|now rewrite <- app_assoc|intros x Hx; apply Hi; now right|].
    exists s', count'; rewrite <- app_assoc in I'; auto.
Qed.

Lemma init_inv : exists s, init K_dec g = Ok s /\ inv s.
Proof.
  unfold init.
  destruct (@init_fold U []  0
              {| node2com := []; total_weight := wsize K_dec g; degrees := [];
                 gdegrees := []; internals := []; loops := [] |})
    as (s & count & E & I).
  - split; try (simpl; tauto); try reflexivity.
    + intros c; unfold getZ, dget_default; cbn [degrees dget].
      destruct (Z.leb_spec 0 c); auto; symmetry; apply isum_zero; intros u _.
      rewrite com_of_absent by (simpl; tauto).
      destruct (Z.eqb_spec (-1) c); auto; lia.
    + intros c; unfold getZ, dget_default; cbn [internals dget].
      destruct (Z.leb_spec 0 c); auto; symmetry; apply isum_zero; intros u _.
      rewrite com_of_absent by (simpl; tauto).
      destruct (Z.eqb_spec (-1) c); auto; lia.
  - lia.
  - simpl; apply Hg.
  - apply incl_refl.
  - fold U; rewrite E; simpl in *; exists s; split; auto.
    split; try apply I.
    + intros c; rewrite (p_deg I).
      destruct (0 <=? c) eqn:Ec; auto; apply Z.leb_gt in Ec.
      symmetry; apply isum_zero; intros u Hu.
      pose proof (p_range I u Hu).
      destruct (Z.eqb_spec (com_of K_dec s u) c); auto; lia.
    + intros c; rewrite (p_int I).
      destruct (0 <=? c) eqn:Ec; auto; apply Z.leb_gt in Ec.
      symmetry; apply isum_zero; intros u Hu.
      pose proof (p_range I u Hu).
      destruct (Z.eqb_spec (com_of K_dec s u) c); auto; lia.
Qed.

End LevelFacts.

(** *** Building weighted graphs *)

Section WGraphFacts.
Variable K : Type.
Variable K_dec : forall a b : K, {a = b} + {a <> b}.

Local Abbreviation keq := (keqb K_dec).
Local Abbreviation keq_eq := (keqb_eq K_dec).

Lemma dget_app_last {V} (d : list (K * V)) k v k' :
  dget keq (d ++ [(k, v)]) k'
  = match dget keq d k' with
    | Some x => Some x
    | None => if keq k k' then Some v else None
    end.
Proof.
  induction d as [|[a x] d IH]; simpl; auto.
  destruct (keq a k'); auto.
Qed.

Lemma has_wnode (g : WGraph K) u :
  existsb (keq u) (wnodes g) = true <-> In u (wnodes g).
Proof.
  rewrite existsb_exists; split.
  - intros (x & Hx & E); apply keq_eq in E; now subst.
  - intros H; exists u; split; auto; apply keqb_refl.
Qed.

Lemma In_wnodes_ensure (g : WGraph K) u x :
  In x (wnodes (wensure_node K_dec g u)) <-> In x (wnodes g) \/ x = u.
Proof.
  unfold wensure_node; destruct (existsb (keq u) (wnodes g)) eqn:E.
  - apply has_wnode in E; intuition; now subst.
  - unfold wnodes; rewrite map_app, in_app_iff; simpl; intuition.
Qed.

Lemma NoDup_wnodes_ensure (g : WGraph K) u :
  NoDup (wnodes g) -> NoDup (wnodes (wensure_node K_dec g u)).
Proof.
  intros H; unfold wensure_node.
  destruct (existsb (keq u) (wnodes g)) eqn:E; auto.
  assert (~ In u (wnodes g)) by (intros C; apply has_wnode in C; congruence).
  unfold wnodes; rewrite map_app; apply NoDup_app; auto.
  - repeat constructor; simpl; tauto.
  - intros x Hx [<-|[]]; auto.
Qed.

Lemma wadj_ensure (g : WGraph K) u x :
  wadj K_dec (wensure_node K_dec g u) x = wadj K_dec g x.
Proof.
  unfold wensure_node; destruct (existsb (keq u) (wnodes g)); auto.
  unfold wadj, dget_default; rewrite dget_app_last.
  destruct (dget keq g x); auto; destruct (keq u x); auto.
Qed.

Lemma wnodes_set_adj (g : WGraph K) u v w :
  wnodes (wset_adj K_dec g u v w) = wnodes g.
Proof.
  unfold wnodes; induction g as [|[n x] g IH]; simpl; auto.
  destruct (keq n u); simpl; congruence.
Qed.

Lemma wadj_set_adj (g : WGraph K) u v w x :
  In u (wnodes g) ->
  wadj K_dec (wset_adj K_dec g u v w) x
  = if keq u x then dset keq (wadj K_dec g x) v w else wadj K_dec g x.
Proof.
  unfold wadj, dget_default.
  induction g as [|[n l] g IH]; simpl; [tauto|].
  intros Hu; destruct (keq n u) eqn:E; simpl.
  - apply keq_eq in E; subst n.
    destruct (keq u x); reflexivity.
  - destruct Hu as [->|Hu]; [now rewrite keqb_refl in E|].
    destruct (keq n x) eqn:F.
    + apply keq_eq in F; subst n; now rewrite (eqb_sym _ keq_eq), E.
    + now apply IH.
Qed.

Lemma wadj_add_edge (g : WGraph K) u v w x :
  wadj K_dec (wadd_edge K_dec g u v w) x
  = let a1 := if keq u x then dset keq (wadj K_dec g x) v w
              else wadj K_dec g x in
    if keq v x then dset keq a1 u w else a1.
Proof.
  unfold wadd_edge; cbv zeta.
  rewrite !wadj_set_adj, !wadj_ensure; auto.
  - apply In_wnodes_ensure; left; apply In_wnodes_ensure; now right.
  - rewrite wnodes_set_adj; apply In_wnodes_ensure; now right.
Qed.

Lemma edge_weight_add_edge (g : WGraph K) u v w x y :
  edge_weight K_dec (wadd_edge K_dec g u v w) x y
  = if (keq v x && keq u y) || (keq u x && keq v y) then w
    else edge_weight K_dec g x y.
Proof.
  unfold edge_weight; rewrite wadj_add_edge; cbv zeta.
  destruct (keq v x) eqn:A, (keq u x) eqn:B;
    rewrite ?(dget_default_dset _ keq_eq);
    destruct (keq u y) eqn:C, (keq v y) eqn:D; simpl; auto;
    repeat match goal with
           | H : keq _ _ = true |- _ => apply keq_eq in H
           end; subst; try congruence;
    rewrite ?keqb_refl in *; congruence.
Qed.

Lemma In_keys_add_edge (g : WGraph K) u v w x y :
  In y (map fst (wadj K_dec (wadd_edge K_dec g u v w) x)) ->
  In y (map fst (wadj K_dec g x)) \/ (x = u /\ y = v) \/ (x = v /\ y = u).
Proof.
  rewrite wadj_add_edge; cbv zeta.
  destruct (keq v x) eqn:A, (keq u x) eqn:B;
    rewrite ?(In_keys_dset _ keq_eq);
    repeat match goal with
           | H : keq _ _ = true |- _ => apply keq_eq in H
           end; subst; intuition.
Qed.

Lemma wok_nil : wok K_dec (@nil (K * list (K * Z))).
Proof.
  split; simpl; try (intros; constructor); try tauto;
    intros; unfold edge_weight, wadj, dget_default; simpl; lia.
Qed.

Lemma wok_ensure (g : WGraph K) u : wok K_dec g -> wok K_dec (wensure_node K_dec g u).
Proof.
  intros H; split.
  - apply NoDup_wnodes_ensure, H.
  - intros v; rewrite wadj_ensure; apply H.
  - intros v x; rewrite wadj_ensure, In_wnodes_ensure; left.
    eapply wok_closed; eauto.
  - intros x y; unfold edge_weight; rewrite !wadj_ensure; apply (wok_sym H).
  - intros x y; unfold edge_weight; rewrite !wadj_ensure; apply (wok_nonneg H).
Qed.

Lemma wok_add_edge (g : WGraph K) u v w :
  wok K_dec g -> 0 <= w -> wok K_dec (wadd_edge K_dec g u v w).
Proof.
  intros H Hw; split.
  - unfold wadd_edge; rewrite !wnodes_set_adj.
    do 2 apply NoDup_wnodes_ensure; apply H.
  - intros x; rewrite wadj_add_edge; cbv zeta.
    destruct (keq v x), (keq u x);
      repeat apply (NoDup_keys_dset _ keq_eq); apply H.
  - intros x y Hy; apply In_keys_add_edge in Hy.
    unfold wadd_edge; rewrite !wnodes_set_adj, !In_wnodes_ensure.
    destruct Hy as [Hy|[[-> ->]|[-> ->]]]; auto.
    left; left; eapply wok_closed; eauto.
  - intros x y; rewrite !edge_weight_add_edge.
    rewrite (wok_sym H x y).
    destruct (keq v x), (keq u y), (keq u x), (keq v y); reflexivity.
  - intros x y; rewrite edge_weight_add_edge.
    destruct ((keq v x && keq u y) || (keq u x && keq v y)); auto.
    apply (wok_nonneg H).
Qed.

Lemma In_wedges_from (g : WGraph K) : forall seen n nbr w,
  In (n, nbr, w) (wedges_from K_dec g seen) ->
  exists nbrs, In (n, nbrs) g /\ In (nbr, w) nbrs.
Proof.
  induction g as [|[m l] g IH]; intros seen n nbr w; simpl; [tauto|].
  rewrite in_app_iff, in_map_iff; intros [([a b] & E & Hin)|H].
  - inversion E; subst; apply filter_In in Hin as [Hin _]; eauto.
  - destruct (IH _ _ _ _ H) as (nbrs & H1 & H2); eauto.
Qed.

Lemma wedges_nonneg (g : WGraph K) n nbr w :
  wok K_dec g -> In (n, nbr, w) (wedges K_dec g) -> 0 <= w.
Proof.
  intros H Hin; apply In_wedges_from in Hin as (nbrs & H1 & H2).
  assert (E1 : wadj K_dec g n = nbrs).
  { unfold wadj, dget_default.
    rewrite (In_dget _ keq_eq g n nbrs); [reflexivity|apply H|exact H1]. }
  assert (E2 : edge_weight K_dec g n nbr = w).
  { unfold edge_weight, dget_default.
    rewrite (In_dget _ keq_eq (wadj K_dec g n) nbr w);
      [reflexivity|apply H|now rewrite E1]. }
  rewrite <- E2; apply (wok_nonneg H).
Qed.

End WGraphFacts.

Lemma induced_graph_wok {K} (K_dec : forall a b : K, {a = b} + {a <> b})
  (partition : list (K * Z)) (g : WGraph K) :
  wok K_dec g -> wok Z.eq_dec (induced_graph K_dec partition g).
Proof.
  intros H; unfold induced_graph.
  assert (H0 : wok Z.eq_dec
                 (fold_left (wensure_node Z.eq_dec) (map snd partition) [])).
  { generalize (map snd partition) as l.
    assert (Hn : wok Z.eq_dec []) by apply wok_nil.
    revert Hn; generalize (@nil (Z * list (Z * Z))) as ret.
    intros ret Hn l; revert ret Hn.
    induction l as [|c l IH]; simpl; auto.
    intros ret Hn; apply IH; now apply wok_ensure. }
  assert (He : forall e, In e (wedges K_dec g) -> 0 <= snd e).
  { intros [[n nbr] w] Hin; simpl; exact (@wedges_nonneg K K_dec g n nbr w H Hin). }
  revert H0 He.
  generalize (fold_left (wensure_node Z.eq_dec) (map snd partition) []) as ret.
  generalize (wedges K_dec g) as es.
  induction es as [|[[n nbr] w] es IH]; intros ret H0 He; simpl; auto.
  apply IH; [|intros e He'; apply He; now right].
  apply wok_add_edge; auto.
  pose proof (wok_nonneg H0
                (dget_default (keqb K_dec) partition n (-1))
                (dget_default (keqb K_dec) partition nbr (-1))).
  specialize (He (n, nbr, w) (or_introl eq_refl)); simpl in He; lia.
Qed.

(** *** The input graph, weighted *)

Lemma wnodes_of_graph (g : Nx.Graph) : wnodes (of_graph g) = Nx.nodes g.
Proof.
  unfold wnodes, of_graph, Nx.nodes; rewrite map_map.
  apply map_ext; intros [n l]; reflexivity.
Qed.

Lemma wadj_of_graph (g : Nx.Graph) v :
  wadj str_eq_dec (of_graph g) v = map (fun u => (u, 1)) (Nx.nbrs_of g v).
Proof.
  unfold wadj, dget_default, Nx.nbrs_of.
  induction g as [|[n l] g IH]; simpl; auto.
  change (keqb str_eq_dec n v) with (str_eqb n v).
  destruct (str_eqb n v); auto.
Qed.

Lemma edge_weight_of_graph (g : Nx.Graph) u v :
  edge_weight str_eq_dec (of_graph g) u v
  = if Nx.has_edge g u v then 1 else 0.
Proof.
  unfold edge_weight, Nx.has_edge, Nx.mem; rewrite wadj_of_graph.
  unfold dget_default.
  induction (Nx.nbrs_of g u) as [|x l IH]; simpl; auto.
  change (keqb str_eq_dec x v) with (str_eqb x v).
  rewrite (PyFacts.str_eqb_sym v x); destruct (str_eqb x v); auto.
Qed.

Lemma of_graph_wok (g : Nx.Graph) :
  GraphFacts.graph_ok g -> wok str_eq_dec (of_graph g).
Proof.
  intros H; split.
  - rewrite wnodes_of_graph; apply H.
  - intros v; rewrite wadj_of_graph, map_map; simpl; rewrite map_id.
    unfold Nx.nbrs_of; destruct (Nx.adj g v) eqn:E; [|constructor].
    eapply GraphFacts.ok_nbrs; eauto.
  - intros v u; rewrite wadj_of_graph, map_map, wnodes_of_graph; simpl.
    rewrite map_id; apply (GraphFacts.ok_closed H).
  - intros u v; rewrite !edge_weight_of_graph.
    destruct (Nx.has_edge g u v) eqn:A, (Nx.has_edge g v u) eqn:B; auto.
    + apply (GraphFacts.ok_sym H) in A; congruence.
    + apply (GraphFacts.ok_sym H) in B; congruence.
  - intros u v; rewrite edge_weight_of_graph; destruct (Nx.has_edge g u v); lia.
Qed.

(** *** The keys of the partitions *)

Lemma renumber_fold_keys {K} (K_dec : forall a b : K, {a = b} + {a <> b}) l :
  forall ret nv count,
    (forall kv, In kv l -> In (fst kv) (map fst ret)) ->
    map fst (fst (fst (fold_left (renumber_step K_dec) l (ret, nv, count))))
    = map fst ret.
Proof.
  induction l as [|[k v] l IH]; intros ret nv count H; simpl; auto.
  assert (Hk : In k (map fst ret)) by (apply (H (k, v)); now left).
  destruct (dget_default Z.eqb nv v (-1) =? -1);
    rewrite IH; rewrite ?(keys_dset_old _ (keqb_eq K_dec)); auto;
    intros kv Hkv; apply H; now right.
Qed.

Lemma renumber_keys {K} (K_dec : forall a b : K, {a = b} + {a <> b}) d :
  map fst (renumber K_dec d) = map fst d.
Proof.
  unfold renumber; apply renumber_fold_keys.
  intros kv Hkv; now apply in_map.
Qed.

Lemma partition_at_top_keys levels : forall first,
  map fst (partition_at_top first levels) = map fst first.
Proof.
  unfold partition_at_top.
  induction levels as [|level levels IH]; intros first; simpl; auto.
  rewrite IH, map_map; apply map_ext; intros [n c]; reflexivity.
Qed.

Lemma map_fst_combine {A B} (l : list A) (l' : list B) :
  (length l <= length l')%nat -> map fst (combine l l') = l.
Proof.
  revert l'; induction l as [|x l IH]; intros [|y l'] H; simpl in *;
    auto; try lia.
  f_equal; apply IH; lia.
Qed.

(** *** The whole run *)

Section Run.
Variable rs : Type.
Variable shuffle : forall A : Type, rs -> list A -> list A * rs.
Hypothesis shuffle_perm :
  forall (A : Type) (r : rs) (l : list A), Permutation (fst (shuffle r l)) l.

Definition level_ok (st : level_state rs) : Prop :=
  wok Z.eq_dec (current_graph st)
  /\ inv Z.eq_dec (current_graph st) (status st).

Lemma level_step_spec st :
  level_ok st ->
  match level_step shuffle st with
  | inl st' => level_ok st'
               /\ (rounds_left (cur_mod st') < rounds_left (cur_mod st))%nat
  | inr res => exists levels r, res = ret (levels, r)
  end.
Proof.
  intros [Hw Hi]; unfold level_step.
  destruct (one_level_total Hw shuffle shuffle_perm (rng st) Hi)
    as (s' & r & E & Hs').
  rewrite E.
  destruct (Qltb (modularity s' - cur_mod st) MIN) eqn:L; [eauto|].
  pose proof (@induced_graph_wok Z Z.eq_dec
                (renumber Z.eq_dec (node2com s')) (current_graph st) Hw) as Hw'.
  destruct (init_inv Hw') as (s'' & E'' & Hs'').
  rewrite E''; split; [split; assumption|simpl].
  apply rounds_left_decrease; [now apply (modularity_le_1 Hw)|].
  intros C; apply Qltb_lt in C; congruence.
Qed.

Lemma level_loop_total st :
  level_ok st ->
  exists levels r,
    iterate (pass_budget (cur_mod st)) (level_step shuffle) st
    = inr (ret (levels, r)).
Proof.
  intros H.
  destruct (@iterate_ends _ _ (level_step shuffle) level_ok
              (fun res => exists levels r, res = ret (levels, r))
              (fun st => rounds_left (cur_mod st)))
    with (p := pass_budget (cur_mod st)) (s := st)
    as (res & E & levels & r & ->); auto.
  - intros s s' Hs Es; pose proof (level_step_spec Hs) as X.
    now rewrite Es in X.
  - intros s res Hs Es; pose proof (level_step_spec Hs) as X.
    now rewrite Es in X.
  - apply rounds_left_budget.
  - eauto.
Qed.

Lemma generate_dendrogram_total (g : Nx.Graph) (r : rs) :
  GraphFacts.graph_ok g ->
  exists first levels r',
    generate_dendrogram shuffle g r = ret (first, levels, r')
    /\ map fst first = Nx.nodes g.
Proof.
  intros Hg; unfold generate_dendrogram.
  destruct (Nx.number_of_edges g =? 0)%nat.
  - do 3 eexists; split; [reflexivity|].
    apply map_fst_combine.
    unfold Nx.nodes; rewrite !length_map, length_seq; lia.
  - pose proof (of_graph_wok Hg) as Hw.
    destruct (init_inv Hw) as (s0 & E0 & I0); rewrite E0.
    destruct (one_level_total Hw shuffle shuffle_perm r I0)
      as (s1 & r1 & E1 & I1); rewrite E1.
    pose proof (@induced_graph_wok str str_eq_dec
                  (renumber str_eq_dec (node2com s1)) (of_graph g) Hw) as Hw1.
    destruct (init_inv Hw1) as (s2 & E2 & I2); rewrite E2.
    destruct (@level_loop_total
                {| current_graph := induced_graph str_eq_dec
                                      (renumber str_eq_dec (node2com s1))
                                      (of_graph g);
                   status := s2; cur_mod := modularity s1;
                   status_list := []; rng := r1 |})
      as (levels & r2 & E); [split; assumption|].
    simpl in E; rewrite E.
    do 3 eexists; split; [reflexivity|].
    rewrite renumber_keys, (inv_keys I1); apply wnodes_of_graph.
Qed.

(** The library call returns, and the partition has the nodes of the graph
    as its keys, in their order. *)
Lemma best_partition_total (g : Nx.Graph) (r : rs) :
  GraphFacts.graph_ok g ->
  exists partition r',
    best_partition shuffle g r = ret (partition, r')
    /\ map fst partition = Nx.nodes g.
Proof.
  intros Hg; unfold best_partition.
  destruct (generate_dendrogram_total r Hg) as (first & levels & r' & E & Hk).
  rewrite E; simpl; do 2 eexists; split; [reflexivity|].
  now rewrite partition_at_top_keys.
Qed.

End Run.

End LouvainFacts.


Module ReplayFacts.

Import Py Louvain DictFacts.

(** Two results of a loop that agree up to the state of the generator. *)
Definition same_sum {S R : Type} (eqS : S -> S -> Prop) (eqR : R -> R -> Prop)
  (x y : S + R) : Prop :=
  match x, y with
  | inl a, inl b => eqS a b
  | inr a, inr b => eqR a b
  | _, _ => False
  end.

Lemma iterate_same {S R} (eqS : S -> S -> Prop) (eqR : R -> R -> Prop)
  (step : S -> S + R) :
  (forall s1 s2, eqS s1 s2 -> same_sum eqS eqR (step s1) (step s2)) ->
  forall p s1 s2, eqS s1 s2 ->
    same_sum eqS eqR (iterate p step s1) (iterate p step s2).
Proof.
  intros Hstep p; induction p as [p IH|p IH|]; intros s1 s2 H; simpl.
  - pose proof (Hstep _ _ H) as A.
    destruct (step s1) as [a1|b1], (step s2) as [a2|b2]; simpl in A; try tauto.
    pose proof (IH _ _ A) as B.
    destruct (iterate p step a1) as [c1|d1], (iterate p step a2) as [c2|d2];
      simpl in B; try tauto.
    now apply IH.
  - pose proof (IH _ _ H) as B.
    destruct (iterate p step s1) as [c1|d1], (iterate p step s2) as [c2|d2];
      simpl in B; try tauto.
    now apply IH.
  - now apply Hstep.
Qed.

Section Replay.
Variable rs : Type.
Variable shuffle : forall A : Type, rs -> list A -> list A * rs.

(** The order a shuffle returns does not depend on the state of the
    generator: the scan order is fixed. *)
Hypothesis fixed_order :
  forall (A : Type) (r1 r2 : rs) (l : list A),
    fst (shuffle r1 l) = fst (shuffle r2 l).

Section OneLevel.
Variable K : Type.
Variable K_dec : forall a b : K, {a = b} + {a <> b}.
Variable g : WGraph K.

Lemma move_node_same s m r1 r2 node :
  fst (move_node K_dec shuffle g (s, m, r1) node)
  = fst (move_node K_dec shuffle g (s, m, r2) node).
Proof.
  unfold move_node.
  pose proof (fixed_order r1 r2 (neighcom K_dec node g s)) as E.
  destruct (shuffle r1 (neighcom K_dec node g s)) as [i1 q1].
  destruct (shuffle r2 (neighcom K_dec node g s)) as [i2 q2].
  simpl in E; subst i2.
  destruct (fold_left _ i1 _) as [best_com incr]; reflexivity.
Qed.

Lemma move_nodes_same order : forall s m r1 r2,
  fst (fold_left (move_node K_dec shuffle g) order (s, m, r1))
  = fst (fold_left (move_node K_dec shuffle g) order (s, m, r2)).
Proof.
  induction order as [|n order IH]; intros s m r1 r2; [reflexivity|].
  cbn [fold_left].
  pose proof (move_node_same s m r1 r2 n) as E.
  destruct (move_node K_dec shuffle g (s, m, r1) n) as [[s1 m1] q1].
  destruct (move_node K_dec shuffle g (s, m, r2) n) as [[s2 m2] q2].
  simpl in E; inversion E; subst; apply IH.
Qed.

Lemma one_pass_same s q r1 r2 :
  same_sum (fun a b : Status K * Q * rs => fst a = fst b)
           (fun a b : Status K * rs => fst a = fst b)
           (one_pass K_dec shuffle g (s, q, r1))
           (one_pass K_dec shuffle g (s, q, r2)).
Proof.
  unfold one_pass.
  pose proof (fixed_order r1 r2 (wnodes g)) as E.
  destruct (shuffle r1 (wnodes g)) as [o1 q1].
  destruct (shuffle r2 (wnodes g)) as [o2 q2].
  simpl in E; subst o2.
  pose proof (move_nodes_same o1 s false q1 q2) as F.
  destruct (fold_left _ o1 (s, false, q1)) as [[s1 m1] t1].
  destruct (fold_left _ o1 (s, false, q2)) as [[s2 m2] t2].
  simpl in F; inversion F; subst.
  destruct (Qltb (modularity s2 - q) MIN); simpl; auto.
  destruct m2; simpl; auto.
Qed.

Lemma one_level_same s r1 r2 :
  option_map fst (one_level K_dec shuffle g s r1)
  = option_map fst (one_level K_dec shuffle g s r2).
Proof.
  unfold one_level.
  pose proof (@iterate_same _ _
                (fun a b : Status K * Q * rs => fst a = fst b)
                (fun a b : Status K * rs => fst a = fst b)
                (one_pass K_dec shuffle g)) as H.
  specialize (H ltac:(intros [[a b] c] [[a' b'] c'] E; simpl in E;
                      inversion E; subst; apply one_pass_same)).
  specialize (H (pass_budget (modularity s))
                (s, modularity s, r1) (s, modularity s, r2) eq_refl).
  destruct (iterate _ _ (s, modularity s, r1)) as [x|[x rx]],
           (iterate _ _ (s, modularity s, r2)) as [y|[y ry]];
    simpl in H; try tauto; simpl; congruence.
Qed.

End OneLevel.

(** Two states of the level loop that differ in the generator only. *)
Definition same_level (a b : level_state rs) : Prop :=
  current_graph a = current_graph b /\ status a = status b
  /\ cur_mod a = cur_mod b /\ status_list a = status_list b.

Lemma level_step_same a b :
  same_level a b ->
  same_sum same_level
           (fun x y : comp (list (list (Z * Z)) * rs) => forget x = forget y)
           (level_step shuffle a) (level_step shuffle b).
Proof.
  intros (E1 & E2 & E3 & E4); unfold level_step.
  rewrite E1, E2, E3, E4.
  pose proof (one_level_same Z.eq_dec (current_graph b) (status b)
                             (rng a) (rng b)) as H.
  destruct (one_level Z.eq_dec shuffle (current_graph b) (status b) (rng a))
    as [[s1 q1]|],
    (one_level Z.eq_dec shuffle (current_graph b) (status b) (rng b))
    as [[s2 q2]|]; simpl in H; try discriminate; simpl; auto.
  inversion H; subst.
  destruct (Qltb (modularity s2 - cur_mod b) MIN); simpl; auto.
  destruct (init Z.eq_dec _); simpl; auto.
  repeat split.
Qed.

Lemma generate_dendrogram_same (graph : Nx.Graph) r1 r2 :
  forget (generate_dendrogram shuffle graph r1)
  = forget (generate_dendrogram shuffle graph r2).
Proof.
  unfold generate_dendrogram.
  destruct (Nx.number_of_edges graph =? 0); [reflexivity|].
  destruct (init str_eq_dec (of_graph graph)) as [s0|e]; [|reflexivity].
  pose proof (one_level_same str_eq_dec (of_graph graph) s0 r1 r2) as H.
  destruct (one_level str_eq_dec shuffle (of_graph graph) s0 r1) as [[s1 q1]|],
           (one_level str_eq_dec shuffle (of_graph graph) s0 r2) as [[s2 q2]|];
    simpl in H; try discriminate; auto.
  inversion H; subst.
  destruct (init Z.eq_dec _) as [s3|e]; [|reflexivity].
  match goal with
  | |- forget match iterate ?p ?f ?a with _ => _ end
       = forget match iterate ?p ?f ?b with _ => _ end =>
      pose proof (@iterate_same _ _ same_level
                    (fun x y : comp (list (list (Z * Z)) * rs) =>
                       forget x = forget y)
                    f level_step_same p a b) as X;
      specialize (X ltac:(repeat split));
      destruct (iterate p f a) as [x|x], (iterate p f b) as [y|y];
      simpl in X; try tauto; auto
  end.
  destruct x as [[[l1 t1]|e1]|], y as [[[l2 t2]|e2]|];
    simpl in X; try discriminate; auto; inversion X; subst; reflexivity.
Qed.

Lemma best_partition_same (graph : Nx.Graph) r1 r2 :
  forget (best_partition shuffle graph r1)
  = forget (best_partition shuffle graph r2).
Proof.
  unfold best_partition.
  pose proof (generate_dendrogram_same graph r1 r2) as H.
  destruct (generate_dendrogram shuffle graph r1) as [[[[f1 l1] t1]|e1]|],
           (generate_dendrogram shuffle graph r2) as [[[[f2 l2] t2]|e2]|];
    simpl in H; try discriminate; auto; inversion H; subst; reflexivity.
Qed.

End Replay.

(** The sizes of the communities add up to the number of nodes. *)
Lemma stats_step_sum (d : list (Z * nat)) (c : Z) :
  Nx.sum_nat (map snd (dset Z.eqb d c (dget_default Z.eqb d c 0 + 1)))
  = Nx.sum_nat (map snd d) + 1.
Proof.
  unfold dget_default; induction d as [|[k v] d IH]; simpl; auto.
  destruct (k =? c)%Z eqn:E; simpl; [lia|].
  rewrite IH; lia.
Qed.

Lemma community_stats_sum (p : list (str * Z)) :
  Nx.sum_nat (map snd (App.community_stats p)) = length p.
Proof.
  unfold App.community_stats.
  assert (H : forall l acc,
             Nx.sum_nat (map snd
               (fold_left (fun stats (item : str * Z) =>
                             let '(_, comm) := item in
                             dset Z.eqb stats comm
                                  (dget_default Z.eqb stats comm 0 + 1)) l acc))
             = Nx.sum_nat (map snd acc) + length l).
  { induction l as [|[n c] l IH]; intros acc; simpl; [lia|].
    rewrite IH, stats_step_sum; lia. }
  now rewrite H.
Qed.

End ReplayFacts.

Module ParseFacts.

Import Py Nx App PyFacts NxFacts.

Definition add_friends (user : node) (friends : list node) (g : Graph) : Graph :=
  fold_left (fun g friend => add_edge g user friend) friends g.

Lemma parse_line_split graph line :
  parse_line graph line =
  match split line with
  | [] => graph
  | user :: friends => add_friends user friends graph
  end.
Proof.
  unfold parse_line.
  destruct (is_empty (strip line)) eqn:E.
  - now rewrite (blank_line_no_token _ E).
  - destruct (split line); reflexivity.
Qed.

Lemma has_edge_add_friends user friends : forall g u v,
  has_edge (add_friends user friends g) u v = true <->
  has_edge g u v = true \/
  (u = user /\ In v friends) \/ (v = user /\ In u friends).
Proof.
  unfold add_friends.
  induction friends as [|f fs IH]; intros g u v; simpl.
  - tauto.
  - rewrite IH, has_edge_add_edge; intuition; subst; auto.
Qed.

(** Which line of the input puts the edge [u]-[v] in the graph. *)
Definition line_links (line : str) (u v : node) : Prop :=
  exists user friends,
    split line = user :: friends /\
    ((u = user /\ In v friends) \/ (v = user /\ In u friends)).

Lemma has_edge_parse_line g line u v :
  has_edge (parse_line g line) u v = true <->
  has_edge g u v = true \/ line_links line u v.
Proof.
  rewrite parse_line_split; unfold line_links.
  destruct (split line) as [|user friends].
  - split; auto; intros [H|(x & y & H & _)]; [auto|discriminate].
  - rewrite has_edge_add_friends; split.
    + intros [H|H]; auto; right; eauto.
    + intros [H|(x & y & H & H')]; auto; inversion H; subst; auto.
Qed.

Lemma has_edge_fold_parse lines : forall g u v,
  has_edge (fold_left parse_line lines g) u v = true <->
  has_edge g u v = true \/ exists line, In line lines /\ line_links line u v.
Proof.
  induction lines as [|l ls IH]; intros g u v; simpl.
  - split; auto; intros [H|(x & [] & _)]; auto.
  - rewrite IH, has_edge_parse_line; split.
    + intros [[H|H]|(x & H1 & H2)]; eauto.
    + intros [H|(x & [->|H1] & H2)]; eauto.
Qed.

Lemma has_edge_parse content u v :
  has_edge (parse_adjacency_list content) u v = true <->
  exists line, In line (split_newline content) /\ line_links line u v.
Proof.
  unfold parse_adjacency_list; rewrite has_edge_fold_parse.
  split; auto; intros [H|H]; auto; discriminate.
Qed.

(** No node of the graph has an empty adjacency entry. *)
Definition no_isolated (g : Graph) : Prop :=
  forall v l, adj g v = Some l -> l <> [].

Lemma no_isolated_add_edge g a b : no_isolated g -> no_isolated (add_edge g a b).
Proof.
  intros H v l; rewrite adj_add_edge; cbv zeta.
  destruct (str_eqb a v); [|destruct (str_eqb b v)].
  - intros E; inversion E; destruct (str_eqb b v); apply dict_set_not_nil.
  - intros E; inversion E; apply dict_set_not_nil.
  - apply H.
Qed.

Lemma no_isolated_parse_line g line : no_isolated g -> no_isolated (parse_line g line).
Proof.
  rewrite parse_line_split; destruct (split line) as [|user friends]; auto.
  unfold add_friends; revert g.
  induction friends as [|f fs IH]; simpl; auto.
  intros g H; apply IH, no_isolated_add_edge, H.
Qed.

Lemma no_isolated_parse content : no_isolated (parse_adjacency_list content).
Proof.
  unfold parse_adjacency_list.
  assert (H : no_isolated empty_graph) by (intros v l; discriminate).
  revert H; generalize empty_graph.
  induction (split_newline content) as [|l ls IH]; simpl; auto.
  intros g H; apply IH, no_isolated_parse_line, H.
Qed.

End ParseFacts.

Module MetricFacts.

Import Py Nx App PyFacts NxFacts GraphFacts SortFacts LoopFacts ParseFacts.

Lemma parse_built content : built (parse_adjacency_list content).
Proof.
  unfold parse_adjacency_list.
  assert (H : built empty_graph) by constructor.
  revert H; generalize empty_graph.
  induction (split_newline content) as [|l ls IH]; simpl; auto.
  intros g H; apply IH; rewrite parse_line_split.
  destruct (split l) as [|user friends]; auto.
  unfold add_friends; revert g H.
  induction friends as [|f fs IHf]; simpl; auto.
  intros g H; apply IHf; now constructor.
Qed.

(** *** Sums of rationals *)

Lemma fold_Qplus l : forall a, (fold_left Qplus l a == a + sum_Q l)%Q.
Proof.
  unfold sum_Q; induction l as [|x l IH]; intros a; simpl.
  - ring.
  - rewrite IH, (IH (0 + x)%Q); ring.
Qed.

Lemma sum_Q_cons x l : (sum_Q (x :: l) == x + sum_Q l)%Q.
Proof. unfold sum_Q at 1; simpl; rewrite fold_Qplus; ring. Qed.

(** *** The dictionary of recommendations *)

Lemma dict_setitem_new {V} (d : list (str * V)) k v :
  ~ In k (map fst d) -> dict_setitem d k v = d ++ [(k, v)].
Proof.
  unfold dict_setitem; induction d as [|[k' v'] d IH]; simpl; auto.
  intros H; destruct (str_eqb k' k) eqn:E.
  - apply str_eqb_eq in E; subst; tauto.
  - rewrite IH; auto.
Qed.

Definition scored (g : Graph) (q : node) (l : list node) : list (node * Q) :=
  map (fun c => (c, jaccard g q c)) (filter (is_candidate g q) l).

Lemma scored_keys g q l c : In c (map fst (scored g q l)) -> In c l.
Proof.
  unfold scored; rewrite map_map; simpl; rewrite map_id, filter_In; tauto.
Qed.

Lemma recommend_step_spec g q recs c :
  ~ In c (map fst recs) ->
  recommend_step g q (N_ g q) recs c = recs ++ scored g q [c].
Proof.
  intros H; unfold recommend_step, scored, is_candidate; simpl.
  destruct (str_eqb c q); simpl; [now rewrite app_nil_r|].
  destruct (has_edge g q c); simpl; [now rewrite app_nil_r|].
  fold (N_ g c).
  destruct (set_union (N_ g q) (N_ g c)) eqn:E; simpl.
  - now rewrite app_nil_r.
  - rewrite dict_setitem_new by auto.
    unfold jaccard; now rewrite E.
Qed.

Lemma recommend_fold g q l : forall recs,
  NoDup l -> (forall c, In c l -> ~ In c (map fst recs)) ->
  fold_left (recommend_step g q (N_ g q)) l recs = recs ++ scored g q l.
Proof.
  induction l as [|c l IH]; intros recs Hl Hd; simpl.
  - unfold scored; simpl; now rewrite app_nil_r.
  - inversion Hl; subst.
    rewrite recommend_step_spec by (apply Hd; now left).
    rewrite IH; auto.
    + rewrite <- app_assoc; f_equal.
      unfold scored; simpl; destruct (is_candidate g q c); reflexivity.
    + intros x Hx; rewrite map_app, in_app_iff; intros [C|C].
      * apply (Hd x); simpl; auto.
      * apply scored_keys in C; destruct C as [->|[]]; auto.
Qed.

Lemma recommend_friends_spec g q :
  NoDup (nodes g) -> In q (nodes g) ->
  recommend_friends g q =
  Ok (firstn 5 (sorted (@snd node Q) true (scored g q (nodes g)))).
Proof.
  intros Hn Hq; unfold recommend_friends, neighbors.
  apply In_nodes_adj in Hq as [l Hl]; rewrite Hl; simpl.
  replace (set_of l) with (N_ g q) by (unfold N_, nbrs_of; now rewrite Hl).
  rewrite recommend_fold; auto.
Qed.

Lemma filter_map_comm {A B} (f : A -> B) (p : B -> bool) l :
  filter p (map f l) = map f (filter (fun x => p (f x)) l).
Proof.
  induction l as [|x l IH]; simpl; auto.
  destruct (p (f x)); simpl; congruence.
Qed.

Lemma filter_filter {A} (p r : A -> bool) l :
  filter p (filter r l) = filter (fun x => r x && p x) l.
Proof.
  induction l as [|x l IH]; simpl; auto.
  destruct (r x); simpl; auto; destruct (p x); simpl; congruence.
Qed.

End MetricFacts.

Module FloatFacts.

Import Binary64.

Local Open Scope Z_scope.

Definition is_nan (x : float) : bool :=
  match x with S754_nan => true | _ => false end.

(** The place of a number on the line: its class, then exponent and
    mantissa, both turned round for the negative numbers. *)
Definition rank (x : float) : Z * Z * Z :=
  match x with
  | S754_nan => (0, 0, 0)
  | S754_zero _ => (0, 0, 0)
  | S754_infinity s => (if s then -2 else 2, 0, 0)
  | S754_finite s m e => if s then (-1, - e, Zneg m) else (1, e, Zpos m)
  end.

Definition lex (a b : Z * Z * Z) : comparison :=
  let '(a1, a2, a3) := a in
  let '(b1, b2, b3) := b in
  match a1 ?= b1 with
  | Eq => match a2 ?= b2 with Eq => a3 ?= b3 | c => c end
  | c => c
  end.

Definition lt3 (a b : Z * Z * Z) : Prop :=
  let '(a1, a2, a3) := a in
  let '(b1, b2, b3) := b in
  a1 < b1 \/ (a1 = b1 /\ (a2 < b2 \/ (a2 = b2 /\ a3 < b3))).

Lemma lex_spec a b : CompareSpec (a = b) (lt3 a b) (lt3 b a) (lex a b).
Proof.
  destruct a as [[a1 a2] a3], b as [[b1 b2] b3]; unfold lex, lt3.
  destruct (Z.compare_spec a1 b1); [|constructor; lia|constructor; lia].
  destruct (Z.compare_spec a2 b2); [|constructor; lia|constructor; lia].
  destruct (Z.compare_spec a3 b3); constructor; try lia; congruence.
Qed.

Lemma lt3_irrefl a : ~ lt3 a a.
Proof. destruct a as [[a1 a2] a3]; unfold lt3; lia. Qed.

Lemma lt3_trans a b c : lt3 a b -> lt3 b c -> lt3 a c.
Proof.
  destruct a as [[a1 a2] a3], b as [[b1 b2] b3], c as [[c1 c2] c3].
  unfold lt3; lia.
Qed.

Lemma compare_rank x y :
  is_nan x = false -> is_nan y = false ->
  SFcompare x y = Some (lex (rank x) (rank y)).
Proof.
  intros Hx Hy.
  destruct x as [s|s| |s m e]; try discriminate;
    destruct y as [s'|s'| |s' m' e']; try discriminate; clear Hx Hy.
  - reflexivity.
  - destruct s'; reflexivity.
  - destruct s'; reflexivity.
  - destruct s; reflexivity.
  - destruct s, s'; reflexivity.
  - destruct s, s'; reflexivity.
  - destruct s; reflexivity.
  - destruct s, s'; reflexivity.
  - destruct s, s'; cbn [SFcompare rank lex Z.compare]; try reflexivity.
    change (CompOpp (1 ?= 1)%positive) with Eq; cbv iota.
    rewrite Z.compare_opp, (Z.compare_antisym e e').
    destruct (e ?= e'); reflexivity.
Qed.

Lemma compare_some x y c :
  SFcompare x y = Some c -> is_nan x = false /\ is_nan y = false.
Proof. destruct x, y; simpl; intros H; auto; discriminate. Qed.

Lemma ltb_rank x y : ltb x y = true <->
  is_nan x = false /\ is_nan y = false /\ lt3 (rank x) (rank y).
Proof.
  unfold ltb, SFltb; split.
  - destruct (SFcompare x y) as [c|] eqn:E; [|discriminate].
    destruct (compare_some _ _ E) as [Hx Hy]; rewrite compare_rank in E by auto.
    inversion E; subst c; intros H; repeat split; auto.
    destruct (lex_spec (rank x) (rank y)); auto; discriminate.
  - intros (Hx & Hy & H); rewrite compare_rank by auto.
    destruct (lex_spec (rank x) (rank y)) as [E | L | L]; auto.
    + rewrite E in H; now apply lt3_irrefl in H.
    + destruct (@lt3_irrefl _ (@lt3_trans _ _ _ H L)).
Qed.

Lemma eqb_rank x y : eqb x y = true <->
  is_nan x = false /\ is_nan y = false /\ rank x = rank y.
Proof.
  unfold eqb, SFeqb; split.
  - destruct (SFcompare x y) as [c|] eqn:E; [|discriminate].
    destruct (compare_some _ _ E) as [Hx Hy]; rewrite compare_rank in E by auto.
    inversion E; subst c; intros H; repeat split; auto.
    destruct (lex_spec (rank x) (rank y)); auto; discriminate.
  - intros (Hx & Hy & H); rewrite compare_rank by auto.
    destruct (lex_spec (rank x) (rank y)) as [E | L | L]; auto;
      rewrite H in L; now apply lt3_irrefl in L.
Qed.

Lemma leb_rank x y : leb x y = true <->
  is_nan x = false /\ is_nan y = false
  /\ (lt3 (rank x) (rank y) \/ rank x = rank y).
Proof.
  unfold leb, SFleb; split.
  - destruct (SFcompare x y) as [c|] eqn:E; [|discriminate].
    destruct (compare_some _ _ E) as [Hx Hy]; rewrite compare_rank in E by auto.
    inversion E; subst c; intros H; repeat split; auto.
    destruct (lex_spec (rank x) (rank y)); auto; discriminate.
  - intros (Hx & Hy & H); rewrite compare_rank by auto.
    destruct (lex_spec (rank x) (rank y)) as [E | L | L]; auto.
    destruct H as [H | H].
    + destruct (@lt3_irrefl _ (@lt3_trans _ _ _ H L)).
    + rewrite H in L; now apply lt3_irrefl in L.
Qed.

(** On numbers, "not greater" is "less or equal". *)
Lemma not_ltb_leb x y :
  is_nan x = false -> is_nan y = false -> ltb y x = false -> leb x y = true.
Proof.
  intros Hx Hy H; apply leb_rank; repeat split; auto.
  destruct (lex_spec (rank x) (rank y)) as [E | L | L]; auto.
  assert (C : ltb y x = true) by (apply ltb_rank; auto).
  congruence.
Qed.

Lemma ltb_leb x y : ltb x y = true -> leb x y = true.
Proof.
  intros H; apply ltb_rank in H as (Hx & Hy & H); apply leb_rank; auto.
Qed.

Lemma leb_trans x y z : leb x y = true -> leb y z = true -> leb x z = true.
Proof.
  rewrite !leb_rank; intros (Hx & Hy & H1) (_ & Hz & H2); repeat split; auto.
  destruct H1 as [H1 | H1], H2 as [H2 | H2].
  - left; eapply lt3_trans; eauto.
  - left; now rewrite <- H2.
  - left; now rewrite H1.
  - right; congruence.
Qed.

Lemma ltb_not_same_key x y k :
  ltb y x = true -> eqb x k = true -> eqb y k = false.
Proof.
  intros H E; apply ltb_rank in H as (_ & _ & H).
  apply eqb_rank in E as (_ & _ & E).
  destruct (eqb y k) eqn:C; auto.
  apply eqb_rank in C as (_ & _ & C).
  rewrite E, <- C in H; now apply lt3_irrefl in H.
Qed.

(** *** The rounding of a quotient is a number *)

Lemma shr_1_nonneg mrs : 0 <= shr_m mrs -> 0 <= shr_m (shr_1 mrs).
Proof.
  destruct mrs as [m r s]; simpl.
  destruct m as [|p|p]; simpl; [lia| |lia].
  destruct p; simpl; lia.
Qed.

Lemma iter_shr_1_nonneg p : forall mrs,
  0 <= shr_m mrs -> 0 <= shr_m (iter_pos shr_1 p mrs).
Proof.
  induction p as [p IH|p IH|]; intros mrs H; simpl.
  - apply IH, IH, shr_1_nonneg, H.
  - apply IH, IH, H.
  - apply shr_1_nonneg, H.
Qed.

Lemma shr_fexp_nonneg m e l :
  0 <= m -> 0 <= shr_m (fst (shr_fexp prec emax m e l)).
Proof.
  intros H; unfold shr_fexp, shr.
  assert (H0 : 0 <= shr_m (shr_record_of_loc m l)).
  { destruct l as [|[]]; simpl; auto. }
  destruct (fexp prec emax (Zdigits2 m + e) - e); simpl; auto.
  now apply iter_shr_1_nonneg.
Qed.

Lemma round_nearest_even_nonneg m l : 0 <= m -> 0 <= round_nearest_even m l.
Proof.
  intros H; destruct l as [|[]]; simpl; auto; [|lia].
  destruct (Z.even m); lia.
Qed.

Lemma binary_round_aux_number sx mx ex lx :
  0 <= mx -> is_nan (binary_round_aux prec emax sx mx ex lx) = false.
Proof.
  intros H; unfold binary_round_aux.
  pose proof (shr_fexp_nonneg ex lx H) as H1.
  destruct (shr_fexp prec emax mx ex lx) as [mrs' e']; simpl in H1.
  pose proof (round_nearest_even_nonneg (loc_of_shr_record mrs') H1) as H2.
  pose proof (shr_fexp_nonneg e' loc_Exact H2) as H3.
  destruct (shr_fexp prec emax
              (round_nearest_even (shr_m mrs') (loc_of_shr_record mrs'))
              e' loc_Exact) as [mrs'' e'']; simpl in H3.
  destruct (shr_m mrs'') as [|p|p]; [reflexivity| |lia].
  destruct (e'' <=? emax - prec); reflexivity.
Qed.

Lemma div_core_nonneg m1 e1 m2 e2 :
  0 <= fst (fst (SFdiv_core_binary prec emax (Zpos m1) e1 (Zpos m2) e2)).
Proof.
  unfold SFdiv_core_binary.
  set (s := e1 - e2 - _).
  set (m' := match s with Zpos _ => Z.shiftl (Zpos m1) s | 0 => Zpos m1
                        | Zneg _ => 0 end).
  assert (Hm : 0 <= m').
  { unfold m'; destruct s; try lia; apply Z.shiftl_nonneg; lia. }
  pose proof (Z.div_pos m' (Zpos m2) Hm ltac:(lia)) as Hq.
  unfold Z.div in Hq.
  destruct (Z.div_eucl m' (Zpos m2)) as [q r]; simpl in *; exact Hq.
Qed.

(** [a / b] on integers is a number when [a] is not 0. *)
Lemma int_div_number (a b : nat) :
  (0 < a)%nat -> is_nan (int_div a b) = false.
Proof.
  intros Ha; unfold int_div, div, int_operand.
  destruct a as [|a]; [lia|]; destruct b as [|b]; [reflexivity|].
  unfold SFdiv.
  pose proof (div_core_nonneg (Pos.of_succ_nat a) 0 (Pos.of_succ_nat b) 0) as H.
  destruct (SFdiv_core_binary prec emax (Zpos (Pos.of_succ_nat a)) 0
                              (Zpos (Pos.of_succ_nat b)) 0) as [[mz ez] lz].
  now apply binary_round_aux_number.
Qed.

End FloatFacts.

Module RoundedFacts.

Import Py Nx Binary64 Rounded FloatFacts.

Section SortedFacts.
Variable A : Type.
Variable key : A -> float.

Let R (x y : A) : Prop := leb (key x) (key y) = true.

Lemma fsort_insert_perm x l : Permutation (insert_sorted key x l) (x :: l).
Proof.
  induction l as [|y l IH]; simpl; auto.
  destruct (before key x y); auto.
  rewrite IH; apply perm_swap.
Qed.

Lemma fsort_perm l : Permutation (sorted key l) l.
Proof.
  induction l as [|x l IH]; simpl; auto.
  rewrite fsort_insert_perm; auto.
Qed.

Lemma fsort_In x l : In x (sorted key l) <-> In x l.
Proof.
  split; apply Permutation_in; [|symmetry]; apply fsort_perm.
Qed.

Lemma fsort_insert_stable k x l :
  filter (has_key key k) (insert_sorted key x l)
  = filter (has_key key k) (x :: l).
Proof.
  induction l as [|y l IH]; simpl; auto.
  destruct (before key x y) eqn:B; [reflexivity|].
  simpl; rewrite IH; simpl.
  unfold before in B; apply negb_false_iff in B.
  destruct (has_key key k x) eqn:Hx; auto.
  unfold has_key in *.
  now rewrite (ltb_not_same_key _ _ _ B Hx).
Qed.

Lemma fsort_stable k l :
  filter (has_key key k) (sorted key l) = filter (has_key key k) l.
Proof.
  induction l as [|x l IH]; simpl; auto.
  rewrite fsort_insert_stable; simpl; now rewrite IH.
Qed.

Lemma fsort_insert_ordered x l :
  is_nan (key x) = false ->
  (forall y, In y l -> is_nan (key y) = false) ->
  StronglySorted R l -> StronglySorted R (insert_sorted key x l).
Proof.
  intros Hx; induction l as [|y l IH]; intros Hl S; simpl.
  - constructor; constructor.
  - inversion S as [|? ? S' Hy]; subst.
    assert (Hny : is_nan (key y) = false) by (apply Hl; now left).
    destruct (before key x y) eqn:B.
    + unfold before in B; apply negb_true_iff in B.
      assert (Rxy : R x y) by now apply not_ltb_leb.
      constructor; auto; constructor; auto.
      rewrite Forall_forall in *; intros z Hz.
      eapply leb_trans; [exact Rxy|now apply Hy].
    + unfold before in B; apply negb_false_iff in B.
      constructor.
      * apply IH; auto; intros z Hz; apply Hl; now right.
      * rewrite Forall_forall in *; intros z Hz.
        apply (Permutation_in _ (fsort_insert_perm x l)) in Hz.
        destruct Hz as [<- | Hz]; [now apply ltb_leb|now apply Hy].
Qed.

Lemma fsort_ordered l :
  (forall y, In y l -> is_nan (key y) = false) ->
  StronglySorted R (sorted key l).
Proof.
  induction l as [|x l IH]; intros Hl; simpl; [constructor|].
  apply fsort_insert_ordered.
  - apply Hl; now left.
  - intros y Hy; apply Hl; right; now apply fsort_In.
  - apply IH; intros y Hy; apply Hl; now right.
Qed.

End SortedFacts.

Lemma rounded_clustering_keys g : map fst (Rounded.clustering g) = nodes g.
Proof.
  unfold Rounded.clustering, nodes; rewrite map_map; apply map_ext.
  intros [v l]; now destruct (triangles_and_degree g v l).
Qed.

(** No clustering coefficient is a NaN. *)
Lemma rounded_clustering_number g v c :
  In (v, c) (Rounded.clustering g) -> is_nan c = false.
Proof.
  unfold Rounded.clustering; rewrite in_map_iff; intros ([u l] & E & _).
  destruct (triangles_and_degree g u l) as [d t]; inversion E; subst.
  destruct (t =? 0) eqn:T; [reflexivity|].
  apply Nat.eqb_neq in T; apply int_div_number; lia.
Qed.

Lemma rounded_degree_keys g : map fst (Rounded.degree_centrality g) = nodes g.
Proof.
  unfold Rounded.degree_centrality; destruct (length g <=? 1).
  - rewrite map_map; apply map_id.
  - unfold degree, nodes; rewrite !map_map; apply map_ext; now intros [v l].
Qed.

Section Average.
Variable sum : list float -> float.

Lemma rounded_average_returns g :
  nodes g <> [] -> exists avg, average_clustering sum g = Ok avg.
Proof.
  intros Hg; unfold average_clustering.
  destruct (map snd (Rounded.clustering g)) as [|c0 cs] eqn:E; [|eauto].
  exfalso; apply Hg; rewrite <- rounded_clustering_keys.
  apply (f_equal (@length float)) in E; rewrite length_map in E.
  destruct (Rounded.clustering g); [reflexivity|discriminate].
Qed.

(** What the detector returns, before the cut at ten. *)
Definition flagged_pairs (g : Graph) (t avg : float) : list (node * float) :=
  sorted (@snd node float)
         (filter (fun x => ltb (snd x) (mul t avg)) (Rounded.clustering g)).

Lemma detect_flagged g t avg :
  average_clustering sum g = Ok avg ->
  detect_potential_fake_accounts sum g t = Ok (firstn 10 (flagged_pairs g t avg)).
Proof.
  intros E; unfold detect_potential_fake_accounts; rewrite E.
  cbv beta iota delta [bind]; unfold flagged_pairs.
  replace (filter (fun '(_, coeff) => ltb coeff (mul t avg))
                  (Rounded.clustering g))
    with (filter (fun x : node * float => ltb (snd x) (mul t avg))
                 (Rounded.clustering g)); [reflexivity|].
  apply filter_ext; now intros [v c].
Qed.

End Average.

End RoundedFacts.

(* ===================================================================== *)
(** * The claims *)
(* ===================================================================== *)

Module Claims.

Import Py Nx App Louvain Examples PyFacts NxFacts GraphFacts SortFacts BfsFacts.
Import ClosenessFacts BrandesFacts ConnectivityFacts LoopFacts LouvainFacts ReplayFacts.
Import ParseFacts MetricFacts Binary64 FloatFacts RoundedFacts.

(** C3, as stated, fails: the one-line input ["A A"] makes [A] its own
    neighbour. *)
Lemma C3_self_loop_counterexample :
  In (lit "A") (nbrs_of (parse_adjacency_list (lit "A A")) (lit "A")).
Proof. vm_compute. left; reflexivity. Qed.

(** C3 (amended): the parser adds every pair it reads, so a node [v] is in its
    own neighbour set exactly when some input line has [v] as its first token
    and [v] again among the following tokens; the graph is free of self-loops
    if and only if no line repeats its first token. *)
Theorem C3_self_loop_iff_line_repeats_user (content : str) (v : node) :
  In v (nbrs_of (parse_adjacency_list content) v) <->
  exists line friends,
    In line (split_newline content) /\
    split line = v :: friends /\ In v friends.
Proof.
  rewrite <- mem_In; fold (has_edge (parse_adjacency_list content) v v).
  rewrite has_edge_parse; unfold line_links; split.
  - intros (line & Hl & user & friends & Hs & [[-> H]|[-> H]]); eauto.
  - intros (line & friends & Hl & Hs & H); eauto 8.
Qed.

(** C10: a line with a single token leaves the graph as it is, and every node
    of a parsed graph has a non-empty neighbour set. *)
Theorem C10_parsed_graph_has_no_isolated_node :
  (forall (graph : Graph) (line tok : str),
      split line = [tok] -> parse_line graph line = graph) /\
  (forall (content : str) (v : node),
      In v (nodes (parse_adjacency_list content)) ->
      exists l, adj (parse_adjacency_list content) v = Some l /\ l <> []).
Proof.
  split.
  - intros graph line tok H; rewrite parse_line_split, H; reflexivity.
  - intros content v H; apply In_nodes_adj in H as [l H].
    exists l; split; auto; eapply no_isolated_parse; eauto.
Qed.


(** C9, as stated, fails on two kinds of input.  On the one-node graph of
    the input ["A A"] the degree centrality of [A] is 1, so the left side is
    [1 * (1 - 1) = 0], while the graph has one edge.  On the path of four
    nodes the scores are the floats nearest to 1/3 and 2/3: their sum times
    3, taken exactly, is not 6, and added from left to right in floats it
    is 5.999999999999999. *)
Lemma C9_handshake_counterexample :
  ~ (sum_Q (map (fun x => value (snd x)) (Rounded.degree_centrality loop_graph))
     * (inject_Z (Z.of_nat (number_of_nodes loop_graph)) - 1)
     == 2 * inject_Z (Z.of_nat (number_of_edges loop_graph)))%Q
  /\ ~ (sum_Q (map (fun x => value (snd x))
                   (Rounded.degree_centrality short_path_graph))
        * (inject_Z (Z.of_nat (number_of_nodes short_path_graph)) - 1)
        == 2 * inject_Z (Z.of_nat (number_of_edges short_path_graph)))%Q
  /\ mul (left_sum (map snd (Rounded.degree_centrality short_path_graph)))
         (sub (of_int (Z.of_nat (number_of_nodes short_path_graph))) one)
     = S754_finite false 6755399441055743 (-50)
  /\ of_int (2 * Z.of_nat (number_of_edges short_path_graph))
     = S754_finite false 6755399441055744 (-50).
Proof.
  split; [vm_compute; discriminate|].
  split; [vm_compute; discriminate|].
  split; vm_compute; reflexivity.
Qed.

(** C9 (amended): in every graph the degrees of the nodes add up to
    [2 * |E|], a self-loop counting as one edge and as two in the degree of
    its node.  There is one degree centrality for each node; on a graph of
    two nodes or more it is the degree times the float
    [1.0 / (|V| - 1.0)], each operation rounded, and on a smaller graph it
    is 1. *)
Theorem C9_degree_centrality_handshake (g : Graph) :
  built g ->
  sum_nat (map snd (degree g)) = 2 * number_of_edges g
  /\ map fst (Rounded.degree_centrality g) = nodes g
  /\ (2 <= length g ->
      Rounded.degree_centrality g
      = map (fun '(v, d) =>
               (v, mul (of_int (Z.of_nat d))
                       (div one (sub (of_int (Z.of_nat (length g))) one))))
            (degree g))
  /\ (length g <= 1 ->
      forall v s, In (v, s) (Rounded.degree_centrality g) -> s = one).
Proof.
  intros Hb; split; [exact (handshake Hb)|].
  split; [apply rounded_degree_keys|split].
  - intros H; unfold Rounded.degree_centrality.
    replace (length g <=? 1) with false by (symmetry; apply Nat.leb_gt; lia).
    reflexivity.
  - intros H v s Hin; unfold Rounded.degree_centrality in Hin.
    replace (length g <=? 1) with true in Hin
      by (symmetry; now apply Nat.leb_le).
    apply in_map_iff in Hin as (x & E & _); congruence.
Qed.

Lemma C9_degree_centrality_handshake_witness :
  sum_nat (map snd (degree short_path_graph))
  = 2 * number_of_edges short_path_graph
  /\ map fst (Rounded.degree_centrality short_path_graph)
     = nodes short_path_graph
  /\ (2 <= length short_path_graph ->
      Rounded.degree_centrality short_path_graph
      = map (fun '(v, d) =>
               (v, mul (of_int (Z.of_nat d))
                       (div one (sub (of_int (Z.of_nat (length short_path_graph)))
                                     one))))
            (degree short_path_graph))
  /\ (length short_path_graph <= 1 ->
      forall v s, In (v, s) (Rounded.degree_centrality short_path_graph) ->
                  s = one).
Proof.
  apply (@C9_degree_centrality_handshake short_path_graph), parse_built.
Defined.

(** C5, as stated, fails on the tie-break: in the graph of the lines
    [Q X], [C X], [B X] the candidates [C] and [B] of [Q] have the same
    similarity and come out in the order the graph met them, [C] before
    [B], although [B] is the smaller identifier. *)
Lemma C5_tie_break_counterexample :
  recommend_friends fan_graph (lit "Q")
  = Ok [(lit "C", ratio 1 1); (lit "B", ratio 1 1)]
  /\ str_ltb (lit "B") (lit "C") = true.
Proof. split; vm_compute; reflexivity. Qed.

(** C5 (amended): for a query node [q] of the graph the result is the first
    five entries of a ranking that (1) holds exactly the nodes other than [q]
    that are not neighbours of [q] and whose neighbour-set union with [q] is
    not empty, each with its Jaccard similarity, (2) is in descending order of
    similarity and (3) keeps candidates of equal similarity in the order of
    the graph's node list (insertion order), not in identifier order. *)
Theorem C5_recommendations_ranked (g : Graph) (q : node) :
  built g -> In q (nodes g) ->
  exists ranking,
    recommend_friends g q = Ok (firstn 5 ranking)
    /\ length (firstn 5 ranking) <= 5
    /\ (forall c s,
          In (c, s) ranking <->
          In c (nodes g) /\ c <> q /\ ~ In c (nbrs_of g q)
          /\ set_union (N_ g q) (N_ g c) <> [] /\ s = jaccard g q c)
    /\ StronglySorted (fun x y => (snd y <= snd x)%Q) ranking
    /\ (forall k,
          map fst (filter (has_key (@snd node Q) k) ranking)
          = filter (fun c => is_candidate g q c
               && Qeq_bool (jaccard g q c) k) (nodes g)).
Proof.
  intros Hb Hq; pose proof (ok_nodes (built_ok Hb)) as Hn.
  exists (sorted (@snd node Q) true (scored g q (nodes g))).
  split; [now apply recommend_friends_spec|].
  split; [apply firstn_le_length|].
  split; [|split].
  - intros c s; rewrite sorted_In; unfold scored.
    rewrite in_map_iff; split.
    + intros (x & E & Hx); inversion E; subst.
      apply filter_In in Hx as [Hx Hc]; unfold is_candidate in Hc.
      apply andb_true_iff in Hc as [Hc H3].
      apply andb_true_iff in Hc as [H1 H2].
      apply negb_true_iff in H1, H2.
      apply str_eqb_neq in H1; apply mem_false in H2.
      repeat split; auto.
      intros C; rewrite C in H3; discriminate.
    + intros (H1 & H2 & H3 & H4 & ->); exists c; split; auto.
      apply filter_In; split; auto; unfold is_candidate.
      apply str_eqb_neq in H2; apply mem_false in H3.
      unfold has_edge; rewrite H2, H3; simpl.
      destruct (set_union (N_ g q) (N_ g c)); [congruence|reflexivity].
  - eapply StronglySorted_weaken; [|apply sorted_StronglySorted].
    intros x y H; simpl in H; now apply Qle_bool_iff.
  - intros k; rewrite sorted_stable; unfold scored.
    rewrite filter_map_comm, map_map; simpl; rewrite map_id.
    apply filter_filter.
Qed.

Lemma C5_recommendations_ranked_witness :
  exists ranking,
    recommend_friends fan_graph (lit "Q") = Ok (firstn 5 ranking)
    /\ length (firstn 5 ranking) <= 5
    /\ (forall c s,
          In (c, s) ranking <->
          In c (nodes fan_graph) /\ c <> lit "Q"
          /\ ~ In c (nbrs_of fan_graph (lit "Q"))
          /\ set_union (N_ fan_graph (lit "Q")) (N_ fan_graph c) <> []
          /\ s = jaccard fan_graph (lit "Q") c)
    /\ StronglySorted (fun x y => (snd y <= snd x)%Q) ranking
    /\ (forall k,
          map fst (filter (has_key (@snd node Q) k) ranking)
          = filter (fun c => is_candidate fan_graph (lit "Q") c
               && Qeq_bool (jaccard fan_graph (lit "Q") c) k)
     (nodes fan_graph)).
Proof.
  apply (@C5_recommendations_ranked fan_graph (lit "Q")).
  - apply parse_built.
  - vm_compute; auto.
Defined.

(** C6: on a graph with at least one node the detector returns the first
    ten entries of the list of flagged pairs.  That list holds the pairs
    (node, clustering coefficient) whose coefficient is strictly below [t]
    times the average clustering, each as often as the clustering
    dictionary holds it, in ascending order of coefficient, pairs of equal
    coefficient in the order of the dictionary.  Coefficients, average,
    product and comparison are those of binary64. *)
Theorem C6_fake_accounts_flagged (sum : list float -> float) (g : Graph)
  (t : float) :
  nodes g <> [] ->
  exists avg flagged,
    Rounded.average_clustering sum g = Ok avg
    /\ Rounded.detect_potential_fake_accounts sum g t = Ok (firstn 10 flagged)
    /\ length (firstn 10 flagged) <= 10
    /\ Permutation flagged
         (filter (fun x => ltb (snd x) (mul t avg)) (Rounded.clustering g))
    /\ (forall n c,
          In (n, c) flagged <->
          In (n, c) (Rounded.clustering g) /\ ltb c (mul t avg) = true)
    /\ (forall n c, In (n, c) (firstn 10 flagged) -> ltb c (mul t avg) = true)
    /\ StronglySorted (fun x y => leb (snd x) (snd y) = true) flagged
    /\ (forall k,
          filter (Rounded.has_key (@snd node float) k) flagged
          = filter (fun x => ltb (snd x) (mul t avg)
                             && Rounded.has_key (@snd node float) k x)
                   (Rounded.clustering g)).
Proof.
  intros Hg; destruct (@rounded_average_returns sum g Hg) as [avg Ea].
  exists avg, (flagged_pairs g t avg).
  assert (Hin : forall n c,
             In (n, c) (flagged_pairs g t avg) <->
             In (n, c) (Rounded.clustering g) /\ ltb c (mul t avg) = true).
  { intros n c; unfold flagged_pairs; rewrite fsort_In, filter_In; reflexivity. }
  split; [exact Ea|].
  split; [now apply detect_flagged|].
  split; [apply firstn_le_length|].
  split; [apply fsort_perm|].
  split; [exact Hin|].
  split; [intros n c H; apply In_firstn in H; now apply Hin in H|].
  split.
  - apply fsort_ordered; intros [n c] H.
    apply filter_In in H as [H _]; simpl.
    eapply rounded_clustering_number; eauto.
  - intros k; unfold flagged_pairs; rewrite fsort_stable.
    apply filter_filter.
Qed.

Lemma C6_fake_accounts_flagged_witness :
  exists avg flagged,
    Rounded.average_clustering left_sum club_graph = Ok avg
    /\ Rounded.detect_potential_fake_accounts left_sum club_graph
         Rounded.default_threshold = Ok (firstn 10 flagged)
    /\ length (firstn 10 flagged) <= 10
    /\ Permutation flagged
         (filter (fun x => ltb (snd x) (mul Rounded.default_threshold avg))
                 (Rounded.clustering club_graph))
    /\ (forall n c,
          In (n, c) flagged <->
          In (n, c) (Rounded.clustering club_graph)
          /\ ltb c (mul Rounded.default_threshold avg) = true)
    /\ (forall n c, In (n, c) (firstn 10 flagged) ->
                    ltb c (mul Rounded.default_threshold avg) = true)
    /\ StronglySorted (fun x y => leb (snd x) (snd y) = true) flagged
    /\ (forall k,
          filter (Rounded.has_key (@snd node float) k) flagged
          = filter (fun x => ltb (snd x) (mul Rounded.default_threshold avg)
                             && Rounded.has_key (@snd node float) k x)
                   (Rounded.clustering club_graph)).
Proof.
  apply (@C6_fake_accounts_flagged left_sum club_graph Rounded.default_threshold).
  vm_compute; discriminate.
Defined.






Lemma star_graph_built n : built (star_graph n).
Proof.
  unfold star_graph.
  assert (H : built empty_graph) by constructor.
  revert H; generalize empty_graph.
  induction (seq 0 n) as [|i l IH]; simpl; auto.
  intros g H; apply IH; now constructor.
Qed.

Lemma prefix_sample_ok : sampler_ok prefix_sample.
Proof.
  intros l k Hl Hk; unfold prefix_sample; split; [|split].
  - now apply firstn_length_le.
  - rewrite <- (firstn_skipn k l) in Hl; now apply NoDup_app_remove_r in Hl.
  - intros x; apply In_firstn.
Qed.

(** C1, as stated, fails on graphs of more than 100 nodes: [calculate_metrics]
    has no sample-size parameter, and on the star with 100 leaves (101 nodes)
    only 100 nodes are sources of the search, whatever the random generator
    picks. *)
Lemma C1_sampling_counterexample :
  built (star_graph 100)
  /\ length (nodes (star_graph 100)) = 101
  /\ forall sample,
       sampler_ok sample ->
       length (bfs_sources sample (star_graph 100)
                           (Some (betweenness_k (star_graph 100)))) = 100.
Proof.
  split; [apply star_graph_built|split; [vm_compute; reflexivity|]].
  intros sample Hs; unfold bfs_sources.
  replace (betweenness_k (star_graph 100)) with 100 by (vm_compute; reflexivity).
  apply Hs.
  - apply (ok_nodes (built_ok (star_graph_built 100))).
  - replace (length (nodes (star_graph 100))) with 101
      by (vm_compute; reflexivity).
    lia.
Qed.

Lemma missing_source (sources all : list node) :
  NoDup all -> length sources < length all ->
  exists v, In v all /\ ~ In v sources.
Proof.
  intros Hn Hl.
  destruct (forallb (fun v => mem v sources) all) eqn:F.
  - exfalso; rewrite forallb_forall in F.
    assert (Hi : incl all sources) by (intros v Hv; now apply mem_In, F).
    apply NoDup_incl_length in Hi; auto; lia.
  - assert (F' : existsb (fun v => negb (mem v sources)) all = true).
    { clear - F; induction all as [|a l IH]; simpl in *; [discriminate|].
      destruct (mem a sources); simpl in *; auto. }
    apply existsb_exists in F' as (v & Hv & Hm).
    exists v; split; auto; apply negb_true_iff in Hm.
    now apply mem_false in Hm.
Qed.

Lemma betweenness_keys (g : Graph) (sources : list node) :
  graph_ok g -> incl sources (nodes g) ->
  map fst (fold_left (add_source g) sources (map (fun v => (v, 0%Q)) (nodes g)))
  = nodes g.
Proof.
  intros Hok Hi.
  assert (K : forall l b, incl l (nodes g) -> map fst b = nodes g ->
                          map fst (fold_left (add_source g) l b) = nodes g).
  { induction l as [|s l IH]; intros b Hl Hb; simpl; auto.
    apply IH; [intros x Hx; apply Hl; now right|].
    unfold add_source, accumulate_basic, search.
    destruct (@sssp_total g s Hok (Hl s (or_introl eq_refl))) as (st & E & HS).
    rewrite E.
    assert (A : forall ws b0 delta, incl ws (map fst b0) ->
                map fst (fst (fold_left
                                (accumulate_step (st_P st) (st_sigma st) s)
                                ws (b0, delta))) = map fst b0).
    { induction ws as [|w ws IHw]; intros b0 delta Hw; cbn [fold_left]; auto.
      assert (Kw : map fst (fst (accumulate_step (st_P st) (st_sigma st) s
                                                 (b0, delta) w)) = map fst b0).
      { unfold accumulate_step; destruct (str_eqb w s); simpl; auto.
        unfold dict_setitem.
        rewrite (DictFacts.keys_dset_old _ str_eqb_eq); auto.
        apply Hw; now left. }
      destruct (accumulate_step (st_P st) (st_sigma st) s (b0, delta) w)
        as [b' delta'].
      simpl in Kw; rewrite IHw; auto.
      rewrite Kw; intros x Hx; apply Hw; now right. }
    rewrite A; auto.
    rewrite Hb; intros x Hx; apply HS; now apply in_rev. }
  apply K; auto; rewrite map_map; apply map_id.
Qed.

(** C1 (amended): [calculate_metrics] takes no sample size and always calls
    the library with [k = min(100, |V|)]: the search starts from [k] nodes
    drawn by the random generator, no node twice.  On a graph of at most 100
    nodes these are all the nodes, in the order the generator gives them; on
    a larger graph they are 100 nodes and some node is not a source.  The
    call returns a score for each node. *)
Theorem C1_betweenness_sources (sample : list node -> nat -> list node)
  (g : Graph) :
  sampler_ok sample -> built g ->
  let sources := bfs_sources sample g (Some (betweenness_k g)) in
  betweenness_k g = Nat.min 100 (length g)
  /\ sources = sample (nodes g) (Nat.min 100 (length g))
  /\ length sources = Nat.min 100 (length g)
  /\ NoDup sources /\ incl sources (nodes g)
  /\ (length g <= 100 -> Permutation sources (nodes g))
  /\ (100 < length g ->
      length sources = 100 /\ exists v, In v (nodes g) /\ ~ In v sources)
  /\ exists scores,
       betweenness_centrality sample g (Some (betweenness_k g)) = Some scores
       /\ map fst scores = nodes g.
Proof.
  intros Hs Hb sources; pose proof (built_ok Hb) as Hok.
  assert (Hlen : length (nodes g) = length g) by (unfold nodes; apply length_map).
  assert (Hk : betweenness_k g = Nat.min 100 (length g))
    by (unfold betweenness_k; now rewrite Hlen).
  destruct (Hs (nodes g) (betweenness_k g) (ok_nodes Hok)) as (S1 & S2 & S3);
    [rewrite Hk, Hlen; apply Nat.le_min_r|].
  fold (bfs_sources sample g (Some (betweenness_k g))) in S1, S2, S3.
  fold sources in S1, S2, S3.
  split; [exact Hk|].
  split; [unfold sources, bfs_sources; now rewrite Hk|].
  split; [congruence|]. split; [exact S2|]. split; [exact S3|].
  split; [|split].
  - intros Hn; apply full_sample_perm; auto; [apply Hok|].
    rewrite S1, Hk, Hlen; apply Nat.min_r; exact Hn.
  - intros Hn.
    assert (L : length sources = 100) by (rewrite S1, Hk; apply Nat.min_l; lia).
    split; [exact L|].
    apply missing_source; [apply Hok|]; rewrite L, Hlen; exact Hn.
  - unfold betweenness_centrality; fold sources.
    rewrite (betweenness_from_total Hok _ S3).
    eexists; split; [reflexivity|].
    unfold rescale; destruct (length g <=? 2); cbv zeta;
      rewrite ?keys_scaled; now apply betweenness_keys.
Qed.

Lemma C1_betweenness_sources_witness :
  let g := star_graph 100 in
  let sources := bfs_sources prefix_sample g (Some (betweenness_k g)) in
  betweenness_k g = Nat.min 100 (length g)
  /\ sources = prefix_sample (nodes g) (Nat.min 100 (length g))
  /\ length sources = Nat.min 100 (length g)
  /\ NoDup sources /\ incl sources (nodes g)
  /\ (length g <= 100 -> Permutation sources (nodes g))
  /\ (100 < length g ->
      length sources = 100 /\ exists v, In v (nodes g) /\ ~ In v sources)
  /\ exists scores,
       betweenness_centrality prefix_sample g (Some (betweenness_k g))
       = Some scores
       /\ map fst scores = nodes g.
Proof.
  apply (@C1_betweenness_sources prefix_sample (star_graph 100)).
  - exact prefix_sample_ok.
  - apply star_graph_built.
Defined.


Lemma coin_shuffle_perm (A : Type) (r : list nat) (l : list A) :
  Permutation (fst (coin_shuffle r l)) l.
Proof.
  unfold coin_shuffle; destruct r as [|n r]; simpl; auto.
  destruct (Nat.odd n); auto; symmetry; apply Permutation_rev.
Qed.


(** C4, as stated, fails: on the path A-B-C-D-E two runs in a row, the second
    from the state the generator is left in by the first, put [C] with [D]
    and [E] the first time and with [A] and [B] the second time. *)
Lemma C4_two_runs_counterexample :
  (forall (A : Type) r (l : list A), Permutation (fst (coin_shuffle r l)) l)
  /\ exists p1 r1 p2 r2,
       best_partition coin_shuffle path_graph [0; 0; 0; 0; 0; 0; 0; 0; 0; 1]
       = ret (p1, r1)
       /\ best_partition coin_shuffle path_graph r1 = ret (p2, r2)
       /\ dict_get p1 (lit "C") = dict_get p1 (lit "D")
       /\ dict_get p1 (lit "C") <> dict_get p1 (lit "B")
       /\ dict_get p2 (lit "C") = dict_get p2 (lit "B")
       /\ dict_get p2 (lit "C") <> dict_get p2 (lit "D").
Proof.
  split; [exact coin_shuffle_perm|].
  eexists; eexists; eexists; eexists.
  split; [vm_compute; reflexivity|].
  split; [vm_compute; reflexivity|].
  vm_compute; repeat split; discriminate.
Qed.

(** C4 (amended): community detection is reproducible when the scan order is
    fixed: if the lists the generator's shuffle returns do not depend on the
    generator's state, two runs on the same graph return the identical
    partition, whatever state each run starts in. *)
Theorem C4_partition_replayable (rs : Type)
  (shuffle : forall A : Type, rs -> list A -> list A * rs)
  (g : Graph) (r1 r2 : rs) :
  (forall (A : Type) (q1 q2 : rs) (l : list A),
      fst (shuffle A q1 l) = fst (shuffle A q2 l)) ->
  forget (best_partition shuffle g r1) = forget (best_partition shuffle g r2).
Proof. intros H; now apply best_partition_same. Qed.

Lemma C4_partition_replayable_witness :
  forget (best_partition no_shuffle path_graph [])
  = forget (best_partition no_shuffle path_graph [1]).
Proof.
  apply (@C4_partition_replayable (list nat) no_shuffle path_graph [] [1]).
  intros A q1 q2 l; reflexivity.
Defined.

(** C8: the community-detection call returns, and its partition has the
    nodes of the graph as its keys, each once: every node has exactly one
    label, and the community sizes counted from the partition add up to the
    number of nodes. *)
Theorem C8_partition_total (rs : Type)
  (shuffle : forall A : Type, rs -> list A -> list A * rs)
  (g : Graph) (r : rs) :
  (forall (A : Type) (q : rs) (l : list A), Permutation (fst (shuffle A q l)) l) ->
  built g ->
  exists partition r',
    best_partition shuffle g r = ret (partition, r')
    /\ map fst partition = nodes g
    /\ NoDup (map fst partition)
    /\ (forall v, In v (nodes g) ->
                  exists c, In (v, c) partition
                            /\ forall c', In (v, c') partition -> c' = c)
    /\ sum_nat (map snd (community_stats partition)) = length (nodes g).
Proof.
  intros Hs Hb; pose proof (built_ok Hb) as Hok.
  destruct (@best_partition_total rs shuffle Hs g r Hok) as (p & r' & E & Hk).
  exists p, r'; split; [exact E|split; [exact Hk|]].
  assert (Hn : NoDup (map fst p)) by (rewrite Hk; apply Hok).
  split; [exact Hn|split].
  - intros v Hv; rewrite <- Hk in Hv.
    apply in_map_iff in Hv as ([v' c] & E' & Hin); simpl in E'; subst v'.
    exists c; split; auto; intros c' Hin'.
    pose proof (@DictFacts.In_dget _ _ str_eqb str_eqb_eq p v c Hn Hin) as E1.
    pose proof (@DictFacts.In_dget _ _ str_eqb str_eqb_eq p v c' Hn Hin') as E2.
    congruence.
  - rewrite community_stats_sum, <- Hk; now rewrite length_map.
Qed.

Lemma C8_partition_total_witness :
  exists partition r',
    best_partition coin_shuffle fan_graph [] = ret (partition, r')
    /\ map fst partition = nodes fan_graph
    /\ NoDup (map fst partition)
    /\ (forall v, In v (nodes fan_graph) ->
                  exists c, In (v, c) partition
                            /\ forall c', In (v, c') partition -> c' = c)
    /\ sum_nat (map snd (community_stats partition)) = length (nodes fan_graph).
Proof.
  apply (@C8_partition_total (list nat) coin_shuffle fan_graph []).
  - exact coin_shuffle_perm.
  - apply parse_built.
Defined.

Lemma pairs_graph_disconnected : disconnected pairs_graph.
Proof.
  exists (lit "A"), (lit "C").
  split; [vm_compute; auto|split; [vm_compute; auto 6|]].
  intros [k H].
  assert (G : forall a v j, walk pairs_graph a v j -> a = lit "A" ->
                            v = lit "A" \/ v = lit "B").
  { intros a v j W; induction W as [v|u v w j W IH Hw]; intros ->; auto.
    destruct (IH eq_refl) as [-> | ->]; vm_compute in Hw;
      destruct Hw as [<- | []]; auto. }
  destruct (G _ _ _ H eq_refl); discriminate.
Qed.

(** C7: on a graph that is not connected the library call for the average
    path length raises, the [except] branch stores the message
    ["Graph is not connected"], and [calculate_metrics] returns the whole
    dictionary. *)
Theorem C7_disconnected_message (sample : list node -> nat -> list node)
  (rs : Type) (shuffle : forall A : Type, rs -> list A -> list A * rs)
  (g : Graph) (r : rs) :
  sampler_ok sample ->
  (forall (A : Type) (q : rs) (l : list A), Permutation (fst (shuffle A q l)) l) ->
  built g -> disconnected g ->
  exists m r',
    calculate_metrics sample shuffle g r = ret (Metrics m, r')
    /\ average_shortest_path_length g
       = raise (NetworkXError "Graph is not connected.")
    /\ m_avg_path_length m = PathMessage "Graph is not connected"
    /\ m_degree_centrality m = degree_centrality g
    /\ betweenness_centrality sample g (Some (betweenness_k g))
       = Some (m_betweenness_centrality m)
    /\ closeness_centrality g = ret (m_closeness_centrality m)
    /\ map fst (m_communities m) = nodes g
    /\ m_clustering_coefficients m = clustering g
    /\ m_density m = density g.
Proof.
  intros Hsm Hsh Hb Hd; pose proof (built_ok Hb) as Hok.
  destruct (avg_path_length_disconnected Hok Hd) as [Ea Ee].
  pose proof (disconnected_two_nodes Hd) as H2.
  unfold calculate_metrics.
  replace (length (nodes g) =? 0) with false
    by (symmetry; apply Nat.eqb_neq; unfold nodes; rewrite length_map; lia).
  assert (Hsrc : incl (bfs_sources sample g (Some (betweenness_k g))) (nodes g)).
  { apply Hsm; [apply Hok|apply Nat.le_min_r]. }
  unfold betweenness_centrality at 1.
  rewrite (betweenness_from_total Hok _ Hsrc).
  destruct (@closeness_fold g Hok (nodes g) []) as (cc & Ec & Hk & _);
    [apply incl_refl|].
  unfold closeness_centrality at 1; rewrite Ec; simpl.
  destruct (@best_partition_total rs shuffle Hsh g r Hok) as (p & r' & Ep & Hp).
  rewrite Ep; simpl; rewrite Ee.
  eexists; eexists; split; [reflexivity|]; simpl.
  repeat split; auto.
  unfold betweenness_centrality; now rewrite (betweenness_from_total Hok _ Hsrc).
Qed.

Lemma C7_disconnected_message_witness :
  exists m r',
    calculate_metrics prefix_sample coin_shuffle pairs_graph [] = ret (Metrics m, r')
    /\ average_shortest_path_length pairs_graph
       = raise (NetworkXError "Graph is not connected.")
    /\ m_avg_path_length m = PathMessage "Graph is not connected"
    /\ m_degree_centrality m = degree_centrality pairs_graph
    /\ betweenness_centrality prefix_sample pairs_graph
                              (Some (betweenness_k pairs_graph))
       = Some (m_betweenness_centrality m)
    /\ closeness_centrality pairs_graph = ret (m_closeness_centrality m)
    /\ map fst (m_communities m) = nodes pairs_graph
    /\ m_clustering_coefficients m = clustering pairs_graph
    /\ m_density m = density pairs_graph.
Proof.
  apply (@C7_disconnected_message prefix_sample (list nat) coin_shuffle
                                   pairs_graph []).
  - exact prefix_sample_ok.
  - exact coin_shuffle_perm.
  - apply parse_built.
  - exact pairs_graph_disconnected.
Defined.

End Claims.

(* ===================================================================== *)
(** * Further properties of the program *)
(* ===================================================================== *)

Module ParserFacts.

Import Py Nx App Examples PyFacts NxFacts GraphFacts ParseFacts MetricFacts.

Lemma In_nodes_add_friends user friends : forall g v,
  In v (nodes (add_friends user friends g)) <->
  In v (nodes g) \/ (friends <> [] /\ (v = user \/ In v friends)).
Proof.
  unfold add_friends; induction friends as [|f fs IH]; intros g v; simpl.
  - intuition congruence.
  - rewrite IH, In_nodes_add_edge; split.
    + intros [[H | [H | H]] | [Hf H]]; auto.
      * right; split; [discriminate|auto].
      * right; split; [discriminate|auto].
      * right; split; [discriminate|tauto].
    + intros [H | [_ [H | [H | H]]]]; auto.
      destruct fs as [|f' fs']; [destruct H|].
      right; split; [discriminate|auto].
Qed.

Definition line_names (line : str) (v : node) : Prop :=
  exists user friends,
    split line = user :: friends /\ friends <> [] /\ In v (user :: friends).

Lemma In_nodes_parse_line g line v :
  In v (nodes (parse_line g line)) <-> In v (nodes g) \/ line_names line v.
Proof.
  rewrite parse_line_split; unfold line_names.
  destruct (split line) as [|user friends].
  - split; auto; intros [H | (u & f & E & _)]; auto; discriminate.
  - rewrite In_nodes_add_friends; split.
    + intros [H | [Hf H]]; auto; right; exists user, friends; simpl.
      repeat split; auto; destruct H; auto.
    + intros [H | (u & f & E & Hf & H)]; auto; inversion E; subst.
      right; split; auto; destruct H; auto.
Qed.

Lemma In_nodes_fold_parse lines : forall g v,
  In v (nodes (fold_left parse_line lines g)) <->
  In v (nodes g) \/ exists line, In line lines /\ line_names line v.
Proof.
  induction lines as [|l ls IH]; intros g v; simpl.
  - split; auto; intros [H | (x & [] & _)]; auto.
  - rewrite IH, In_nodes_parse_line; split.
    + intros [[H | H] | (x & Hx & H)]; eauto 6.
    + intros [H | (x & [<- | Hx] & H)]; eauto 6.
Qed.

Lemma set_adj_present g u v l :
  adj g u = Some l -> mem v l = true -> set_adj g u v = g.
Proof.
  induction g as [|[n nb] g IH]; simpl; auto.
  destruct (str_eqb n u) eqn:E; intros H Hm.
  - inversion H; subst; unfold dict_set; now rewrite Hm.
  - now rewrite IH.
Qed.

Lemma add_edge_present g u v :
  graph_ok g -> has_edge g u v = true -> add_edge g u v = g.
Proof.
  intros Hok H; pose proof (ok_sym Hok _ _ H) as H'.
  unfold has_edge, nbrs_of in H, H'.
  destruct (adj g u) as [lu|] eqn:Eu; [|discriminate].
  destruct (adj g v) as [lv|] eqn:Ev; [|discriminate].
  unfold add_edge, ensure_node.
  replace (has_node g u) with true
    by (symmetry; apply has_node_adj; congruence).
  replace (has_node g v) with true
    by (symmetry; apply has_node_adj; congruence).
  rewrite (set_adj_present g u v Eu H).
  now rewrite (set_adj_present g v u Ev H').
Qed.

Lemma add_friends_present user friends g :
  graph_ok g -> (forall f, In f friends -> has_edge g user f = true) ->
  add_friends user friends g = g.
Proof.
  unfold add_friends; intros Hok; induction friends as [|f fs IH]; simpl; auto.
  intros H; rewrite add_edge_present; auto.
Qed.

Lemma parse_line_present g line :
  graph_ok g ->
  (forall user friends f, split line = user :: friends -> In f friends ->
                          has_edge g user f = true) ->
  parse_line g line = g.
Proof.
  intros Hok H; rewrite parse_line_split.
  destruct (split line) as [|user friends] eqn:E; auto.
  apply add_friends_present; eauto.
Qed.

Lemma fold_parse_present lines g :
  graph_ok g ->
  (forall line user friends f,
      In line lines -> split line = user :: friends -> In f friends ->
      has_edge g user f = true) ->
  fold_left parse_line lines g = g.
Proof.
  intros Hok; induction lines as [|l ls IH]; simpl; auto.
  intros H; rewrite parse_line_present; eauto.
Qed.

Lemma split_newline_not_nil s : split_newline s <> [].
Proof.
  induction s as [|c s IH]; simpl; [discriminate|].
  destruct (c =? 10)%N; [discriminate|].
  destruct (split_newline s); discriminate.
Qed.

Lemma split_newline_app a b :
  split_newline (a ++ 10%N :: b) = split_newline a ++ split_newline b.
Proof.
  induction a as [|c a IH]; simpl; auto.
  destruct (c =? 10)%N; [now rewrite IH|].
  rewrite IH; pose proof (split_newline_not_nil a) as H.
  destruct (split_newline a); [congruence|reflexivity].
Qed.

Lemma words_leading ws s :
  forallb isspace ws = true -> words [] (ws ++ s) = words [] s.
Proof.
  induction ws as [|c ws IH]; simpl; auto.
  intros H; apply andb_true_iff in H as [Hc H]; rewrite Hc; auto.
Qed.

Lemma words_trailing ws : forallb isspace ws = true ->
  forall s tok, words tok (s ++ ws) = words tok s.
Proof.
  intros Hw; induction s as [|c s IH]; intros tok; simpl.
  - destruct ws as [|w ws]; simpl; auto.
    simpl in Hw; apply andb_true_iff in Hw as [Hc H]; rewrite Hc.
    rewrite (words_spaces ws H); now destruct tok.
  - destruct (isspace c); [destruct tok|]; now rewrite IH.
Qed.

Lemma split_padded ws1 ws2 line :
  forallb isspace ws1 = true -> forallb isspace ws2 = true ->
  split (ws1 ++ line ++ ws2) = split line.
Proof.
  intros H1 H2; unfold split.
  now rewrite words_leading, words_trailing.
Qed.

End ParserFacts.

Module ParserExtras.

Import Py Nx App Examples PyFacts NxFacts GraphFacts ParseFacts MetricFacts.
Import ParserFacts.

(** X1: two nodes are neighbours in the parsed graph exactly when some input
    line has one of them as its first token and the other among the tokens
    that follow. *)
Theorem X1_parse_edge_iff_line (content : str) (u v : node) :
  In v (nbrs_of (parse_adjacency_list content) u) <->
  exists line user friends,
    In line (split_newline content) /\ split line = user :: friends /\
    ((u = user /\ In v friends) \/ (v = user /\ In u friends)).
Proof.
  rewrite <- mem_In; fold (has_edge (parse_adjacency_list content) u v).
  rewrite has_edge_parse; unfold line_links; split.
  - intros (line & Hl & user & friends & Hs & H); eauto 8.
  - intros (line & user & friends & Hl & Hs & H); eauto 8.
Qed.

(** X2: the nodes of the parsed graph are exactly the tokens of the lines
    that have at least two tokens. *)
Theorem X2_parse_node_iff_token (content : str) (v : node) :
  In v (nodes (parse_adjacency_list content)) <->
  exists line user friends,
    In line (split_newline content) /\ split line = user :: friends /\
    friends <> [] /\ In v (user :: friends).
Proof.
  unfold parse_adjacency_list; rewrite In_nodes_fold_parse.
  unfold line_names; split.
  - intros [[] | (line & Hl & user & friends & H)]; eauto 8.
  - intros (line & user & friends & Hl & H); eauto 8.
Qed.

(** X3: the parsed graph is a well-formed undirected graph: no node is listed
    twice, no neighbour is listed twice, both ends of every edge are nodes,
    and adjacency is symmetric. *)
Theorem X3_parse_graph_wellformed (content : str) :
  let g := parse_adjacency_list content in
  NoDup (nodes g)
  /\ (forall v, NoDup (nbrs_of g v))
  /\ (forall u v, In v (nbrs_of g u) ->
                  In u (nodes g) /\ In v (nodes g) /\ In u (nbrs_of g v)).
Proof.
  intros g; pose proof (built_ok (parse_built content)) as Hok; fold g in Hok.
  split; [apply Hok|split].
  - intros v; unfold nbrs_of; destruct (adj g v) eqn:E; [|constructor].
    eapply ok_nbrs; eauto.
  - intros u v H; split; [|split].
    + apply In_nodes_adj; unfold nbrs_of in H.
      destruct (adj g u); [eauto|destruct H].
    + eapply ok_closed; eauto.
    + apply mem_In; apply (ok_sym Hok u v); now apply mem_In.
Qed.

(** X4: the parsed graph has no node exactly when no line of the input has
    two tokens or more. *)
Theorem X4_parse_empty_iff_no_pair (content : str) :
  nodes (parse_adjacency_list content) = [] <->
  forall line, In line (split_newline content) -> length (split line) <= 1.
Proof.
  split.
  - intros H line Hl.
    destruct (split line) as [|user [|f friends]] eqn:E; simpl; auto.
    exfalso; assert (Hu : In user (nodes (parse_adjacency_list content))).
    { apply In_nodes_fold_parse; right; exists line; split; auto.
      exists user, (f :: friends).
      repeat split; auto; [discriminate|now left]. }
    rewrite H in Hu; destruct Hu.
  - intros H; destruct (nodes (parse_adjacency_list content)) as [|v l] eqn:E; auto.
    exfalso; assert (Hv : In v (nodes (parse_adjacency_list content)))
      by (rewrite E; now left).
    apply In_nodes_fold_parse in Hv
      as [[] | (line & Hl & user & friends & Hs & Hf & _)].
    specialize (H line Hl); rewrite Hs in H.
    destruct friends; [congruence|simpl in H; lia].
Qed.

(** X5: reading a text after another, separated by a line break, is reading
    the lines of the second into the graph of the first. *)
Theorem X5_parse_append (a b : str) :
  parse_adjacency_list (a ++ 10%N :: b)
  = fold_left parse_line (split_newline b) (parse_adjacency_list a).
Proof.
  unfold parse_adjacency_list; now rewrite split_newline_app, fold_left_app.
Qed.

(** X6: lines that repeat what was read before change nothing: a text
    followed by a copy of itself gives the graph of the text, with the same
    node order and neighbour order. *)
Theorem X6_parse_repeat (content : str) :
  parse_adjacency_list (content ++ 10%N :: content)
  = parse_adjacency_list content.
Proof.
  unfold parse_adjacency_list at 1.
  rewrite split_newline_app, fold_left_app.
  fold (parse_adjacency_list content); apply fold_parse_present.
  - apply built_ok, parse_built.
  - intros line user friends f Hl Hs Hf.
    apply has_edge_parse; exists line; split; auto.
    exists user, friends; auto.
Qed.

(** X7: white space around a line does not matter: a line padded on either
    side with white-space characters (a carriage return before the line
    break, for one) is read like the line itself. *)
Theorem X7_parse_line_padding (g : Graph) (ws1 ws2 line : str) :
  forallb isspace ws1 = true -> forallb isspace ws2 = true ->
  parse_line g (ws1 ++ line ++ ws2) = parse_line g line.
Proof.
  intros H1 H2; now rewrite !parse_line_split, split_padded.
Qed.

Lemma X7_parse_line_padding_witness :
  parse_line fan_graph (lit " " ++ lit "Q Z" ++ [13%N])
  = parse_line fan_graph (lit "Q Z").
Proof.
  apply (@X7_parse_line_padding fan_graph (lit " ") [13%N] (lit "Q Z"));
    reflexivity.
Defined.

End ParserExtras.

Module RangeFacts.

Import Py Nx App Examples PyFacts NxFacts GraphFacts BfsFacts ClosenessFacts.
Import ParseFacts MetricFacts SortFacts LoopFacts.

Lemma ratio_nonneg a b : (0 <= ratio a b)%Q.
Proof.
  unfold ratio, Qdiv; apply Qmult_le_0_compat.
  - unfold Qle; simpl; lia.
  - apply Qinv_le_0_compat; unfold Qle; simpl; lia.
Qed.

Lemma ratio_le_1 a b : a <= b -> 0 < b -> (ratio a b <= 1)%Q.
Proof.
  intros Hab Hb; unfold ratio; apply Qle_shift_div_r.
  - unfold Qlt; simpl; lia.
  - rewrite Qmult_1_l, <- Zle_Qle; lia.
Qed.

Lemma ratio_pos a b : 0 < a -> 0 < b -> (0 < ratio a b)%Q.
Proof.
  intros Ha Hb; unfold ratio; apply Qlt_shift_div_l.
  - unfold Qlt; simpl; lia.
  - rewrite Qmult_0_l; unfold Qlt; simpl; lia.
Qed.

Lemma ratio_zero b : (ratio 0 b == 0)%Q.
Proof. unfold ratio, Qdiv; simpl; ring. Qed.

Lemma sum_nat_bound {A} (f : A -> nat) m l :
  (forall x, In x l -> f x <= m) -> sum_nat (map f l) <= length l * m.
Proof.
  induction l as [|a l IH]; simpl; auto; intros H.
  specialize (IH (fun x Hx => H x (or_intror Hx))).
  specialize (H a (or_introl eq_refl)); lia.
Qed.

Lemma sum_Q_range l :
  (forall x, In x l -> 0 <= x <= 1)%Q ->
  (0 <= sum_Q l <= inject_Z (Z.of_nat (length l)))%Q.
Proof.
  induction l as [|a l IH]; intros H.
  - unfold sum_Q; simpl; split; apply Qle_refl.
  - rewrite sum_Q_cons.
    destruct (IH (fun x Hx => H x (or_intror Hx))) as [I1 I2].
    destruct (H a (or_introl eq_refl)) as [A1 A2].
    replace (length (a :: l)) with (1 + length l) by reflexivity.
    rewrite Nat2Z.inj_add, inject_Z_plus.
    change (inject_Z (Z.of_nat 1)) with 1%Q.
    revert I1 I2; generalize (inject_Z (Z.of_nat (length l))) (sum_Q l).
    intros n s I1 I2; split; lra.
Qed.

(** Sets as duplicate-free lists. *)
Lemma NoDup_set_of l : NoDup (set_of l).
Proof. apply NoDup_nodup. Qed.

Lemma In_set_of l x : In x (set_of l) <-> In x l.
Proof. apply nodup_In. Qed.

Lemma In_set_discard l w x : In x (set_discard l w) <-> In x l /\ x <> w.
Proof.
  unfold set_discard; rewrite filter_In, negb_true_iff, str_eqb_neq; tauto.
Qed.

Lemma In_set_inter a b x : In x (set_inter a b) <-> In x a /\ In x b.
Proof.
  unfold set_inter; rewrite filter_In.
  change (existsb (str_eqb x) b) with (mem x b); now rewrite mem_In.
Qed.

Lemma In_set_union a b x : In x (set_union a b) <-> In x a \/ In x b.
Proof.
  unfold set_union; rewrite in_app_iff, filter_In, negb_true_iff.
  change (existsb (str_eqb x) a) with (mem x a); rewrite mem_false.
  destruct (in_dec str_eq_dec x a); tauto.
Qed.

Lemma NoDup_set_union a b : NoDup a -> NoDup b -> NoDup (set_union a b).
Proof.
  intros Ha Hb; unfold set_union; apply NoDup_app; auto.
  - now apply NoDup_filter.
  - intros x Hx Hf; apply filter_In in Hf as [_ Hf].
    apply negb_true_iff in Hf.
    change (existsb (str_eqb x) a) with (mem x a) in Hf.
    now apply mem_false in Hf.
Qed.

Lemma length_set_inter_le a b : length (set_inter a b) <= length (set_union a b).
Proof.
  unfold set_inter, set_union; rewrite length_app.
  pose proof (filter_length_le (fun x => existsb (str_eqb x) b) a); lia.
Qed.

Lemma length_set_inter_sym a b :
  NoDup a -> NoDup b -> length (set_inter a b) = length (set_inter b a).
Proof.
  intros Ha Hb; apply Permutation_length, NoDup_Permutation.
  - now apply NoDup_filter.
  - now apply NoDup_filter.
  - intros x; rewrite !In_set_inter; tauto.
Qed.

Lemma length_set_union_sym a b :
  NoDup a -> NoDup b -> length (set_union a b) = length (set_union b a).
Proof.
  intros Ha Hb; apply Permutation_length, NoDup_Permutation.
  - now apply NoDup_set_union.
  - now apply NoDup_set_union.
  - intros x; rewrite !In_set_union; tauto.
Qed.

Lemma length_without l (w : str) :
  NoDup l -> ~ In w l -> In w (w :: l) -> forall universe,
  NoDup universe -> incl (w :: l) universe -> length l + 1 <= length universe.
Proof.
  intros Hl Hw _ universe Hu Hi.
  assert (H : NoDup (w :: l)) by now constructor.
  pose proof (NoDup_incl_length H Hi) as L; simpl in L; lia.
Qed.

(** Twice the number of triangles through a node of degree [d] is at most
    [d * (d - 1)]. *)
Lemma triangles_bound g v v_nbrs :
  let '(d, t) := triangles_and_degree g v v_nbrs in t <= d * (d - 1).
Proof.
  unfold triangles_and_degree.
  set (vs := set_discard (set_of v_nbrs) v).
  assert (Hvs : NoDup vs) by (apply NoDup_filter, NoDup_set_of).
  apply sum_nat_bound; intros w Hw.
  set (X := set_discard (set_of (nbrs_of g w)) w).
  assert (Hn : NoDup (set_inter vs X)) by now apply NoDup_filter.
  assert (Hi : incl (w :: set_inter vs X) vs).
  { intros x [<- | Hx]; auto; now apply In_set_inter in Hx. }
  assert (Hw' : ~ In w (set_inter vs X)).
  { intros C; apply In_set_inter in C as [_ C].
    apply In_set_discard in C; tauto. }
  pose proof (@length_without (set_inter vs X) w Hn Hw' (or_introl eq_refl)
                vs Hvs Hi); lia.
Qed.

Lemma clustering_entry g v c :
  In (v, c) (clustering g) -> (0 <= c <= 1)%Q.
Proof.
  unfold clustering; rewrite in_map_iff; intros ([u l] & E & _).
  pose proof (triangles_bound g u l) as B.
  destruct (triangles_and_degree g u l) as [d t]; inversion E; subst.
  destruct (t =? 0) eqn:T; [split; [apply Qle_refl|discriminate]|].
  apply Nat.eqb_neq in T; split; [apply ratio_nonneg|].
  apply ratio_le_1; lia.
Qed.

Lemma clustering_keys g : map fst (clustering g) = nodes g.
Proof.
  unfold clustering, nodes; rewrite map_map; apply map_ext.
  intros [v l]; now destruct (triangles_and_degree g v l).
Qed.

Lemma average_clustering_range g :
  nodes g <> [] ->
  exists avg, average_clustering g = Ok avg /\ (0 <= avg <= 1)%Q.
Proof.
  intros Hg; unfold average_clustering.
  assert (R : forall x, In x (map snd (clustering g)) -> (0 <= x <= 1)%Q).
  { intros x Hx; apply in_map_iff in Hx as ([v c] & <- & Hx).
    eapply clustering_entry; eauto. }
  apply sum_Q_range in R.
  destruct (map snd (clustering g)) as [|c0 cs] eqn:E.
  - exfalso; apply Hg; rewrite <- clustering_keys.
    apply (f_equal (@length Q)) in E; rewrite length_map in E.
    destruct (clustering g); [reflexivity|discriminate].
  - eexists; split; [reflexivity|].
    set (n := inject_Z (Z.of_nat (length (c0 :: cs)))) in *.
    assert (Hn : (0 < n)%Q) by (unfold n, Qlt; simpl; lia).
    destruct R as [R1 R2]; split.
    + apply Qle_shift_div_l; auto; lra.
    + apply Qle_shift_div_r; auto; lra.
Qed.

(** Degrees in a graph without self-loops. *)
Lemma degree_bound g v l :
  graph_ok g -> adj g v = Some l -> ~ In v l -> degree_of v l + 1 <= length g.
Proof.
  intros Hok E Hv; unfold degree_of.
  replace (mem v l) with false by (symmetry; now apply mem_false).
  assert (Hi : incl (v :: l) (nodes g)).
  { intros x [<- | Hx].
    - apply In_nodes_adj; eauto.
    - apply (ok_closed Hok v); unfold nbrs_of; now rewrite E. }
  pose proof (@length_without l v (ok_nbrs Hok _ E) Hv (or_introl eq_refl)
                (nodes g) (ok_nodes Hok) Hi) as L.
  unfold nodes in L; rewrite length_map in L; lia.
Qed.

Lemma degree_sum_bound g :
  graph_ok g -> (forall v, ~ In v (nbrs_of g v)) ->
  degree_sum g <= length g * (length g - 1).
Proof.
  intros Hok Hl; unfold degree_sum, degree; rewrite map_map.
  apply sum_nat_bound; intros [v l] Hin; simpl.
  pose proof (@In_adj g v l (ok_nodes Hok) Hin) as E.
  assert (Hv : ~ In v l) by (specialize (Hl v); unfold nbrs_of in Hl; now rewrite E in Hl).
  pose proof (@degree_bound g v l Hok E Hv); lia.
Qed.

(** Distances from one source add up to at least the number of other nodes
    that are reached. *)
Lemma zero_free_sum (sp : list (node * nat)) :
  (forall v d, In (v, d) sp -> 1 <= d) -> length sp <= sum_nat (map snd sp).
Proof.
  induction sp as [|[v d] sp IH]; simpl; auto; intros H.
  specialize (IH (fun v d Hx => H v d (or_intror Hx))).
  specialize (H v d (or_introl eq_refl)); lia.
Qed.

Lemma distances_sum (s : node) (sp : list (node * nat)) :
  NoDup (map fst sp) -> (forall v d, In (v, d) sp -> d = 0 -> v = s) ->
  length sp - 1 <= sum_nat (map snd sp).
Proof.
  induction sp as [|[v d] sp IH]; simpl; auto; intros Hn H.
  inversion Hn as [|? ? Hv Hn']; subst.
  destruct d as [|d].
  - assert (v = s) by (eapply H; eauto); subst v.
    assert (L : length sp <= sum_nat (map snd sp)).
    { apply zero_free_sum; intros u d Hu.
      destruct d; [|lia].
      assert (u = s) by (eapply H; eauto); subst u.
      exfalso; apply Hv; change s with (fst (s, 0)); now apply in_map. }
    lia.
  - specialize (IH Hn' (fun u d Hu => H u d (or_intror Hu))); lia.
Qed.

Lemma closeness_of_range g s sp :
  graph_ok g -> In s (nodes g) -> bfs_result g s sp ->
  (0 <= closeness_of g sp <= 1)%Q.
Proof.
  intros Hok Hs R.
  destruct (closeness_of_spec Hok Hs R) as [C1 C2].
  destruct (Nat.eq_dec (length sp) 1) as [E | E].
  - rewrite (C1 E); split; [apply Qle_refl|discriminate].
  - rewrite (C2 E).
    pose proof (bfs_result_length Hok Hs R) as L.
    pose proof (bfs_result_source R) as H0.
    assert (L2 : 2 <= length sp).
    { destruct sp as [|x [|y sp]]; simpl in *; try lia; tauto. }
    pose proof (bfs_result_total R L2) as T.
    destruct R as [Rn Rd].
    assert (D : length sp - 1 <= sum_nat (map snd sp)).
    { apply (@distances_sum s); auto.
      intros v d Hv ->; apply Rd in Hv; eapply dist_zero; eauto. }
    pose proof (ratio_nonneg (length sp - 1) (sum_nat (map snd sp))) as A0.
    pose proof (ratio_nonneg (length sp - 1) (length g - 1)) as B0.
    assert (A1 : (ratio (length sp - 1) (sum_nat (map snd sp)) <= 1)%Q)
      by (apply ratio_le_1; lia).
    assert (B1 : (ratio (length sp - 1) (length g - 1) <= 1)%Q)
      by (apply ratio_le_1; lia).
    split; [now apply Qmult_le_0_compat|].
    setoid_replace 1%Q with (1 * 1)%Q by reflexivity.
    apply Qmult_le_compat_nonneg; split; auto.
Qed.

End RangeFacts.

Module ScoreFacts.

Import Py Nx App Examples PyFacts NxFacts GraphFacts BfsFacts ClosenessFacts.
Import ParseFacts MetricFacts SortFacts LoopFacts RangeFacts.

Lemma sum_Q_zero l : (forall x, In x l -> x == 0)%Q -> (sum_Q l == 0)%Q.
Proof.
  induction l as [|a l IH]; intros H; [reflexivity|].
  rewrite sum_Q_cons, (H a (or_introl eq_refl)), IH; [ring|].
  intros x Hx; apply H; now right.
Qed.

Lemma filter_none {A} (p : A -> bool) l :
  (forall x, In x l -> p x = false) -> filter p l = [].
Proof.
  induction l as [|a l IH]; simpl; auto; intros H.
  rewrite (H a (or_introl eq_refl)); auto.
Qed.

Lemma recommend_ok_node g q recs :
  recommend_friends g q = Ok recs -> In q (nodes g).
Proof.
  unfold recommend_friends, neighbors; intros H.
  apply In_nodes_adj; destruct (adj g q); [eauto|discriminate].
Qed.

Lemma recommended_scored g q recs c s :
  built g -> recommend_friends g q = Ok recs -> In (c, s) recs ->
  In c (nodes g) /\ is_candidate g q c = true /\ s = jaccard g q c.
Proof.
  intros Hb H Hin; pose proof (recommend_ok_node _ _ H) as Hq.
  rewrite recommend_friends_spec in H by (auto; apply (built_ok Hb)).
  assert (E : recs = firstn 5 (sorted (@snd node Q) true (scored g q (nodes g))))
    by congruence.
  subst recs; clear H.
  apply In_firstn in Hin; apply sorted_In in Hin.
  unfold scored in Hin; apply in_map_iff in Hin as (x & E & Hx).
  inversion E; subst; apply filter_In in Hx; tauto.
Qed.

Lemma jaccard_sym g q c : jaccard g q c = jaccard g c q.
Proof.
  unfold jaccard, N_.
  rewrite (@length_set_inter_sym (set_of (nbrs_of g q)) (set_of (nbrs_of g c)))
    by apply NoDup_set_of.
  rewrite (@length_set_union_sym (set_of (nbrs_of g q)) (set_of (nbrs_of g c)))
    by apply NoDup_set_of.
  reflexivity.
Qed.

Lemma length_pos_In {A} (l : list A) : 0 < length l <-> exists x, In x l.
Proof.
  destruct l as [|a l]; simpl; split.
  - lia.
  - intros [x []].
  - intros _; exists a; auto.
  - lia.
Qed.

Lemma jaccard_pos g q c :
  0 < length (set_union (N_ g q) (N_ g c)) ->
  ((0 < jaccard g q c)%Q <->
   exists w, In w (nbrs_of g q) /\ In w (nbrs_of g c)).
Proof.
  intros Hu; unfold jaccard.
  assert (E : (exists w, In w (nbrs_of g q) /\ In w (nbrs_of g c)) <->
              0 < length (set_inter (N_ g q) (N_ g c))).
  { rewrite length_pos_In; unfold N_; split; intros [w H]; exists w.
    - apply In_set_inter; now rewrite !In_set_of.
    - apply In_set_inter in H; now rewrite !In_set_of in H. }
  rewrite E; split.
  - intros H; destruct (length (set_inter (N_ g q) (N_ g c))); [|lia].
    rewrite ratio_zero in H; now apply Qlt_irrefl in H.
  - intros H; now apply ratio_pos.
Qed.

Lemma parsed_candidate content q c :
  In q (nodes (parse_adjacency_list content)) ->
  is_candidate (parse_adjacency_list content) q c
  = negb (str_eqb c q) && negb (has_edge (parse_adjacency_list content) q c).
Proof.
  intros Hq; unfold is_candidate.
  apply In_nodes_adj in Hq as [l Hl].
  pose proof (no_isolated_parse content q Hl) as Hne.
  assert (H : 0 < length (set_union (N_ (parse_adjacency_list content) q)
                                    (N_ (parse_adjacency_list content) c))).
  { apply length_pos_In; destruct l as [|x l]; [congruence|].
    exists x; apply In_set_union; left; unfold N_, nbrs_of.
    rewrite Hl; apply In_set_of; now left. }
  apply Nat.ltb_lt in H; rewrite H; apply andb_true_r.
Qed.

Lemma no_loops_check g :
  forallb (fun '(n, l) => negb (mem n l)) g = true ->
  forall v, ~ In v (nbrs_of g v).
Proof.
  intros H v Hv; unfold nbrs_of in Hv.
  destruct (adj g v) as [l|] eqn:E; [|destruct Hv].
  apply adj_In in E; rewrite forallb_forall in H.
  specialize (H _ E); simpl in H.
  apply negb_true_iff, mem_false in H; auto.
Qed.

Lemma Q_of_pred n :
  1 <= n -> (inject_Z (Z.of_nat n) - 1 == inject_Z (Z.of_nat (n - 1)))%Q.
Proof.
  intros H; rewrite Nat2Z.inj_sub by auto.
  unfold Qeq, Qminus, Qplus; simpl; lia.
Qed.

End ScoreFacts.

Module ScoreExtras.

Import Py Nx App Examples PyFacts NxFacts GraphFacts BfsFacts ClosenessFacts.
Import ParseFacts MetricFacts SortFacts LoopFacts RangeFacts ScoreFacts.

(** X8: every clustering coefficient lies between 0 and 1, there is one for
    each node, in node order, and on a graph with a node the average
    clustering lies between 0 and 1 as well. *)
Theorem X8_clustering_range (g : Graph) :
  map fst (clustering g) = nodes g
  /\ (forall v c, In (v, c) (clustering g) -> (0 <= c <= 1)%Q)
  /\ (nodes g <> [] ->
      exists avg, average_clustering g = Ok avg /\ (0 <= avg <= 1)%Q).
Proof.
  split; [apply clustering_keys|split].
  - apply clustering_entry.
  - apply average_clustering_range.
Qed.

(** X9: the detector flags nothing when the threshold is not positive, and
    nothing when no node lies on a triangle (all clustering coefficients are
    zero), whatever the threshold: a coefficient is never below zero. *)
Theorem X9_nothing_flagged (g : Graph) (t : Q) :
  nodes g <> [] ->
  (t <= 0)%Q \/ (forall v c, In (v, c) (clustering g) -> (c == 0)%Q) ->
  detect_potential_fake_accounts g t = Ok [].
Proof.
  intros Hg Hcase.
  destruct (@average_clustering_range g Hg) as (avg & Ea & A0 & A1).
  assert (Hle : (t * avg <= 0)%Q).
  { destruct Hcase as [Ht | Hz].
    - setoid_replace 0%Q with (0 * avg)%Q by ring.
      now apply Qmult_le_compat_r.
    - assert (Z : (avg == 0)%Q).
      { unfold average_clustering in Ea.
        destruct (map snd (clustering g)) as [|c0 cs] eqn:E; [discriminate|].
        inversion Ea; rewrite <- E.
        rewrite sum_Q_zero; [unfold Qdiv; ring|].
        intros x Hx; apply in_map_iff in Hx as ([v c] & <- & Hx); eauto. }
      rewrite Z; ring_simplify; apply Qle_refl. }
  unfold detect_potential_fake_accounts; rewrite Ea; simpl.
  rewrite filter_none; [reflexivity|].
  intros [v c] Hin; unfold Qltb; apply negb_false_iff, Qle_bool_iff.
  destruct (@clustering_entry g v c Hin) as [C0 _].
  eapply Qle_trans; eauto.
Qed.

Lemma X9_nothing_flagged_witness :
  detect_potential_fake_accounts fan_graph default_threshold = Ok [].
Proof.
  apply (@X9_nothing_flagged fan_graph default_threshold).
  - vm_compute; discriminate.
  - right; intros v c H; vm_compute in H.
    repeat (destruct H as [H | H]; [inversion H; reflexivity|]); destruct H.
Defined.

(** X10: on a graph without self-loops the density lies between 0 and 1. *)
Theorem X10_density_range (g : Graph) :
  built g -> (forall v, ~ In v (nbrs_of g v)) -> (0 <= density g <= 1)%Q.
Proof.
  intros Hb Hl; pose proof (built_ok Hb) as Hok.
  pose proof (@degree_sum_bound g Hok Hl) as B.
  rewrite (@handshake g Hb) in B.
  unfold density, number_of_nodes.
  destruct ((number_of_edges g =? 0) || (length g <=? 1)) eqn:E;
    [split; [apply Qle_refl|discriminate]|].
  apply orb_false_iff in E as [E1 E2].
  apply Nat.eqb_neq in E1; apply Nat.leb_gt in E2.
  set (m := number_of_edges g) in *; set (N := length g * (length g - 1)) in *.
  assert (HN : 0 < N) by (unfold N; nia).
  assert (E : (ratio m N * 2 == ratio (2 * m) N)%Q).
  { unfold ratio; rewrite Nat2Z.inj_mul, inject_Z_mult.
    change (inject_Z (Z.of_nat 2)) with 2%Q; field.
    intros C; unfold Qeq in C; simpl in C; lia. }
  rewrite E; split; [apply ratio_nonneg|apply ratio_le_1; lia].
Qed.

Lemma X10_density_range_witness : (0 <= density fan_graph <= 1)%Q.
Proof.
  apply (@X10_density_range fan_graph).
  - apply parse_built.
  - apply no_loops_check; reflexivity.
Defined.

(** X11: on a graph without self-loops every degree centrality lies between
    0 and 1, and there is one for each node, in node order. *)
Theorem X11_degree_centrality_range (g : Graph) :
  built g -> (forall v, ~ In v (nbrs_of g v)) ->
  map fst (degree_centrality g) = nodes g
  /\ forall v s, In (v, s) (degree_centrality g) -> (0 <= s <= 1)%Q.
Proof.
  intros Hb Hl; pose proof (built_ok Hb) as Hok.
  unfold degree_centrality; destruct (length g <=? 1) eqn:E.
  - split; [rewrite map_map; apply map_id|].
    intros v s H; apply in_map_iff in H as (x & H & _); inversion H; subst.
    split; discriminate.
  - apply Nat.leb_gt in E; split.
    + unfold degree, nodes; rewrite !map_map; apply map_ext; now intros [v l].
    + intros v s H; apply in_map_iff in H as ([u d] & H & Hin).
      inversion H; subst; clear H.
      unfold degree in Hin; apply in_map_iff in Hin as ([w l] & H & Hin).
      inversion H; subst; clear H.
      pose proof (@In_adj g v l (ok_nodes Hok) Hin) as Ea.
      assert (Hu : ~ In v l)
        by (specialize (Hl v); unfold nbrs_of in Hl; now rewrite Ea in Hl).
      pose proof (@degree_bound g v l Hok Ea Hu) as D.
      rewrite Q_of_pred by lia.
      fold (Qdiv (inject_Z (Z.of_nat (degree_of v l)))
                 (inject_Z (Z.of_nat (length g - 1)))).
      assert (R : (inject_Z (Z.of_nat (degree_of v l))
                   * (1 / inject_Z (Z.of_nat (length g - 1)))
                   == ratio (degree_of v l) (length g - 1))%Q).
      { unfold ratio; field; intros C; unfold Qeq in C; simpl in C; lia. }
      rewrite R; split; [apply ratio_nonneg|apply ratio_le_1; lia].
Qed.

Lemma X11_degree_centrality_range_witness :
  map fst (degree_centrality fan_graph) = nodes fan_graph
  /\ forall v s, In (v, s) (degree_centrality fan_graph) -> (0 <= s <= 1)%Q.
Proof.
  apply (@X11_degree_centrality_range fan_graph).
  - apply parse_built.
  - apply no_loops_check; reflexivity.
Defined.

End ScoreExtras.

Module RecommendExtras.

Import Py Nx App Examples PyFacts NxFacts GraphFacts BfsFacts ClosenessFacts.
Import ParseFacts MetricFacts SortFacts LoopFacts RangeFacts ScoreFacts.

(** X12: the closeness computation returns a score for each node, in node
    order, and every score lies between 0 and 1. *)
Theorem X12_closeness_range (g : Graph) :
  built g ->
  exists cc,
    closeness_centrality g = ret cc
    /\ map fst cc = nodes g
    /\ forall v c, In (v, c) cc -> (0 <= c <= 1)%Q.
Proof.
  intros Hb; pose proof (built_ok Hb) as Hok.
  destruct (@closeness_fold g Hok (nodes g) []) as (cc & E & Hk & Hc);
    [apply incl_refl|].
  exists cc; split; [exact E|split; [exact Hk|]].
  intros v c Hin; destruct (Hc v c Hin) as (sp & R & ->).
  apply (@closeness_of_range g v sp Hok); auto.
  rewrite <- Hk; change v with (fst (v, closeness_of g sp)); now apply in_map.
Qed.

Lemma X12_closeness_range_witness :
  exists cc,
    closeness_centrality pairs_graph = ret cc
    /\ map fst cc = nodes pairs_graph
    /\ forall v c, In (v, c) cc -> (0 <= c <= 1)%Q.
Proof.
  apply (@X12_closeness_range pairs_graph), parse_built.
Defined.

(** X13: every recommended pair (candidate, score) has a score between 0
    and 1, and the score is positive exactly when the candidate and the user
    have a neighbour in common. *)
Theorem X13_recommend_scores (g : Graph) (q : node) (recs : list (node * Q)) :
  built g -> recommend_friends g q = Ok recs ->
  forall c s,
    In (c, s) recs ->
    (0 <= s <= 1)%Q
    /\ ((0 < s)%Q <-> exists w, In w (nbrs_of g q) /\ In w (nbrs_of g c)).
Proof.
  intros Hb H c s Hin.
  destruct (@recommended_scored g q recs c s Hb H Hin) as (_ & Hc & ->).
  unfold is_candidate in Hc; apply andb_true_iff in Hc as [_ Hu].
  apply Nat.ltb_lt in Hu; split; [split|].
  - apply ratio_nonneg.
  - apply ratio_le_1; auto; apply length_set_inter_le.
  - now apply jaccard_pos.
Qed.

Lemma X13_recommend_scores_witness :
  (0 <= ratio 1 1 <= 1)%Q
  /\ ((0 < ratio 1 1)%Q <-> exists w, In w (nbrs_of fan_graph (lit "Q"))
                                      /\ In w (nbrs_of fan_graph (lit "C"))).
Proof.
  apply (@X13_recommend_scores fan_graph (lit "Q")
           [(lit "C", ratio 1 1); (lit "B", ratio 1 1)]).
  - apply parse_built.
  - vm_compute; reflexivity.
  - now left.
Defined.

(** X14: on a graph read by the parser every node but the user that is not
    a neighbour of the user is a candidate (the neighbour-set union is never
    empty there), so the number of recommendations is the smaller of 5 and
    the number of such nodes. *)
Theorem X14_recommend_parsed_count (content : str) (q : node) :
  let g := parse_adjacency_list content in
  In q (nodes g) ->
  exists recs,
    recommend_friends g q = Ok recs
    /\ length recs
       = Nat.min 5 (length (filter (fun c => negb (str_eqb c q)
                                             && negb (has_edge g q c))
                                   (nodes g))).
Proof.
  intros g Hq; pose proof (built_ok (parse_built content)) as Hok; fold g in Hok.
  eexists; split; [apply recommend_friends_spec; auto; apply Hok|].
  rewrite length_firstn, sorted_length; unfold scored; rewrite length_map.
  f_equal; f_equal; apply filter_ext; intros c.
  now apply parsed_candidate.
Qed.

Lemma X14_recommend_parsed_count_witness :
  let g := parse_adjacency_list (lit "Q X
C X
B X") in
  exists recs,
    recommend_friends g (lit "Q") = Ok recs
    /\ length recs
       = Nat.min 5 (length (filter (fun c => negb (str_eqb c (lit "Q"))
                                             && negb (has_edge g (lit "Q") c))
                                   (nodes g))).
Proof.
  apply (@X14_recommend_parsed_count (lit "Q X
C X
B X") (lit "Q")).
  vm_compute; auto.
Defined.

(** X15: the score is symmetric: when [c] is recommended to [q] and [q] is
    recommended to [c], both recommendations carry the same score. *)
Theorem X15_recommend_symmetric (g : Graph) (q c : node)
  (recs_q recs_c : list (node * Q)) (s s' : Q) :
  built g ->
  recommend_friends g q = Ok recs_q -> recommend_friends g c = Ok recs_c ->
  In (c, s) recs_q -> In (q, s') recs_c -> s = s'.
Proof.
  intros Hb Hq Hc H1 H2.
  destruct (@recommended_scored g q recs_q c s Hb Hq H1) as (_ & _ & ->).
  destruct (@recommended_scored g c recs_c q s' Hb Hc H2) as (_ & _ & ->).
  apply jaccard_sym.
Qed.

Lemma X15_recommend_symmetric_witness : ratio 1 1 = ratio 1 1.
Proof.
  apply (@X15_recommend_symmetric fan_graph (lit "Q") (lit "C")
           [(lit "C", ratio 1 1); (lit "B", ratio 1 1)]
           [(lit "Q", ratio 1 1); (lit "B", ratio 1 1)]
           (ratio 1 1) (ratio 1 1)).
  - apply parse_built.
  - vm_compute; reflexivity.
  - vm_compute; reflexivity.
  - now left.
  - now left.
Defined.

End RecommendExtras.

Module PathFacts.

Import Py Nx App Examples PyFacts NxFacts GraphFacts BfsFacts ClosenessFacts.
Import ConnectivityFacts ParseFacts MetricFacts SortFacts LoopFacts RangeFacts.
Import Reach.

(** The search misses no node that a walk reaches. *)
Lemma bfs_loop_complete g s : graph_ok g -> In s (nodes g) ->
  forall fuel seen level k out,
    bfs_inv g s k seen level out ->
    length g <= length seen + fuel -> (level <> [] -> 1 <= fuel) ->
    exists out', bfs_loop fuel g seen level k out = Some out'
                 /\ forall j v, walk g s v j -> In v (map fst out').
Proof.
  intros Hok Hs fuel; induction fuel as [|fuel IH];
    intros seen level k out I Hf Hl.
  - destruct level as [|x level]; [|specialize (Hl ltac:(discriminate)); lia].
    exists out; split; auto.
    rewrite <- (inv_seen I); eapply bfs_inv_done; eauto.
  - destruct level as [|x level].
    + exists out; split; auto.
      rewrite <- (inv_seen I); eapply bfs_inv_done; eauto.
    + cbn [bfs_loop].
      destruct (expand_spec g (x :: level) seen) as (new & E & Hnew & Hnd).
      rewrite E.
      pose proof (bfs_inv_step Hok I Hnew Hnd) as I'.
      destruct (length (seen ++ new) =? length g) eqn:L.
      * apply Nat.eqb_eq in L; eexists; split; [reflexivity|].
        rewrite <- (inv_seen I'); eapply bfs_inv_full; eauto.
      * apply Nat.eqb_neq in L.
        assert (Hle : length (seen ++ new) <= length g).
        { replace (length g) with (length (nodes g))
            by (unfold nodes; apply length_map).
          apply NoDup_incl_length; apply I'. }
        destruct new as [|y new].
        -- eexists; split; [apply bfs_loop_nil|].
           rewrite <- (inv_seen I'); eapply bfs_inv_done; eauto.
        -- rewrite length_app in *; simpl in *.
           apply IH; auto; [rewrite length_app; simpl; lia|intros _; lia].
Qed.

Lemma shortest_path_length_complete g s :
  graph_ok g -> In s (nodes g) ->
  exists d, single_source_shortest_path_length g s = ret d
            /\ bfs_result g s d
            /\ forall v, reachable g s v <-> In v (map fst d).
Proof.
  intros Hok Hs.
  destruct (@shortest_path_length_spec g s Hok Hs) as (d & E & R).
  exists d; split; [exact E|split; [exact R|]].
  intros v; split.
  - intros [j Hw].
    unfold single_source_shortest_path_length in E.
    replace (has_node g s) with true in E by (symmetry; now apply mem_In).
    destruct (@bfs_loop_complete g s Hok Hs (length g) [s] [s] 0 [(s, 0)])
      as (d' & E' & C).
    + now apply bfs_inv_init.
    + simpl; lia.
    + intros _; destruct g; [destruct Hs|simpl; lia].
    + rewrite E' in E; inversion E; subst; eauto.
  - intros Hin; apply in_map_iff in Hin as ([x k] & <- & Hin).
    apply R in Hin as [Hw _]; now exists k.
Qed.

Lemma reach_all_length g s d :
  graph_ok g -> In s (nodes g) -> bfs_result g s d ->
  (forall v, reachable g s v <-> In v (map fst d)) ->
  (length d = length g <-> forall v, In v (nodes g) -> reachable g s v).
Proof.
  intros Hok Hs [Hn Hd] Hr.
  assert (Hi : incl (map fst d) (nodes g)).
  { intros y Hy; apply Hr in Hy as [k Hw]; eapply walk_in_nodes; eauto. }
  split.
  - intros L v Hv; apply Hr; revert Hv; apply NoDup_length_incl; auto.
    unfold nodes; rewrite !length_map; lia.
  - intros Hall.
    assert (L1 : length (map fst d) <= length (nodes g))
      by now apply NoDup_incl_length.
    assert (L2 : length (nodes g) <= length (map fst d)).
    { apply NoDup_incl_length; [apply Hok|].
      intros v Hv; apply Hr; auto. }
    unfold nodes in *; rewrite !length_map in *; lia.
Qed.

Lemma first_reaches_all g first rest :
  graph_ok g -> nodes g = first :: rest ->
  (forall v, In v (nodes g) -> reachable g first v) -> all_reachable g.
Proof.
  intros Hok E H u v Hu Hv.
  destruct (H u Hu) as [a Ha], (H v Hv) as [b Hb].
  exists (a + b); eapply walk_app; eauto; now apply walk_rev.
Qed.

Lemma not_both g : all_reachable g -> disconnected g -> False.
Proof. intros H (u & v & Hu & Hv & Hn); auto. Qed.

(** The connectivity test decides between the two. *)
Lemma is_connected_spec g :
  graph_ok g -> nodes g <> [] ->
  (is_connected g = ret true /\ all_reachable g)
  \/ (is_connected g = ret false /\ disconnected g).
Proof.
  intros Hok Hne; unfold is_connected, plain_bfs.
  destruct (nodes g) as [|first rest] eqn:E; [congruence|].
  assert (Hf : In first (nodes g)) by (rewrite E; now left).
  destruct (@shortest_path_length_complete g first Hok Hf) as (d & Ed & R & C).
  rewrite Ed; simpl; rewrite length_map.
  pose proof (@reach_all_length g first d Hok Hf R C) as L.
  destruct (length d =? length g) eqn:B.
  - left; split; auto; apply Nat.eqb_eq in B.
    eapply first_reaches_all; eauto; now apply L.
  - right; split; auto; apply Nat.eqb_neq in B.
    (* some node of the graph is not a key of [d] *)
    assert (X : exists v, In v (nodes g) /\ ~ In v (map fst d)).
    { destruct (forallb (fun v => mem v (map fst d)) (nodes g)) eqn:F.
      - exfalso; apply B, L.
        intros v Hv; apply C; rewrite forallb_forall in F.
        now apply mem_In, F.
      - assert (F' : existsb (fun v => negb (mem v (map fst d))) (nodes g) = true).
        { clear - F; induction (nodes g) as [|a l IH]; simpl in *; [discriminate|].
          destruct (mem a (map fst d)); simpl in *; auto. }
        apply existsb_exists in F' as (v & Hv & Hm).
        exists v; split; auto; apply negb_true_iff in Hm.
        now apply mem_false in Hm. }
    destruct X as (v & Hv & Hn).
    exists first, v; repeat split; auto.
    intros Hr; apply Hn, C, Hr.
Qed.

Lemma fold_add l : forall s, fold_left Nat.add l s = s + sum_nat l.
Proof.
  induction l as [|a l IH]; intros s; simpl; [lia|rewrite IH; lia].
Qed.

Definition path_sums (table : list (list (node * nat))) : nat :=
  sum_nat (map (fun sp => sum_nat (map snd sp)) table).

Lemma path_fold g : graph_ok g -> forall l acc,
  incl l (nodes g) ->
  exists table,
    cfold (fun s u =>
             cbind (single_source_shortest_path_length g u)
                   (fun d => ret (fold_left Nat.add (map snd d) s)))
          l acc = ret (acc + path_sums table)
    /\ Forall2 (bfs_result g) l table.
Proof.
  intros Hok; induction l as [|u l IH]; intros acc Hi; simpl.
  - exists []; split; [unfold ret, path_sums; simpl; do 2 f_equal; lia|constructor].
  - destruct (@shortest_path_length_spec g u Hok (Hi u (or_introl eq_refl)))
      as (d & E & R).
    rewrite E; simpl; rewrite fold_add.
    destruct (IH (acc + sum_nat (map snd d)))
      as (table & Et & Ft); [intros x Hx; apply Hi; now right|].
    exists (d :: table); split; [|now constructor].
    rewrite Et; unfold ret, path_sums; simpl; do 2 f_equal; lia.
Qed.

Lemma path_sums_bound g l table :
  graph_ok g -> all_reachable g -> incl l (nodes g) ->
  Forall2 (bfs_result g) l table ->
  length l * (length g - 1) <= path_sums table.
Proof.
  intros Hok Hall Hi F; induction F as [|u sp l table R F IH]; simpl; auto.
  unfold path_sums in *; simpl.
  assert (Hu : In u (nodes g)) by (apply Hi; now left).
  specialize (IH (fun x Hx => Hi x (or_intror Hx))).
  assert (L : length sp = length g).
  { pose proof (bfs_result_length Hok Hu R) as L1.
    assert (L2 : length (nodes g) <= length (map fst sp)).
    { apply NoDup_incl_length; [apply Hok|].
      intros v Hv; destruct (Hall u v Hu Hv) as [k Hw].
      (* the least walk is in the table *)
      destruct (@shortest_path_length_complete g u Hok Hu) as (d & _ & R' & C).
      assert (Hd : In v (map fst d)) by (apply C; now exists k).
      apply in_map_iff in Hd as ([x j] & <- & Hd); simpl.
      apply R' in Hd; apply R in Hd.
      change x with (fst (x, j)); now apply in_map. }
    unfold nodes in L2; rewrite !length_map in L2; lia. }
  destruct R as [Rn Rd].
  assert (D : length sp - 1 <= sum_nat (map snd sp)).
  { apply (@distances_sum u); auto.
    intros v d Hv ->; apply Rd in Hv; eapply dist_zero; eauto. }
  lia.
Qed.

Lemma avg_path_length_connected g :
  graph_ok g -> 2 <= length g -> all_reachable g ->
  exists table,
    Forall2 (bfs_result g) (nodes g) table
    /\ average_shortest_path_length g
       = ret (ratio (path_sums table) (length g * (length g - 1)))
    /\ length g * (length g - 1) <= path_sums table.
Proof.
  intros Hok H2 Hall.
  assert (Hne : nodes g <> []) by (destruct g; simpl in *; [lia|discriminate]).
  destruct (@path_fold g Hok (nodes g) 0 (incl_refl _)) as (table & E & F).
  exists table; split; [exact F|split].
  - unfold average_shortest_path_length.
    replace (length g =? 0) with false by (symmetry; apply Nat.eqb_neq; lia).
    replace (length g =? 1) with false by (symmetry; apply Nat.eqb_neq; lia).
    destruct (@is_connected_spec g Hok Hne) as [[Ec _] | [_ Hd]];
      [|destruct (not_both Hall Hd)].
    rewrite Ec; simpl; rewrite E; reflexivity.
  - pose proof (@path_sums_bound g (nodes g) table Hok Hall (incl_refl _) F) as B.
    unfold nodes in B at 1; rewrite length_map in B; exact B.
Qed.

(** The entry of the bundle is there for every graph with a node. *)
Lemma avg_path_length_entry_spec g :
  graph_ok g -> nodes g <> [] ->
  (exists x, avg_path_length_entry g = Some (PathLength x) /\ all_reachable g)
  \/ (avg_path_length_entry g = Some (PathMessage "Graph is not connected")
      /\ disconnected g).
Proof.
  intros Hok Hne.
  destruct (@is_connected_spec g Hok Hne) as [[Ec Hall] | [Ec Hd]].
  - left; destruct (le_lt_dec 2 (length g)) as [H2 | H2].
    + destruct (@avg_path_length_connected g Hok H2 Hall) as (table & _ & E & _).
      eexists; split; auto; unfold avg_path_length_entry; now rewrite E.
    + exists 0%Q; split; auto; unfold avg_path_length_entry.
      unfold average_shortest_path_length.
      destruct g as [|a [|b g]]; simpl in *; [congruence|reflexivity|lia].
  - right; split; auto; now apply avg_path_length_disconnected.
Qed.

End PathFacts.

Module ScoreSignFacts.

Import Py Nx App Examples PyFacts NxFacts GraphFacts DictFacts BrandesFacts.

Definition nonneg (d : list (node * Q)) : Prop := forall x, (0 <= getQ d x)%Q.

Lemma getQ_zeros l x : getQ (map (fun v : node => (v, 0%Q)) l) x = 0%Q.
Proof.
  unfold getQ, dict_get; induction l as [|a l IH]; simpl; auto.
  destruct (str_eqb a x); auto.
Qed.

Lemma nonneg_zeros l : nonneg (map (fun v : node => (v, 0%Q)) l).
Proof. intros x; rewrite getQ_zeros; apply Qle_refl. Qed.

Lemma nonneg_set d w v : nonneg d -> (0 <= v)%Q -> nonneg (dict_setitem d w v).
Proof.
  intros H Hv x; rewrite getQ_set; destruct (str_eqb w x); auto.
Qed.

Lemma relax_nonneg v Dv sigmav st w :
  (0 <= sigmav)%Q -> nonneg (st_sigma st) ->
  nonneg (st_sigma (relax v Dv sigmav st w)).
Proof.
  intros Hs H; unfold relax.
  destruct (dict_get (st_D st) w) as [Dw|] eqn:E; simpl.
  - rewrite E; destruct (Dw =? Dv + 1); simpl; auto.
    apply nonneg_set; auto.
    specialize (H w); generalize dependent (getQ (st_sigma st) w); intros; lra.
  - destruct (dict_get (dict_setitem (st_D st) w (Dv + 1)) w) as [Dw|]; simpl; auto.
    destruct (Dw =? Dv + 1); simpl; auto.
    apply nonneg_set; auto.
    specialize (H w); generalize dependent (getQ (st_sigma st) w); intros; lra.
Qed.

Lemma relax_fold_nonneg v Dv sigmav ws : forall st,
  (0 <= sigmav)%Q -> nonneg (st_sigma st) ->
  nonneg (st_sigma (fold_left (relax v Dv sigmav) ws st)).
Proof.
  induction ws as [|w ws IH]; intros st Hs H; simpl; auto.
  apply IH; auto; now apply relax_nonneg.
Qed.

Lemma sssp_loop_nonneg g : forall fuel st st',
  sssp_loop fuel g st = Some st' ->
  nonneg (st_sigma st) -> nonneg (st_sigma st').
Proof.
  induction fuel as [|fuel IH]; intros st st' E H; simpl in E.
  - destruct (st_Q st); [inversion E; subst; auto|discriminate].
  - destruct (st_Q st) as [|v rest]; [inversion E; subst; auto|].
    apply IH in E; auto.
    apply relax_fold_nonneg; simpl; auto.
Qed.

Lemma search_nonneg g s : nonneg (st_sigma (search g s)).
Proof.
  unfold search.
  destruct (single_source_shortest_path_basic g s) as [st|] eqn:E.
  - unfold single_source_shortest_path_basic in E.
    eapply sssp_loop_nonneg; eauto; simpl.
    apply nonneg_set; [apply nonneg_zeros|discriminate].
  - intros x; simpl; unfold getQ; simpl; apply Qle_refl.
Qed.

Lemma delta_fold_nonneg sigma coeff ps : forall delta,
  nonneg sigma -> (0 <= coeff)%Q -> nonneg delta ->
  nonneg (fold_left
            (fun d v => dict_setitem d v (getQ d v + getQ sigma v * coeff)%Q)
            ps delta).
Proof.
  induction ps as [|p ps IH]; intros delta Hs Hc Hd; simpl; auto.
  apply IH; auto; apply nonneg_set; auto.
  pose proof (Qmult_le_0_compat _ _ (Hs p) Hc) as M.
  specialize (Hd p).
  generalize dependent (getQ sigma p * coeff)%Q.
  generalize dependent (getQ delta p); intros; lra.
Qed.

Lemma accumulate_step_nonneg P sigma s b delta w :
  nonneg sigma -> nonneg b -> nonneg delta ->
  nonneg (fst (accumulate_step P sigma s (b, delta) w))
  /\ nonneg (snd (accumulate_step P sigma s (b, delta) w)).
Proof.
  intros Hs Hb Hd; unfold accumulate_step.
  set (coeff := ((1 + getQ delta w) / getQ sigma w)%Q).
  assert (Hc : (0 <= coeff)%Q).
  { unfold coeff, Qdiv; apply Qmult_le_0_compat.
    - specialize (Hd w); generalize dependent (getQ delta w); intros; lra.
    - apply Qinv_le_0_compat, Hs. }
  pose proof (@delta_fold_nonneg sigma coeff (getL P w) delta Hs Hc Hd) as Hd'.
  destruct (str_eqb w s); simpl; split; auto.
  apply nonneg_set; auto.
  specialize (Hb w); specialize (Hd' w).
  generalize dependent (getQ b w).
  match goal with |- context [getQ ?d w] => generalize dependent (getQ d w) end.
  intros; lra.
Qed.

Lemma accumulate_fold_nonneg P sigma s ws : forall b delta,
  nonneg sigma -> nonneg b -> nonneg delta ->
  nonneg (fst (fold_left (accumulate_step P sigma s) ws (b, delta))).
Proof.
  induction ws as [|w ws IH]; intros b delta Hs Hb Hd; cbn [fold_left]; auto.
  destruct (@accumulate_step_nonneg P sigma s b delta w Hs Hb Hd) as [H1 H2].
  destruct (accumulate_step P sigma s (b, delta) w) as [b' delta'].
  now apply IH.
Qed.

Lemma add_source_nonneg g b s : nonneg b -> nonneg (add_source g b s).
Proof.
  intros H; unfold add_source, accumulate_basic.
  apply accumulate_fold_nonneg; auto; [apply search_nonneg|apply nonneg_zeros].
Qed.

Lemma add_sources_nonneg g l : forall b,
  nonneg b -> nonneg (fold_left (add_source g) l b).
Proof.
  induction l as [|s l IH]; intros b H; simpl; auto.
  apply IH; now apply add_source_nonneg.
Qed.

Lemma Q_of_nat_nonneg n : (0 <= inject_Z (Z.of_nat n))%Q.
Proof. change 0%Q with (inject_Z 0); rewrite <- Zle_Qle; lia. Qed.

Lemma rescale_nonneg b n k : nonneg b -> nonneg (rescale b n k).
Proof.
  intros H; unfold rescale; destruct (n <=? 2); auto.
  cbv zeta; intros x; rewrite getQ_scaled; apply Qmult_le_0_compat; auto.
  assert (S0 : (0 <= 1 / inject_Z (Z.of_nat ((n - 1) * (n - 2))))%Q).
  { unfold Qdiv; apply Qmult_le_0_compat; [discriminate|].
    apply Qinv_le_0_compat, Q_of_nat_nonneg. }
  destruct k as [k|]; auto.
  unfold Qdiv in *; apply Qmult_le_0_compat.
  - apply Qmult_le_0_compat; auto; apply Q_of_nat_nonneg.
  - apply Qinv_le_0_compat, Q_of_nat_nonneg.
Qed.

(** The keys of the scores. *)
Lemma accumulate_step_keys P sigma s b delta w :
  In w (map fst b) ->
  map fst (fst (accumulate_step P sigma s (b, delta) w)) = map fst b.
Proof.
  intros H; unfold accumulate_step.
  destruct (str_eqb w s); simpl; auto.
  unfold dict_setitem; now rewrite (keys_dset_old _ str_eqb_eq).
Qed.

Lemma accumulate_fold_keys P sigma s ws : forall b delta,
  incl ws (map fst b) ->
  map fst (fst (fold_left (accumulate_step P sigma s) ws (b, delta)))
  = map fst b.
Proof.
  induction ws as [|w ws IH]; intros b delta Hi; cbn [fold_left]; auto.
  pose proof (@accumulate_step_keys P sigma s b delta w (Hi w (or_introl eq_refl)))
    as K.
  destruct (accumulate_step P sigma s (b, delta) w) as [b' delta'].
  simpl in K; rewrite IH; auto.
  rewrite K; intros x Hx; apply Hi; now right.
Qed.

Lemma add_source_keys g b s :
  graph_ok g -> In s (nodes g) -> map fst b = nodes g ->
  map fst (add_source g b s) = nodes g.
Proof.
  intros Hok Hs Hk; unfold add_source, accumulate_basic, search.
  destruct (@sssp_total g s Hok Hs) as (st & E & Hi); rewrite E.
  rewrite accumulate_fold_keys; auto.
  rewrite Hk; intros x Hx; apply Hi; now apply in_rev.
Qed.

Lemma add_sources_keys g l : graph_ok g -> forall b,
  incl l (nodes g) -> map fst b = nodes g ->
  map fst (fold_left (add_source g) l b) = nodes g.
Proof.
  intros Hok; induction l as [|s l IH]; intros b Hi Hk; simpl; auto.
  apply IH; [intros x Hx; apply Hi; now right|].
  apply add_source_keys; auto; apply Hi; now left.
Qed.

Lemma rescale_keys b n k : map fst (rescale b n k) = map fst b.
Proof.
  unfold rescale; destruct (n <=? 2); auto; cbv zeta; apply keys_scaled.
Qed.

Lemma betweenness_spec sample g :
  sampler_ok sample -> graph_ok g ->
  exists b,
    betweenness_centrality sample g (Some (betweenness_k g)) = Some b
    /\ map fst b = nodes g /\ nonneg b.
Proof.
  intros Hs Hok.
  assert (Hi : incl (bfs_sources sample g (Some (betweenness_k g))) (nodes g)).
  { apply Hs; [apply Hok|apply Nat.le_min_r]. }
  unfold betweenness_centrality.
  rewrite (betweenness_from_total Hok _ Hi).
  eexists; split; [reflexivity|split].
  - rewrite rescale_keys; apply add_sources_keys; auto.
    rewrite map_map; apply map_id.
  - apply rescale_nonneg, add_sources_nonneg, nonneg_zeros.
Qed.

Lemma nonneg_In b v s :
  NoDup (map fst b) -> nonneg b -> In (v, s) b -> (0 <= s)%Q.
Proof.
  intros Hn H Hin; specialize (H v); unfold getQ, dict_get in H.
  now rewrite (@In_dget _ _ str_eqb str_eqb_eq b v s Hn Hin) in H.
Qed.

Lemma degree_centrality_keys g : map fst (degree_centrality g) = nodes g.
Proof.
  unfold degree_centrality; destruct (length g <=? 1).
  - rewrite map_map; apply map_id.
  - unfold degree, nodes; rewrite !map_map; apply map_ext; now intros [v l].
Qed.

End ScoreSignFacts.

Module BundleFacts.

Import Py Nx App Louvain Examples PyFacts NxFacts GraphFacts DictFacts BfsFacts.
Import ClosenessFacts BrandesFacts ConnectivityFacts LoopFacts LouvainFacts.
Import ParseFacts MetricFacts RangeFacts ScoreFacts PathFacts ScoreSignFacts.
Import Reach.

Lemma ratio_ge_1 a b : b <= a -> 0 < b -> (1 <= ratio a b)%Q.
Proof.
  intros Hab Hb; unfold ratio; apply Qle_shift_div_l.
  - unfold Qlt; simpl; lia.
  - rewrite Qmult_1_l, <- Zle_Qle; lia.
Qed.

Lemma firstn_sampler_ok : sampler_ok prefix_sample.
Proof.
  intros l k Hl Hk; unfold prefix_sample; split; [|split].
  - now apply firstn_length_le.
  - rewrite <- (firstn_skipn k l) in Hl; now apply NoDup_app_remove_r in Hl.
  - intros x; apply SortFacts.In_firstn.
Qed.

Lemma coin_shuffle_permutes (A : Type) (r : list nat) (l : list A) :
  Permutation (fst (coin_shuffle r l)) l.
Proof.
  unfold coin_shuffle; destruct r as [|n r]; simpl; auto.
  destruct (Nat.odd n); auto; symmetry; apply Permutation_rev.
Qed.

(** The bundle of a graph with a node. *)
Lemma metrics_bundle (sample : list node -> nat -> list node)
  (rs : Type) (shuffle : forall A : Type, rs -> list A -> list A * rs)
  (g : Graph) (r : rs) :
  sampler_ok sample ->
  (forall (A : Type) (q : rs) (l : list A), Permutation (fst (shuffle A q l)) l) ->
  graph_ok g -> nodes g <> [] ->
  exists m r',
    calculate_metrics sample shuffle g r = ret (Metrics m, r')
    /\ map fst (m_degree_centrality m) = nodes g
    /\ map fst (m_betweenness_centrality m) = nodes g
    /\ map fst (m_closeness_centrality m) = nodes g
    /\ map fst (m_communities m) = nodes g
    /\ map fst (m_clustering_coefficients m) = nodes g
    /\ ((exists x, m_avg_path_length m = PathLength x /\ all_reachable g)
        \/ (m_avg_path_length m = PathMessage "Graph is not connected"
            /\ disconnected g)).
Proof.
  intros Hsm Hsh Hok Hne; unfold calculate_metrics.
  replace (length (nodes g) =? 0) with false
    by (symmetry; apply Nat.eqb_neq; destruct (nodes g); simpl; congruence).
  destruct (@betweenness_spec sample g Hsm Hok) as (b & Eb & Kb & _).
  rewrite Eb.
  destruct (@closeness_fold g Hok (nodes g) []) as (cc & Ec & Kc & _);
    [apply incl_refl|].
  unfold closeness_centrality at 1; rewrite Ec; simpl.
  destruct (@best_partition_total rs shuffle Hsh g r Hok) as (p & r' & Ep & Kp).
  rewrite Ep; simpl.
  destruct (@avg_path_length_entry_spec g Hok Hne)
    as [(x & Ea & Hall) | [Ea Hd]]; rewrite Ea.
  + eexists; eexists; split; [reflexivity|]; simpl.
    repeat split; auto using degree_centrality_keys, clustering_keys.
    left; eauto.
  + eexists; eexists; split; [reflexivity|]; simpl.
    repeat split; auto using degree_centrality_keys, clustering_keys.
Qed.

End BundleFacts.

Module MetricExtras.

Import Py Nx App Louvain Examples PyFacts NxFacts GraphFacts DictFacts BfsFacts.
Import ClosenessFacts BrandesFacts ConnectivityFacts LoopFacts LouvainFacts.
Import ParseFacts MetricFacts RangeFacts ScoreFacts PathFacts ScoreSignFacts.
Import BundleFacts Reach.

(** X17: on a connected graph of two nodes or more the average path length
    is the sum of the shortest-path distances over all ordered pairs of
    nodes, divided by [n (n - 1)]; it is at least 1. *)
Theorem X17_avg_path_length_connected (g : Graph) :
  built g -> 2 <= length g -> all_reachable g ->
  exists table x,
    Forall2 (fun u sp => NoDup (map fst sp)
                         /\ forall v d, In (v, d) sp <-> dist g u v d)
            (nodes g) table
    /\ average_shortest_path_length g = ret x
    /\ avg_path_length_entry g = Some (PathLength x)
    /\ x = ratio (sum_nat (map (fun sp => sum_nat (map snd sp)) table))
                 (length g * (length g - 1))
    /\ (1 <= x)%Q.
Proof.
  intros Hb H2 Hall; pose proof (built_ok Hb) as Hok.
  destruct (@avg_path_length_connected g Hok H2 Hall) as (table & F & E & B).
  exists table; eexists; split; [exact F|].
  split; [exact E|].
  split; [unfold avg_path_length_entry; now rewrite E|].
  split; [reflexivity|].
  apply ratio_ge_1; [exact B|nia].
Qed.

Lemma fan_graph_all_reachable : all_reachable fan_graph.
Proof.
  assert (Hok : graph_ok fan_graph) by apply built_ok, parse_built.
  assert (Hne : nodes fan_graph <> []) by (vm_compute; discriminate).
  destruct (@is_connected_spec fan_graph Hok Hne) as [[_ H] | [E _]]; auto.
  vm_compute in E; discriminate.
Qed.

Lemma X17_avg_path_length_connected_witness :
  exists table x,
    Forall2 (fun u sp => NoDup (map fst sp)
                         /\ forall v d, In (v, d) sp <-> dist fan_graph u v d)
            (nodes fan_graph) table
    /\ average_shortest_path_length fan_graph = ret x
    /\ avg_path_length_entry fan_graph = Some (PathLength x)
    /\ x = ratio (sum_nat (map (fun sp => sum_nat (map snd sp)) table))
                 (length fan_graph * (length fan_graph - 1))
    /\ (1 <= x)%Q.
Proof.
  apply (@X17_avg_path_length_connected fan_graph).
  - apply parse_built.
  - vm_compute; lia.
  - exact fan_graph_all_reachable.
Defined.

(** X18: [calculate_metrics] returns for every graph the program can build,
    without raising: the empty dictionary and an untouched generator for the
    graph without nodes, and otherwise a bundle whose five per-node
    dictionaries have the nodes of the graph as their keys, in node order,
    and whose path-length entry is a number exactly when the graph is
    connected and the message exactly when it is not. *)
Theorem X18_calculate_metrics_total (sample : list node -> nat -> list node)
  (rs : Type) (shuffle : forall A : Type, rs -> list A -> list A * rs)
  (g : Graph) (r : rs) :
  sampler_ok sample ->
  (forall (A : Type) (q : rs) (l : list A), Permutation (fst (shuffle A q l)) l) ->
  built g ->
  (nodes g = [] -> calculate_metrics sample shuffle g r = ret (NoMetrics, r))
  /\ (nodes g <> [] ->
      exists m r',
        calculate_metrics sample shuffle g r = ret (Metrics m, r')
        /\ map fst (m_degree_centrality m) = nodes g
        /\ map fst (m_betweenness_centrality m) = nodes g
        /\ map fst (m_closeness_centrality m) = nodes g
        /\ map fst (m_communities m) = nodes g
        /\ map fst (m_clustering_coefficients m) = nodes g
        /\ ((exists x, m_avg_path_length m = PathLength x /\ all_reachable g)
            \/ (m_avg_path_length m = PathMessage "Graph is not connected"
                /\ disconnected g))).
Proof.
  intros Hsm Hsh Hb; split.
  - intros E; unfold calculate_metrics; now rewrite E.
  - intros Hne; apply metrics_bundle; auto; now apply built_ok.
Qed.

Lemma X18_calculate_metrics_total_witness :
  (nodes fan_graph = [] ->
   calculate_metrics prefix_sample coin_shuffle fan_graph [] = ret (NoMetrics, []))
  /\ (nodes fan_graph <> [] ->
      exists m r',
        calculate_metrics prefix_sample coin_shuffle fan_graph [] = ret (Metrics m, r')
        /\ map fst (m_degree_centrality m) = nodes fan_graph
        /\ map fst (m_betweenness_centrality m) = nodes fan_graph
        /\ map fst (m_closeness_centrality m) = nodes fan_graph
        /\ map fst (m_communities m) = nodes fan_graph
        /\ map fst (m_clustering_coefficients m) = nodes fan_graph
        /\ ((exists x, m_avg_path_length m = PathLength x
                       /\ all_reachable fan_graph)
            \/ (m_avg_path_length m = PathMessage "Graph is not connected"
                /\ disconnected fan_graph))).
Proof.
  apply (@X18_calculate_metrics_total prefix_sample (list nat) coin_shuffle
           fan_graph []).
  - exact firstn_sampler_ok.
  - exact coin_shuffle_permutes.
  - apply parse_built.
Defined.

(** X19: the betweenness call of [calculate_metrics] returns a score for
    each node, in node order, and no score is negative, whichever sources
    the random generator picks. *)
Theorem X19_betweenness_nonnegative (sample : list node -> nat -> list node)
  (g : Graph) :
  sampler_ok sample -> built g ->
  exists b,
    betweenness_centrality sample g (Some (betweenness_k g)) = Some b
    /\ map fst b = nodes g
    /\ forall v s, In (v, s) b -> (0 <= s)%Q.
Proof.
  intros Hs Hb; pose proof (built_ok Hb) as Hok.
  destruct (@betweenness_spec sample g Hs Hok) as (b & E & K & N).
  exists b; split; [exact E|split; [exact K|]].
  intros v s Hin; apply (@nonneg_In b v s); auto.
  rewrite K; apply Hok.
Qed.

Lemma X19_betweenness_nonnegative_witness :
  exists b,
    betweenness_centrality prefix_sample fan_graph
                           (Some (betweenness_k fan_graph)) = Some b
    /\ map fst b = nodes fan_graph
    /\ forall v s, In (v, s) b -> (0 <= s)%Q.
Proof.
  apply (@X19_betweenness_nonnegative prefix_sample fan_graph).
  - exact firstn_sampler_ok.
  - apply parse_built.
Defined.

Lemma stats_snoc (p : list (node * Z)) (v : node) (c : Z) :
  community_stats (p ++ [(v, c)])
  = dset Z.eqb (community_stats p) c
         (dget_default Z.eqb (community_stats p) c 0 + 1).
Proof. unfold community_stats; now rewrite fold_left_app. Qed.

(** X20: the community statistics of [index] hold one entry for each label
    that occurs in the partition, and the entry of a label is the number of
    nodes that carry it. *)
Theorem X20_community_stats_counts (partition : list (node * Z)) :
  NoDup (map fst (community_stats partition))
  /\ forall c,
       dget Z.eqb (community_stats partition) c
       = (let n := count_occ Z.eq_dec (map snd partition) c in
          if n =? 0 then None else Some n).
Proof.
  induction partition as [|[v c] p [IH1 IH2]] using rev_ind.
  - split; [constructor|reflexivity].
  - rewrite stats_snoc; split.
    + now apply (@NoDup_keys_dset _ _ Z.eqb Z.eqb_eq).
    + intros c'; rewrite (@dget_dset _ _ Z.eqb Z.eqb_eq).
      rewrite map_app, count_occ_app; simpl.
      unfold dget_default; rewrite IH2; cbv zeta.
      destruct (Z.eqb_spec c c') as [-> | Hne].
      * destruct (Z.eq_dec c' c'); [|congruence].
        destruct (count_occ Z.eq_dec (map snd p) c'); simpl; f_equal; lia.
      * destruct (Z.eq_dec c c'); [congruence|].
        now rewrite Nat.add_0_r.
Qed.

(** X25: adding a friendship that is already in the graph leaves the number
    of edges as it is, and adding a new one, a self-loop included, raises it
    by one. *)
Theorem X25_add_edge_count (g : Graph) (a b : node) :
  built g ->
  number_of_edges (add_edge g a b)
  = number_of_edges g + (if has_edge g a b then 0 else 1).
Proof.
  intros Hb; pose proof (built_ok Hb) as Hok.
  pose proof (@handshake g Hb) as H1.
  pose proof (@handshake (add_edge g a b) (built_add_edge a b Hb)) as H2.
  rewrite (degree_sum_add_edge a b Hok) in H2.
  destruct (has_edge g a b); lia.
Qed.

Lemma X25_add_edge_count_witness :
  number_of_edges (add_edge fan_graph (lit "Q") (lit "Z"))
  = number_of_edges fan_graph
    + (if has_edge fan_graph (lit "Q") (lit "Z") then 0 else 1).
Proof.
  apply (@X25_add_edge_count fan_graph (lit "Q") (lit "Z")), parse_built.
Defined.

End MetricExtras.

Module IndexFacts.

Import Py Nx App Louvain Index Examples PyFacts NxFacts GraphFacts DictFacts.
Import SortFacts ParseFacts MetricFacts RangeFacts ScoreFacts PathFacts.
Import ScoreSignFacts BundleFacts ParserFacts ReplayFacts Reach.

Lemma filter_head {A} (p : A -> bool) l x r :
  filter p l = x :: r ->
  exists l1 l2, l = l1 ++ x :: l2 /\ forall y, In y l1 -> p y = false.
Proof.
  induction l as [|a l IH]; simpl; [discriminate|].
  destruct (p a) eqn:E.
  - intros H; inversion H; subst; exists [], l; split; auto.
    intros y [].
  - intros H; destruct (IH H) as (l1 & l2 & -> & Hl).
    exists (a :: l1), l2; split; auto.
    intros y [<- | Hy]; auto.
Qed.

(** The head of the descending ranking is the first entry of greatest
    score. *)
Lemma ranking_head (scores : list (node * Q)) :
  scores <> [] ->
  exists u su rest l1 l2,
    sorted (@snd node Q) true scores = (u, su) :: rest
    /\ scores = l1 ++ (u, su) :: l2
    /\ (forall v s, In (v, s) scores -> (s <= su)%Q)
    /\ (forall v s, In (v, s) l1 -> (s < su)%Q).
Proof.
  intros Hne.
  destruct (sorted (@snd node Q) true scores) as [|[u su] rest] eqn:E.
  - apply (f_equal (@length _)) in E; rewrite sorted_length in E.
    destruct scores; [congruence|discriminate].
  - pose proof (sorted_StronglySorted (@snd node Q) true scores) as S.
    rewrite E in S; inversion S as [|? ? _ Hall]; subst.
    assert (Hmax : forall v s, In (v, s) scores -> (s <= su)%Q).
    { intros v s Hin; apply (sorted_In (@snd node Q) true) in Hin.
      rewrite E in Hin; destruct Hin as [Hin | Hin].
      - inversion Hin; apply Qle_refl.
      - rewrite Forall_forall in Hall; specialize (Hall _ Hin).
        simpl in Hall; now apply Qle_bool_iff in Hall. }
    pose proof (sorted_stable (@snd node Q) true su scores) as St.
    rewrite E in St; simpl in St; unfold has_key at 1 in St; simpl in St.
    rewrite (Qeq_bool_refl su) in St.
    symmetry in St; apply filter_head in St as (l1 & l2 & El & Hl).
    exists u, su, rest, l1, l2; repeat split; auto.
    intros v s Hin.
    assert (Hle : (s <= su)%Q) by (apply (Hmax v); rewrite El, in_app_iff; auto).
    specialize (Hl _ Hin); unfold has_key in Hl; simpl in Hl.
    apply Qle_lteq in Hle as [Hlt | Heq]; auto.
    apply Qeq_bool_iff in Heq; congruence.
Qed.

Lemma top5_length scores : length (top5 scores) = Nat.min 5 (length scores).
Proof. unfold top5; now rewrite length_firstn, sorted_length. Qed.

Lemma sample_user_spec g :
  nodes g <> [] ->
  exists u su l1 l2,
    sample_user g (top5 (degree_centrality g)) = Ok u
    /\ degree_centrality g = l1 ++ (u, su) :: l2
    /\ (forall v s, In (v, s) (degree_centrality g) -> (s <= su)%Q)
    /\ (forall v s, In (v, s) l1 -> (s < su)%Q).
Proof.
  intros Hne.
  assert (Hd : degree_centrality g <> []).
  { intros C; apply Hne; rewrite <- degree_centrality_keys, C; reflexivity. }
  destruct (@ranking_head (degree_centrality g) Hd) as (u & su & rest & l1 & l2 & E & El & Hmax & Hl).
  exists u, su, l1, l2; repeat split; auto.
  unfold sample_user, top5; rewrite E; reflexivity.
Qed.

Lemma sample_user_node g u :
  nodes g <> [] -> sample_user g (top5 (degree_centrality g)) = Ok u ->
  In u (nodes g).
Proof.
  intros Hne H.
  destruct (@sample_user_spec g Hne) as (u' & su & l1 & l2 & E & El & _).
  rewrite E in H; inversion H; subst u'.
  rewrite <- degree_centrality_keys, El, map_app, in_app_iff; simpl; auto.
Qed.

End IndexFacts.

Module IndexExtras.

Import Py Nx App Louvain Index Examples PyFacts NxFacts GraphFacts DictFacts.
Import SortFacts ParseFacts MetricFacts RangeFacts ScoreFacts PathFacts.
Import ScoreSignFacts BundleFacts ParserFacts ReplayFacts IndexFacts Reach.

(** X21: the user the handler asks recommendations for is the first node,
    in the order of the graph, among the nodes of greatest degree
    centrality; the fall-back to the first node of the graph is never
    taken on a graph with a node. *)
Theorem X21_sample_user_most_central (g : Graph) :
  nodes g <> [] ->
  exists u su before after,
    sample_user g (top5 (degree_centrality g)) = Ok u
    /\ degree_centrality g = before ++ (u, su) :: after
    /\ (forall v s, In (v, s) (degree_centrality g) -> (s <= su)%Q)
    /\ (forall v s, In (v, s) before -> (s < su)%Q).
Proof.
  intros Hne; destruct (@sample_user_spec g Hne) as (u & su & l1 & l2 & H).
  eauto 6.
Qed.

Lemma X21_sample_user_most_central_witness :
  exists u su before after,
    sample_user fan_graph (top5 (degree_centrality fan_graph)) = Ok u
    /\ degree_centrality fan_graph = before ++ (u, su) :: after
    /\ (forall v s, In (v, s) (degree_centrality fan_graph) -> (s <= su)%Q)
    /\ (forall v s, In (v, s) before -> (s < su)%Q).
Proof.
  apply (@X21_sample_user_most_central fan_graph).
  vm_compute; discriminate.
Defined.

Section Handler.
Variable image : Type.
Variable rs : Type.
Variable generate_visualization : Graph -> rs -> comp (image * rs).
Variable sample : list node -> nat -> list node.
Variable shuffle : forall A : Type, rs -> list A -> list A * rs.
Variable sum : list Binary64.float -> Binary64.float.

(** X22: a named file whose bytes decode as UTF-8 to a text in which no
    line has two tokens is answered with the upload page and the error
    ["No valid data found in the file."]; nothing is drawn or computed, and
    the generator is left as it was. *)
Theorem X22_index_no_valid_data (filename : str) (data : list Byte.byte)
  (content : str) (r : rs) :
  filename <> [] -> Utf8.decode data = Ok content ->
  (forall line, In line (split_newline content) -> length (split line) <= 1) ->
  index generate_visualization sample shuffle sum
        (POST (Some (filename, data))) r
  = ret (IndexPage image (Some "No valid data found in the file."%string), r).
Proof.
  intros Hf Hd H; unfold index; rewrite Hd.
  destruct filename as [|c filename]; [congruence|]; cbn [is_empty negb].
  unfold analyse.
  assert (E : nodes (parse_adjacency_list content) = []).
  { destruct (nodes (parse_adjacency_list content)) as [|v l] eqn:E; auto.
    exfalso; assert (Hv : In v (nodes (parse_adjacency_list content)))
      by (rewrite E; now left).
    apply In_nodes_fold_parse in Hv
      as [[] | (line & Hl & user & friends & Hs & Hfr & _)].
    specialize (H line Hl); rewrite Hs in H.
    destruct friends; [congruence|simpl in H; lia]. }
  now rewrite E.
Qed.

(** X23: a named file whose bytes decode as UTF-8 to a text with a line of
    two tokens or more is answered with the results page whenever the
    drawing returns: none of the later steps of the handler raises.  The
    page shows the number of nodes, which is not zero; the sample user is a
    node of the graph; the recommendations are those of [recommend_friends]
    for that user and the suspicious accounts those of
    [detect_potential_fake_accounts] at the threshold 0.1, computed in
    binary64; the community sizes add up to the number of nodes; each
    ranking has five entries, or as many as there are nodes. *)
Theorem X23_index_results (filename : str) (data : list Byte.byte)
  (content : str) (r r1 : rs) (picture : image) :
  sampler_ok sample ->
  (forall (A : Type) (q : rs) (l : list A), Permutation (fst (@shuffle A q l)) l) ->
  filename <> [] -> Utf8.decode data = Ok content ->
  (exists line, In line (split_newline content) /\ 2 <= length (split line)) ->
  let graph := parse_adjacency_list content in
  generate_visualization graph r = ret (picture, r1) ->
  exists res r2,
    index generate_visualization sample shuffle sum
          (POST (Some (filename, data))) r
    = ret (ResultsPage res, r2)
    /\ p_visualization res = picture
    /\ p_num_nodes res = length (nodes graph) /\ 0 < p_num_nodes res
    /\ p_num_edges res = number_of_edges graph
    /\ p_density res = density graph
    /\ In (p_sample_user res) (nodes graph)
    /\ recommend_friends graph (p_sample_user res) = Ok (p_recommendations res)
    /\ Rounded.detect_potential_fake_accounts sum graph Rounded.default_threshold
       = Ok (p_potential_fakes res)
    /\ sum_nat (map snd (p_community_stats res)) = p_num_nodes res
    /\ length (p_top_degree res) = Nat.min 5 (p_num_nodes res)
    /\ length (p_top_betweenness res) = Nat.min 5 (p_num_nodes res)
    /\ length (p_top_closeness res) = Nat.min 5 (p_num_nodes res).
Proof.
  intros Hsm Hsh Hf Hd (line & Hl & H2) graph Hv.
  pose proof (built_ok (parse_built content)) as Hok; fold graph in Hok.
  assert (Hne : nodes graph <> []).
  { destruct (split line) as [|user [|f friends]] eqn:Es; simpl in H2; try lia.
    assert (Hu : In user (nodes graph)).
    { apply In_nodes_fold_parse; right; exists line; split; auto.
      exists user, (f :: friends); repeat split; auto; [discriminate|now left]. }
    intros C; rewrite C in Hu; destruct Hu. }
  unfold index; rewrite Hd.
  destruct filename as [|c0 filename]; [congruence|]; cbn [is_empty negb].
  unfold analyse; fold graph.
  replace (length (nodes graph) =? 0) with false
    by (symmetry; apply Nat.eqb_neq; destruct (nodes graph); simpl; congruence).
  rewrite Hv; cbv beta iota delta [cbind ret].
  destruct (@metrics_bundle sample rs shuffle graph r1 Hsm Hsh Hok Hne)
    as (m & r2 & Em & Kd & Kb & Kc & Kp & _).
  assert (Ed : m_degree_centrality m = degree_centrality graph
               /\ m_density m = density graph).
  { unfold calculate_metrics in Em.
    destruct (length (nodes graph) =? 0); [discriminate|].
    destruct (betweenness_centrality sample graph _); [|discriminate].
    destruct (closeness_centrality graph) as [[cc|]|]; try discriminate.
    cbv beta iota delta [cbind] in Em.
    destruct (best_partition shuffle graph r1) as [[[p r']|]|]; try discriminate.
    destruct (avg_path_length_entry graph); [|discriminate].
    inversion Em; split; reflexivity. }
  destruct Ed as [Ed Eden].
  rewrite Em; cbv beta iota delta [ret].
  destruct (@sample_user_spec graph Hne) as (u & su & l1 & l2 & Eu & El & _).
  rewrite Ed, Eu.
  assert (Hu : In u (nodes graph)) by (now apply sample_user_node).
  destruct (recommend_friends graph u) as [recs|e] eqn:Er;
    [|rewrite (@recommend_friends_spec graph u (ok_nodes Hok) Hu) in Er;
      discriminate].
  destruct (@RoundedFacts.rounded_average_returns sum graph Hne) as (avg & Ea).
  destruct (Rounded.detect_potential_fake_accounts sum graph
              Rounded.default_threshold) as [fakes|e] eqn:Ef;
    [|rewrite (@RoundedFacts.detect_flagged sum graph Rounded.default_threshold
                 avg Ea) in Ef; discriminate].
  eexists; eexists; split; [reflexivity|].
  cbn [p_visualization p_num_nodes p_num_edges p_density p_sample_user
       p_recommendations p_potential_fakes p_community_stats p_top_degree
       p_top_betweenness p_top_closeness].
  assert (Hlen : forall d : list (node * Q),
             map fst d = nodes graph -> length d = length (nodes graph)).
  { intros d <-; now rewrite length_map. }
  repeat split; auto.
  - destruct (nodes graph); simpl; [congruence|lia].
  - rewrite community_stats_sum, <- Kp; now rewrite length_map.
  - rewrite top5_length, <- Ed; f_equal; now apply Hlen.
  - rewrite top5_length; f_equal; now apply Hlen.
  - rewrite top5_length; f_equal; now apply Hlen.
Qed.

End Handler.

Lemma X22_index_no_valid_data_witness :
  index (fun _ r => ret (tt, r)) prefix_sample coin_shuffle Binary64.left_sum
        (POST (Some (lit "friends.txt", Utf8.ascii (lit "lonely

")))) []
  = ret (IndexPage unit (Some "No valid data found in the file."%string), []).
Proof.
  apply (@X22_index_no_valid_data unit (list nat) (fun _ r => ret (tt, r))
           prefix_sample coin_shuffle Binary64.left_sum (lit "friends.txt")
           (Utf8.ascii (lit "lonely

")) (lit "lonely

") []).
  - discriminate.
  - vm_compute; reflexivity.
  - intros line Hl; vm_compute in Hl.
    repeat (destruct Hl as [<- | Hl]; [vm_compute; lia|]); destruct Hl.
Defined.

Lemma X23_index_results_witness :
  let graph := parse_adjacency_list (lit "Q X
C X
B X") in
  exists res r2,
    index (fun _ r => ret (tt, r)) prefix_sample coin_shuffle Binary64.left_sum
          (POST (Some (lit "friends.txt", Utf8.ascii (lit "Q X
C X
B X")))) []
    = ret (ResultsPage res, r2)
    /\ p_visualization res = tt
    /\ p_num_nodes res = length (nodes graph) /\ 0 < p_num_nodes res
    /\ p_num_edges res = number_of_edges graph
    /\ p_density res = density graph
    /\ In (p_sample_user res) (nodes graph)
    /\ recommend_friends graph (p_sample_user res) = Ok (p_recommendations res)
    /\ Rounded.detect_potential_fake_accounts Binary64.left_sum graph
         Rounded.default_threshold
       = Ok (p_potential_fakes res)
    /\ sum_nat (map snd (p_community_stats res)) = p_num_nodes res
    /\ length (p_top_degree res) = Nat.min 5 (p_num_nodes res)
    /\ length (p_top_betweenness res) = Nat.min 5 (p_num_nodes res)
    /\ length (p_top_closeness res) = Nat.min 5 (p_num_nodes res).
Proof.
  apply (@X23_index_results unit (list nat) (fun _ r => ret (tt, r))
           prefix_sample coin_shuffle Binary64.left_sum (lit "friends.txt")
           (Utf8.ascii (lit "Q X
C X
B X")) (lit "Q X
C X
B X") [] [] tt).
  - exact firstn_sampler_ok.
  - exact coin_shuffle_permutes.
  - discriminate.
  - vm_compute; reflexivity.
  - exists (lit "Q X"); split; [vm_compute; auto|vm_compute; lia].
  - reflexivity.
Defined.

End IndexExtras.

Module LabelFacts.

Import Py Louvain DictFacts SumFacts LoopFacts LouvainFacts.

Local Open Scope Z_scope.

Section Renumber.
Variable K : Type.
Variable K_dec : forall a b : K, {a = b} + {a <> b}.

Local Abbreviation keq := (keqb K_dec).
Local Abbreviation keq_eq := (keqb_eq K_dec).

(** The state of the loop of [__renumber] after the items [done], with the
    items [todo] to come. *)
Record rinv (d done todo : list (K * Z))
  (ret : list (K * Z)) (new_values : list (Z * Z)) (count : Z) : Prop := {
  r_keys : map fst ret = map fst d;
  r_count : 0 <= count <= Z.of_nat (length done);
  r_new : forall c,
      (exists v, dget Z.eqb new_values v = Some c) <-> 0 <= c < count;
  r_nvkeys : forall v, In v (map fst new_values) <-> In v (map snd done);
  r_done : forall k v, In (k, v) done ->
                       dget keq ret k = dget Z.eqb new_values v;
  r_todo : forall k v, In (k, v) todo -> dget keq ret k = Some v
}.

Lemma dget_Some_key {A B} (eqb : A -> A -> bool)
  (eqb_eq : forall a b, eqb a b = true <-> a = b) (d : list (A * B)) k v :
  dget eqb d k = Some v -> In k (map fst d).
Proof.
  intros H; destruct (in_dec
    (fun a b => match Bool.bool_dec (eqb a b) true with
                | left e => left (proj1 (eqb_eq a b) e)
                | right n => right (fun E => n (proj2 (eqb_eq a b) E))
                end) k (map fst d)) as [Hin | Hn]; auto.
  apply (dget_None _ eqb_eq) in Hn; congruence.
Qed.

Lemma rinv_step d done k v todo ret nv count :
  NoDup (map fst d) -> d = done ++ (k, v) :: todo ->
  rinv d done ((k, v) :: todo) ret nv count ->
  let '(ret', nv', count') := renumber_step K_dec (ret, nv, count) (k, v) in
  rinv d (done ++ [(k, v)]) todo ret' nv' count'.
Proof.
  intros Hn Hd I.
  assert (Hk : In k (map fst ret)).
  { rewrite (r_keys I), Hd, map_app, in_app_iff; simpl; auto. }
  assert (Hdone : forall k' v', In (k', v') done -> k' <> k).
  { intros k' v' Hin ->; rewrite Hd, map_app in Hn; simpl in Hn.
    apply NoDup_remove_2 in Hn; apply Hn, in_app_iff; left.
    change k with (fst (k, v')); now apply in_map. }
  assert (Htodo : forall k' v', In (k', v') todo -> k' <> k).
  { intros k' v' Hin ->; rewrite Hd, map_app in Hn; simpl in Hn.
    apply NoDup_remove_2 in Hn; apply Hn, in_app_iff; right.
    change k with (fst (k, v')); now apply in_map. }
  unfold renumber_step, dget_default.
  destruct (dget Z.eqb nv v) as [c|] eqn:E.
  - assert (Hc : 0 <= c < count) by (apply (r_new I); eauto).
    replace (c =? -1) with false by (symmetry; apply Z.eqb_neq; lia).
    split.
    + rewrite (keys_dset_old _ keq_eq); auto; apply I.
    + pose proof (r_count I); rewrite length_app; simpl; lia.
    + apply I.
    + intros v'; rewrite map_app, in_app_iff; simpl.
      rewrite (r_nvkeys I); split; [tauto|].
      intros [H | [<- | []]]; auto.
      apply (r_nvkeys I); eapply dget_Some_key; [apply Z.eqb_eq|eauto].
    + intros k' v' Hin; apply in_app_iff in Hin as [Hin | [Hin | []]].
      * rewrite (dget_dset _ keq_eq).
        replace (keq k k') with false
          by (symmetry; apply (eqb_neq _ keq_eq); intros ->;
              now apply (Hdone _ _ Hin)).
        now apply (r_done I).
      * inversion Hin; subst.
        rewrite (dget_dset _ keq_eq), (keqb_refl K_dec); congruence.
    + intros k' v' Hin; rewrite (dget_dset _ keq_eq).
      replace (keq k k') with false
        by (symmetry; apply (eqb_neq _ keq_eq); intros ->;
            now apply (Htodo _ _ Hin)).
      apply (r_todo I); now right.
  - change (-1 =? -1) with true; cbv iota.
    pose proof (r_count I) as Hc.
    assert (Hv : ~ In v (map fst nv)) by now apply (dget_None _ Z.eqb_eq).
    split.
    + rewrite (keys_dset_old _ keq_eq); auto; apply I.
    + rewrite length_app; simpl; lia.
    + intros c; split.
      * intros [v' H]; rewrite (@dget_dset _ _ Z.eqb Z.eqb_eq) in H.
        destruct (v =? v'); [inversion H; lia|].
        assert (0 <= c < count) by (apply (r_new I); eauto); lia.
      * intros H; destruct (Z.eq_dec c count) as [-> | Hne].
        -- exists v; rewrite (@dget_dset _ _ Z.eqb Z.eqb_eq), Z.eqb_refl; auto.
        -- assert (H' : 0 <= c < count) by lia.
           apply (r_new I) in H' as [v' H']; exists v'.
           rewrite (@dget_dset _ _ Z.eqb Z.eqb_eq).
           destruct (Z.eqb_spec v v') as [<- | ]; [congruence|auto].
    + intros v'; rewrite (@In_keys_dset _ _ Z.eqb Z.eqb_eq).
      rewrite map_app, in_app_iff, (r_nvkeys I); simpl; intuition.
    + intros k' v' Hin; apply in_app_iff in Hin as [Hin | [Hin | []]].
      * rewrite (dget_dset _ keq_eq), (@dget_dset _ _ Z.eqb Z.eqb_eq).
        replace (keq k k') with false
          by (symmetry; apply (eqb_neq _ keq_eq); intros ->;
              now apply (Hdone _ _ Hin)).
        destruct (Z.eqb_spec v v') as [<- | ]; [|now apply (r_done I)].
        exfalso; apply Hv, (r_nvkeys I).
        change v with (snd (k', v)); now apply in_map.
      * inversion Hin; subst.
        now rewrite (dget_dset _ keq_eq), (@dget_dset _ _ Z.eqb Z.eqb_eq),
          (keqb_refl K_dec), Z.eqb_refl.
    + intros k' v' Hin; rewrite (dget_dset _ keq_eq).
      replace (keq k k') with false
        by (symmetry; apply (eqb_neq _ keq_eq); intros ->;
            now apply (Htodo _ _ Hin)).
      apply (r_todo I); now right.
Qed.

Lemma rinv_fold d : NoDup (map fst d) -> forall todo done ret nv count,
  d = done ++ todo -> rinv d done todo ret nv count ->
  let '(ret', nv', count') :=
    fold_left (renumber_step K_dec) todo (ret, nv, count) in
  rinv d d [] ret' nv' count'.
Proof.
  intros Hn; induction todo as [|[k v] todo IH];
    intros done ret nv count Hd I.
  - rewrite app_nil_r in Hd; subst done; exact I.
  - cbn [fold_left].
    pose proof (rinv_step Hn Hd I) as I'.
    destruct (renumber_step K_dec (ret, nv, count) (k, v)) as [[ret' nv'] count'].
    apply (IH (done ++ [(k, v)])); auto.
    now rewrite <- app_assoc.
Qed.

(** The new labels are the numbers from 0 up to the number of communities,
    all of them. *)
Lemma renumber_dense (d : list (K * Z)) :
  NoDup (map fst d) ->
  exists m,
    0 <= m <= Z.of_nat (length d)
    /\ forall c, In c (map snd (renumber K_dec d)) <-> 0 <= c < m.
Proof.
  intros Hn; unfold renumber.
  assert (I0 : rinv d [] d d [] 0).
  { split; simpl.
    - reflexivity.
    - lia.
    - intros c; split; [intros [v H]; discriminate|lia].
    - tauto.
    - intros k v [].
    - intros k v Hin; now apply (In_dget _ keq_eq). }
  pose proof (@rinv_fold d Hn d [] d [] 0 eq_refl I0) as I.
  destruct (fold_left (renumber_step K_dec) d (d, [], 0)) as [[ret nv] m].
  simpl; exists m; split; [apply I|].
  assert (Hnr : NoDup (map fst ret)) by (rewrite (r_keys I); exact Hn).
  intros c; split.
  - intros Hc; apply in_map_iff in Hc as ([k c'] & E & Hin); simpl in E; subst c'.
    assert (Hk : In k (map fst d)).
    { rewrite <- (r_keys I); change k with (fst (k, c)); now apply in_map. }
    apply in_map_iff in Hk as ([k' v] & E & Hkv); simpl in E; subst k'.
    apply (r_new I); exists v.
    rewrite <- (r_done I k v Hkv); now apply (In_dget _ keq_eq).
  - intros Hc; apply (r_new I) in Hc as [v Hv].
    assert (Hin : In v (map snd d)).
    { apply (r_nvkeys I); eapply dget_Some_key; [apply Z.eqb_eq|eauto]. }
    apply in_map_iff in Hin as ([k v'] & E & Hkv); simpl in E; subst v'.
    rewrite <- (r_done I k v Hkv) in Hv.
    apply (dget_Some_In _ keq_eq) in Hv; change c with (snd (k, c)); now apply in_map.
Qed.

End Renumber.


Lemma dget_default_value {A} (eqb : A -> A -> bool)
  (eqb_eq : forall a b, eqb a b = true <-> a = b)
  (p : list (A * Z)) k default :
  In k (map fst p) -> In (dget_default eqb p k default) (map snd p).
Proof.
  unfold dget_default; induction p as [|[k' c] p IH]; simpl; [tauto|].
  destruct (eqb k' k) eqn:E; auto.
  intros [H | H]; auto.
  apply eqb_eq in H; congruence.
Qed.

Section Induced.
Variable K : Type.
Variable K_dec : forall a b : K, {a = b} + {a <> b}.

Local Abbreviation keq := (keqb K_dec).
Local Abbreviation keq_eq := (keqb_eq K_dec).

Lemma In_wnodes_add_edge (g : WGraph K) u v w x :
  In x (wnodes (wadd_edge K_dec g u v w)) <-> In x (wnodes g) \/ x = u \/ x = v.
Proof.
  unfold wadd_edge; rewrite !wnodes_set_adj, !In_wnodes_ensure; tauto.
Qed.

Lemma wedge_ends (g : WGraph K) n nbr w :
  wok K_dec g -> In (n, nbr, w) (wedges K_dec g) ->
  In n (wnodes g) /\ In nbr (wnodes g).
Proof.
  intros H Hin; apply In_wedges_from in Hin as (nbrs & H1 & H2).
  assert (E1 : wadj K_dec g n = nbrs).
  { unfold wadj, dget_default.
    rewrite (In_dget _ keq_eq g n nbrs); [reflexivity|apply H|exact H1]. }
  split.
  - change n with (fst (n, nbrs)); now apply in_map.
  - apply (wok_closed H n); rewrite E1.
    change nbr with (fst (nbr, w)); now apply in_map.
Qed.

End Induced.

Lemma In_ensure_fold l : forall (ret : WGraph Z) x,
  In x (wnodes (fold_left (wensure_node Z.eq_dec) l ret))
  <-> In x (wnodes ret) \/ In x l.
Proof.
  induction l as [|c l IH]; intros ret x; simpl; [tauto|].
  rewrite IH, In_wnodes_ensure; intuition.
Qed.

(** The nodes of the induced graph are the labels of the partition. *)
Lemma In_wnodes_induced {K} (K_dec : forall a b : K, {a = b} + {a <> b})
  (partition : list (K * Z)) (g : WGraph K) :
  wok K_dec g -> (forall n, In n (wnodes g) -> In n (map fst partition)) ->
  forall x, In x (wnodes (induced_graph K_dec partition g))
            <-> In x (map snd partition).
Proof.
  intros Hw Hk; unfold induced_graph.
  assert (H0 : forall x,
             In x (wnodes (fold_left (wensure_node Z.eq_dec)
                                     (map snd partition) []))
             <-> In x (map snd partition)).
  { intros x; rewrite In_ensure_fold; simpl; tauto. }
  assert (He : forall e, In e (wedges K_dec g) ->
                         In (fst (fst e)) (map fst partition)
                         /\ In (snd (fst e)) (map fst partition)).
  { intros [[n nbr] w] Hin; simpl.
    destruct (@wedge_ends K K_dec g n nbr w Hw Hin); auto. }
  revert H0 He.
  generalize (fold_left (wensure_node Z.eq_dec) (map snd partition) []) as ret.
  generalize (wedges K_dec g) as es.
  induction es as [|[[n nbr] w] es IH]; intros ret H0 He; simpl; auto.
  apply IH; [|intros e He'; apply He; now right].
  intros x; rewrite In_wnodes_add_edge, H0.
  destruct (He (n, nbr, w) (or_introl eq_refl)) as [H1 H2]; simpl in H1, H2.
  pose proof (@dget_default_value K _ (keqb_eq K_dec) partition n (-1) H1) as V1.
  pose proof (@dget_default_value K _ (keqb_eq K_dec) partition nbr (-1) H2) as V2.
  split; [intros [X | [-> | ->]]; auto|auto].
Qed.

Lemma length_in_range (l : list Z) m :
  0 <= m -> NoDup l -> (forall c, In c l -> 0 <= c < m) ->
  Z.of_nat (length l) <= m.
Proof.
  intros Hm Hn H.
  assert (Hi : incl l (map Z.of_nat (seq 0 (Z.to_nat m)))).
  { intros c Hc; apply H in Hc; apply in_map_iff.
    exists (Z.to_nat c); split; [lia|apply in_seq; lia]. }
  apply NoDup_incl_length in Hi; auto.
  rewrite length_map, length_seq in Hi; lia.
Qed.

Lemma length_of_range (l : list Z) m :
  NoDup l -> (forall c, In c l <-> 0 <= c < m) -> 0 <= m ->
  Z.of_nat (length l) = m.
Proof.
  intros Hn H Hm.
  assert (P : Permutation l (map Z.of_nat (seq 0 (Z.to_nat m)))).
  { apply NoDup_Permutation; auto.
    - apply Finite.Injective_map_NoDup; [|apply seq_NoDup].
      intros a b; lia.
    - intros c; rewrite H, in_map_iff; split.
      + intros Hc; exists (Z.to_nat c); split; [lia|apply in_seq; lia].
      + intros (a & <- & Ha); apply in_seq in Ha; lia. }
  apply Permutation_length in P; rewrite length_map, length_seq in P; lia.
Qed.

Definition dense (bound : nat) (p : list (str * Z)) : Prop :=
  exists m, 0 <= m <= Z.of_nat bound
            /\ forall c, In c (map snd p) <-> 0 <= c < m.

Lemma partition_at_top_snoc first levels p :
  partition_at_top first (levels ++ [p])
  = map (fun '(n, c) => (n, dget_default Z.eqb p c (-1)))
        (partition_at_top first levels).
Proof. unfold partition_at_top; now rewrite fold_left_app. Qed.

Section Labels.
Variable rs : Type.
Variable shuffle : forall A : Type, rs -> list A -> list A * rs.
Hypothesis shuffle_perm :
  forall (A : Type) (r : rs) (l : list A), Permutation (fst (shuffle r l)) l.
Variable first : list (str * Z).

Definition labels_ok (st : level_state rs) : Prop :=
  (forall c, In c (map snd (partition_at_top first (status_list st)))
             <-> In c (wnodes (current_graph st)))
  /\ exists m, 0 <= m <= Z.of_nat (length first)
               /\ forall c, In c (wnodes (current_graph st)) <-> 0 <= c < m.

Lemma level_step_labels st :
  level_ok st -> labels_ok st ->
  match level_step shuffle st with
  | inl st' => labels_ok st'
  | inr res => exists levels r,
      res = ret (levels, r) /\ dense (length first) (partition_at_top first levels)
  end.
Proof.
  intros [Hw Hi] [Ha (m & Hm & Hb)]; unfold level_step.
  destruct (one_level_total Hw shuffle shuffle_perm (rng st) Hi)
    as (s' & r & E & Hs').
  rewrite E.
  destruct (Qltb (modularity s' - cur_mod st) MIN) eqn:L.
  - do 2 eexists; split; [reflexivity|].
    exists m; split; auto; intros c; now rewrite Ha.
  - set (p := renumber Z.eq_dec (node2com s')).
    pose proof (@induced_graph_wok Z Z.eq_dec p (current_graph st) Hw) as Hw'.
    destruct (init_inv Hw') as (s'' & E'' & Hs'').
    rewrite E''; unfold labels_ok; simpl.
    assert (Kp : map fst p = wnodes (current_graph st)).
    { unfold p; rewrite renumber_keys; apply (inv_keys Hs'). }
    assert (Np : NoDup (map fst p)) by (rewrite Kp; apply Hw).
    assert (Nn : NoDup (map fst (node2com s')))
      by (rewrite (inv_keys Hs'); apply Hw).
    destruct (@renumber_dense Z Z.eq_dec (node2com s') Nn) as (m' & Hm' & Hd);
      fold p in Hd.
    assert (Hg : forall x, In x (wnodes (induced_graph Z.eq_dec p (current_graph st)))
                           <-> In x (map snd p)).
    { apply In_wnodes_induced; auto; intros n Hn; now rewrite Kp. }
    split.
    + intros c'; rewrite Hg, partition_at_top_snoc, map_map; split.
      * intros Hc; apply in_map_iff in Hc as ([n c] & <- & Hin); simpl.
        apply (@dget_default_value Z Z.eqb Z.eqb_eq); rewrite Kp; apply Ha.
        change c with (snd (n, c)); now apply in_map.
      * intros Hc; apply in_map_iff in Hc as ([k c] & <- & Hin); simpl.
        assert (Hk : In k (map snd (partition_at_top first (status_list st)))).
        { apply Ha; rewrite <- Kp; change k with (fst (k, c)); now apply in_map. }
        apply in_map_iff in Hk as ([n k'] & Ek & Hk); simpl in Ek; subst k'.
        apply in_map_iff; exists (n, k); split; auto; simpl.
        unfold dget_default.
        now rewrite (In_dget _ Z.eqb_eq p k c Np Hin).
    + exists m'; split; [|intros c; now rewrite Hg].
      assert (Len : Z.of_nat (length (wnodes (current_graph st))) <= m).
      { apply length_in_range; [lia|apply Hw|intros c Hc; now apply Hb]. }
      rewrite <- (inv_keys Hs'), length_map in Len; lia.
Qed.

Lemma level_loop_labels st :
  level_ok st -> labels_ok st ->
  exists levels r,
    iterate (pass_budget (cur_mod st)) (level_step shuffle) st
    = inr (ret (levels, r))
    /\ dense (length first) (partition_at_top first levels).
Proof.
  intros H1 H2.
  destruct (@iterate_ends _ _ (level_step shuffle)
              (fun st => level_ok st /\ labels_ok st)
              (fun res => exists levels r,
                   res = ret (levels, r)
                   /\ dense (length first) (partition_at_top first levels))
              (fun st => rounds_left (cur_mod st)))
    with (p := pass_budget (cur_mod st)) (s := st)
    as (res & E & levels & r & -> & Hd); eauto.
  - intros s s' [Hs Hl] Es; pose proof (@level_step_spec rs shuffle shuffle_perm s Hs) as X.
    pose proof (level_step_labels Hs Hl) as Y.
    rewrite Es in X, Y; tauto.
  - intros s res [Hs Hl] Es; pose proof (level_step_labels Hs Hl) as Y.
    now rewrite Es in Y.
  - apply rounds_left_budget.
Qed.

End Labels.

Lemma map_snd_combine {A B} (l : list A) (l' : list B) :
  length l = length l' -> map snd (combine l l') = l'.
Proof.
  revert l'; induction l as [|x l IH]; intros [|y l'] H; simpl in *;
    auto; try lia.
  f_equal; apply IH; lia.
Qed.

Section Run.
Variable rs : Type.
Variable shuffle : forall A : Type, rs -> list A -> list A * rs.
Hypothesis shuffle_perm :
  forall (A : Type) (r : rs) (l : list A), Permutation (fst (shuffle r l)) l.

Lemma generate_dendrogram_labels (g : Nx.Graph) (r : rs) :
  GraphFacts.graph_ok g ->
  exists first levels r',
    generate_dendrogram shuffle g r = ret (first, levels, r')
    /\ dense (length g) (partition_at_top first levels).
Proof.
  intros Hg; unfold generate_dendrogram.
  destruct (Nx.number_of_edges g =? 0)%nat.
  - do 3 eexists; split; [reflexivity|].
    exists (Z.of_nat (length g)); split; [lia|].
    unfold partition_at_top; simpl; intros c.
    rewrite map_snd_combine
      by (unfold Nx.nodes; now rewrite !length_map, length_seq).
    rewrite in_map_iff; split.
    + intros (a & <- & Ha); apply in_seq in Ha; lia.
    + intros Hc; exists (Z.to_nat c); split; [lia|apply in_seq; lia].
  - pose proof (of_graph_wok Hg) as Hw.
    destruct (init_inv Hw) as (s0 & E0 & I0); rewrite E0.
    destruct (one_level_total Hw shuffle shuffle_perm r I0)
      as (s1 & r1 & E1 & I1); rewrite E1.
    set (first := renumber str_eq_dec (node2com s1)).
    pose proof (@induced_graph_wok str str_eq_dec first (of_graph g) Hw) as Hw1.
    destruct (init_inv Hw1) as (s2 & E2 & I2); rewrite E2.
    assert (Kf : map fst first = wnodes (of_graph g)).
    { unfold first; rewrite renumber_keys; apply (inv_keys I1). }
    assert (Nn : NoDup (map fst (node2com s1)))
      by (rewrite (inv_keys I1); apply Hw).
    destruct (@renumber_dense str str_eq_dec (node2com s1) Nn) as (m & Hm & Hd);
      fold first in Hd.
    assert (Lf : length first = length g).
    { rewrite <- (length_map fst first), Kf, wnodes_of_graph.
      unfold Nx.nodes; now rewrite length_map. }
    assert (Ln : length (node2com s1) = length g).
    { rewrite <- (length_map fst (node2com s1)), (inv_keys I1), wnodes_of_graph.
      unfold Nx.nodes; now rewrite length_map. }
    destruct (@level_loop_labels rs shuffle shuffle_perm first
                {| current_graph := induced_graph str_eq_dec first (of_graph g);
                   status := s2; cur_mod := modularity s1;
                   status_list := []; rng := r1 |})
      as (levels & r2 & E & D).
    + split; assumption.
    + split; simpl.
      * intros c; symmetry; apply In_wnodes_induced; auto.
        intros n Hn; now rewrite Kf.
      * exists m; split; [lia|].
        intros c; rewrite <- Hd; apply In_wnodes_induced; auto.
        intros n Hn; now rewrite Kf.
    + simpl in E; rewrite E.
      do 3 eexists; split; [reflexivity|].
      now rewrite Lf in D.
Qed.

(** The labels of the partition are the numbers from 0 up to the number of
    communities. *)
Lemma best_partition_labels (g : Nx.Graph) (r : rs) :
  GraphFacts.graph_ok g ->
  exists partition r',
    best_partition shuffle g r = ret (partition, r')
    /\ dense (length g) partition.
Proof.
  intros Hg; unfold best_partition.
  destruct (generate_dendrogram_labels r Hg) as (first & levels & r' & E & D).
  rewrite E; simpl; eauto.
Qed.

End Run.

End LabelFacts.

Module LabelExtras.

Import Py Nx App Louvain Examples DictFacts GraphFacts LouvainFacts MetricFacts.
Import BundleFacts LabelFacts.

Lemma stats_keys (p : list (node * Z)) :
  NoDup (map fst (community_stats p))
  /\ forall c, In c (map fst (community_stats p)) <-> In c (map snd p).
Proof.
  induction p as [|[v c] p [IH1 IH2]] using rev_ind.
  - split; [constructor|reflexivity].
  - unfold community_stats in *; rewrite fold_left_app; simpl; split.
    + now apply (NoDup_keys_dset _ Z.eqb_eq).
    + intros c'; rewrite (In_keys_dset _ Z.eqb_eq), IH2, map_app, in_app_iff.
      simpl; intuition.
Qed.

(** X24: the community labels are dense: the partition uses exactly the
    labels 0, 1, ..., m - 1 for some m that is at most the number of nodes,
    and m is the number of entries of the community statistics. *)
Theorem X24_partition_labels_dense (rs : Type)
  (shuffle : forall A : Type, rs -> list A -> list A * rs)
  (g : Graph) (r : rs) :
  (forall (A : Type) (q : rs) (l : list A), Permutation (fst (shuffle A q l)) l) ->
  built g ->
  exists partition r' m,
    best_partition shuffle g r = ret (partition, r')
    /\ (0 <= m <= Z.of_nat (length (nodes g)))%Z
    /\ (forall c, (exists v, In (v, c) partition) <-> (0 <= c < m)%Z)
    /\ Z.of_nat (length (community_stats partition)) = m.
Proof.
  intros Hs Hb; pose proof (built_ok Hb) as Hok.
  destruct (@best_partition_labels rs shuffle Hs g r Hok)
    as (p & r' & E & m & Hm & Hd).
  exists p, r', m; split; [exact E|].
  split; [unfold nodes; rewrite length_map; exact Hm|].
  split.
  - intros c; rewrite <- Hd, in_map_iff; split.
    + intros [v Hv]; exists (v, c); auto.
    + intros ([v c'] & <- & Hv); eauto.
  - destruct (stats_keys p) as [Hn Hk].
    rewrite <- (length_map fst).
    apply length_of_range; [exact Hn| |lia].
    intros c; now rewrite Hk, Hd.
Qed.

Lemma X24_partition_labels_dense_witness :
  exists partition r' m,
    best_partition coin_shuffle path_graph [] = ret (partition, r')
    /\ (0 <= m <= Z.of_nat (length (nodes path_graph)))%Z
    /\ (forall c, (exists v, In (v, c) partition) <-> (0 <= c < m)%Z)
    /\ Z.of_nat (length (community_stats partition)) = m.
Proof.
  apply (@X24_partition_labels_dense (list nat) coin_shuffle path_graph []).
  - exact coin_shuffle_permutes.
  - apply parse_built.
Defined.

End LabelExtras.
